(** * business_scraper.py: the extraction and qualification pipeline

    A shallow embedding of [SmallBusinessScraper] (src/business_scraper.py):
    the contact signal extraction of [extract_business_info] (emails,
    phones, address), the merge of the model reply with those signals, the
    classifier [is_small_independent_business] and the orchestrator loop
    [scrape_businesses].

    Modelling conventions.
    - A Python [str] is a [list ascii]; characters are 7-bit ASCII, and the
      character classes of [re] ([\d], [\s], [\w]) and [str.lower] /
      [str.strip] are given on that range.  The code that reads [\d], [\s]
      or [str.strip] off a page (phones, address, zip code check, cleaning
      of the text) is modelled a second time on texts of code points, in
      [Uni], with the classes of Unicode; what is stated of that code for
      every page is stated there.  Dictionary keys are the fixed field
      names of the program and are kept as [string].
    - A JSON value / Python object is a [pyval]; a [dict] is a
      [gmap string pyval]; truthiness is [truthy].
    - [re] is modelled by a small backtracking matcher ([Re]) with the
      leftmost, greedy semantics of Python's engine; every pattern of the
      source is written out as data for it.
    - The outside world (HTTP, the Ollama model, BeautifulSoup, [json.loads],
      [time.sleep]) is an interface, [Env]; the stateful calls thread a
      [World] and leave an event in a log.  [Env] has the page already
      parsed; that the parser can reject a page, and what the program does
      then, is in [ParserEnv]. *)

From Stdlib Require Import Ascii String ZArith Lia SpecFloat.
From stdpp Require Import gmap strings list.

Set Default Proof Using "Type".
#[local] Set Warnings "-register-all".

(** ** Python strings *)

Abbreviation str := (list ascii).
Abbreviation txt := list_ascii_of_string.

Definition code (c : ascii) : N := N_of_ascii c.

Definition in_range (lo hi : N) (c : ascii) : bool :=
  (lo <=? code c)%N && (code c <=? hi)%N.

Definition is_char (a c : ascii) : bool := bool_decide (c = a).

Definition at_sign : ascii := "@".
Definition dot : ascii := ".".
Definition slash : ascii := "/".
Definition backslash : ascii := "092".
Definition quote : ascii := "034".
Definition open_brace : ascii := "{".
Definition close_brace : ascii := "}".

(** [0-9], [A-Z], [a-z] *)
Definition is_digit : ascii -> bool := in_range 48 57.
Definition is_upper : ascii -> bool := in_range 65 90.
Definition is_lower : ascii -> bool := in_range 97 122.
Definition is_alpha (c : ascii) : bool := is_upper c || is_lower c.
Definition is_alnum (c : ascii) : bool := is_alpha c || is_digit c.

(** [\w] and [\s] of a [str] pattern, on the ASCII range: [\s] is
    [str.isspace], that is TAB..CR, FS..US and the blank. *)
Definition is_word (c : ascii) : bool := is_alnum c || is_char "_" c.
Definition is_space (c : ascii) : bool :=
  in_range 9 13 c || in_range 28 31 c || is_char " " c.

(** [str.lower] *)
Definition lower_char (c : ascii) : ascii :=
  if is_upper c then ascii_of_N (code c + 32) else c.
Definition lower (s : str) : str := map lower_char s.

(** [str.strip] *)
Fixpoint lstrip (s : str) : str :=
  match s with
  | c :: s' => if is_space c then lstrip s' else s
  | [] => []
  end.
Definition rstrip (s : str) : str := reverse (lstrip (reverse s)).
Definition strip (s : str) : str := rstrip (lstrip s).

(** [str.split(sep)] for a one-character separator *)
Fixpoint split (sep : ascii) (s : str) : list str :=
  match s with
  | [] => [[]]
  | c :: s' =>
      if bool_decide (c = sep) then [] :: split sep s'
      else match split sep s' with
           | p :: ps => (c :: p) :: ps
           | [] => [[c]]
           end
  end.

(** [s.startswith(p)], [s.endswith(p)], [needle in hay] *)
Definition startswith (s p : str) : bool := bool_decide (p `prefix_of` s).
Definition endswith (s p : str) : bool := bool_decide (p `suffix_of` s).
Fixpoint contains (needle hay : str) : bool :=
  startswith hay needle ||
  match hay with
  | [] => false
  | _ :: hay' => contains needle hay'
  end.

(** [c in s] for one character, [x in xs] for a list of strings *)
Definition has_char (c : ascii) (s : str) : bool := bool_decide (c ∈ s).
Definition mem (x : str) (xs : list str) : bool := bool_decide (x ∈ xs).

(** ** The [re] module *)

Module Re.

(** The patterns of the source only repeat character classes, and their
    only alternation is between literals. *)
Inductive atom :=
| Cls (p : ascii -> bool)
| Rep (p : ascii -> bool) (lo : nat) (hi : option nat)
| Alt (alts : list str)
| WordB.

Definition regex := list atom.

(** Continuations get the character before the cursor and the rest of
    the subject; a match is the text it consumed. *)
Definition cont := option ascii -> str -> option str.

Definition may_take (hi : option nat) : bool :=
  match hi with Some 0 => false | _ => true end.

(** [p{lo,hi}], greedy: take one more character while allowed, and give
    back one at a time when the rest of the pattern fails. *)
Fixpoint greedy (p : ascii -> bool) (lo : nat) (hi : option nat)
    (k : cont) (prev : option ascii) (s : str) {struct s} : option str :=
  let stop := match lo with 0 => k prev s | S _ => None end in
  match s with
  | c :: s' =>
      if p c && may_take hi then
        match greedy p (pred lo) (pred <$> hi) k (Some c) s' with
        | Some t => Some (c :: t)
        | None => stop
        end
      else stop
  | [] => stop
  end.

(** A literal at the cursor: what follows it, and its last character. *)
Fixpoint literal (l : str) (prev : option ascii) (s : str)
    : option (option ascii * str) :=
  match l with
  | [] => Some (prev, s)
  | a :: l' =>
      match s with
      | c :: s' => if bool_decide (c = a) then literal l' (Some c) s' else None
      | [] => None
      end
  end.

(** [(?:l1|l2|...)]: the alternatives in order, the next one when the
    rest of the pattern fails after this one. *)
Fixpoint alternatives (alts : list str) (k : cont)
    (prev : option ascii) (s : str) : option str :=
  match alts with
  | [] => None
  | l :: alts' =>
      match literal l prev s with
      | Some (prev', s') =>
          match k prev' s' with
          | Some t => Some (l ++ t)
          | None => alternatives alts' k prev s
          end
      | None => alternatives alts' k prev s
      end
  end.

Definition wordy (o : option ascii) : bool :=
  match o with Some c => is_word c | None => false end.

(** [\b] *)
Definition boundary (prev : option ascii) (s : str) : bool :=
  xorb (wordy prev) (wordy (head s)).

(** The pattern matched at the cursor. *)
Fixpoint matches (r : regex) : cont :=
  match r with
  | [] => fun _ _ => Some []
  | Cls p :: r' => fun _ s =>
      match s with
      | c :: s' => if p c then cons c <$> matches r' (Some c) s' else None
      | [] => None
      end
  | Rep p lo hi :: r' => greedy p lo hi (matches r')
  | Alt alts :: r' => alternatives alts (matches r')
  | WordB :: r' => fun prev s =>
      if boundary prev s then matches r' prev s else None
  end.

(** [re.search]: the leftmost match. *)
Fixpoint search_from (r : regex) (prev : option ascii) (s : str)
    : option str :=
  match matches r prev s with
  | Some t => Some t
  | None =>
      match s with
      | c :: s' => search_from r (Some c) s'
      | [] => None
      end
  end.
Definition search (r : regex) (s : str) : option str := search_from r None s.

(** [re.findall]: the non-overlapping matches from left to right.  [skip]
    counts the characters still inside the previous match. *)
Fixpoint findall_from (r : regex) (prev : option ascii) (skip : nat)
    (s : str) : list str :=
  match s with
  | [] => []
  | c :: s' =>
      match skip with
      | S n => findall_from r (Some c) n s'
      | 0 =>
          match matches r prev s with
          | Some t => t :: findall_from r (Some c) (pred (length t)) s'
          | None => findall_from r (Some c) 0 s'
          end
      end
  end.
Definition findall (r : regex) (s : str) : list str := findall_from r None 0 s.

(** [^r$] against the whole subject *)
Definition fullmatch (r : regex) (s : str) : bool :=
  bool_decide (matches r None s = Some s).

(** a literal character, and one under [re.IGNORECASE] *)
Definition chr (a : ascii) : atom := Cls (is_char a).
Definition chr_i (a : ascii) : atom := Cls (fun c => is_char a (lower_char c)).
Definition any_char : ascii -> bool := fun _ => true.

End Re.

(** ** Contact signals: the deterministic part of [extract_business_info] *)

Import Re.

(** [[a-zA-Z0-9._%+-]] and [[a-zA-Z0-9.-]] *)
Definition local_char (c : ascii) : bool :=
  is_alnum c || is_char "." c || is_char "_" c || is_char "%" c
  || is_char "+" c || is_char "-" c.
Definition domain_char (c : ascii) : bool :=
  is_alnum c || is_char "." c || is_char "-" c.

(** [mailto:([a-zA-Z0-9._%+-]+@[a-zA-Z0-9.-]+\.[a-zA-Z]{2,})], under
    [re.IGNORECASE] *)
Definition mailto_pattern : regex :=
  [chr_i "m"; chr_i "a"; chr_i "i"; chr_i "l"; chr_i "t"; chr_i "o"; chr ":";
   Rep local_char 1 None; chr "@"; Rep domain_char 1 None; chr ".";
   Rep is_alpha 2 None].

(** [findall] returns group 1, the match without its [mailto:] *)
Definition mailto_group (t : str) : str := drop 7 t.

(** [\b([a-zA-Z0-9][a-zA-Z0-9._%+-]*@[a-zA-Z0-9][a-zA-Z0-9.-]*\.[a-zA-Z]{2,})\b] *)
Definition email_pattern : regex :=
  [WordB; Cls is_alnum; Rep local_char 0 None; chr "@"; Cls is_alnum;
   Rep domain_char 0 None; chr "."; Rep is_alpha 2 None; WordB].

(** [\.(png|jpg|jpeg|gif|svg|webp|pdf|js|css|woff|ttf|ico)] *)
Definition file_ext_pattern : regex :=
  [chr ".";
   Alt [txt "png"; txt "jpg"; txt "jpeg"; txt "gif"; txt "svg"; txt "webp";
        txt "pdf"; txt "js"; txt "css"; txt "woff"; txt "ttf"; txt "ico"]].

Definition valid_tlds : list str :=
  [txt "com"; txt "net"; txt "org"; txt "edu"; txt "gov"; txt "co";
   txt "us"; txt "io"; txt "biz"; txt "info"].

(** The loop over [all_emails]; each [continue] of the source is a branch
    that leaves [valid_emails] as it is. *)
Fixpoint valid_emails_loop (all_emails valid_emails : list str) : list str :=
  match all_emails with
  | [] => valid_emails
  | email :: rest =>
      let email := strip (lower email) in
      if bool_decide (is_Some (search file_ext_pattern email)) then
        valid_emails_loop rest valid_emails
      else if contains (txt "@2x") email || contains (txt "@3x") email then
        valid_emails_loop rest valid_emails
      else if negb (has_char "@" email) then
        valid_emails_loop rest valid_emails
      else
        let parts := split "@" email in
        if negb (length parts =? 2) then valid_emails_loop rest valid_emails
        else
          let domain := default [] (parts !! 1) in
          if (length domain <? 4) || has_char "/" domain
             || has_char "092" domain then
            valid_emails_loop rest valid_emails
          else if negb (existsb (fun tld => endswith domain ("."%char :: tld))
                          valid_tlds) then
            valid_emails_loop rest valid_emails
          else valid_emails_loop rest (valid_emails ++ [email])
  end.

Definition all_emails (html_content text : str) : list str :=
  (mailto_group <$> findall mailto_pattern html_content)
  ++ findall email_pattern text.

Definition valid_emails (html_content text : str) : list str :=
  valid_emails_loop (all_emails html_content text) [].

(** [list(set(valid_emails))]: the order in which a Python set is listed is
    not specified; nothing below depends on the one [elements] picks. *)
Definition unique_of (valid_emails : list str) : list str :=
  elements (list_to_set valid_emails : gset str).

Definition generic_prefixes : list str :=
  [txt "info@"; txt "contact@"; txt "sales@"; txt "support@"; txt "hello@";
   txt "admin@"; txt "service@"; txt "office@"].

(** [any(prefix in e for prefix in [...])] *)
Definition is_generic (e : str) : bool :=
  existsb (fun prefix => contains prefix e) generic_prefixes.

Definition owner_of (unique_emails : list str) : list str :=
  filter (fun e => negb (is_generic e)) unique_emails.
Definition business_of (unique_emails : list str) : list str :=
  filter (fun e => is_generic e) unique_emails.

(** [[-.\s]] *)
Definition phone_sep (c : ascii) : bool :=
  is_char "-" c || is_char "." c || is_space c.

Definition phone_patterns : list regex :=
  [ (* \(?\d{3}\)?[-.\s]?\d{3}[-.\s]?\d{4} *)
    [Rep (is_char "(") 0 (Some 1); Rep is_digit 3 (Some 3);
     Rep (is_char ")") 0 (Some 1); Rep phone_sep 0 (Some 1);
     Rep is_digit 3 (Some 3); Rep phone_sep 0 (Some 1);
     Rep is_digit 4 (Some 4)];
    (* \d{3}[-.\s]\d{3}[-.\s]\d{4} *)
    [Rep is_digit 3 (Some 3); Cls phone_sep; Rep is_digit 3 (Some 3);
     Cls phone_sep; Rep is_digit 4 (Some 4)];
    (* \(\d{3}\)\s?\d{3}-\d{4} *)
    [chr "("; Rep is_digit 3 (Some 3); chr ")"; Rep is_space 0 (Some 1);
     Rep is_digit 3 (Some 3); chr "-"; Rep is_digit 4 (Some 4)] ].

(** [phones.extend(re.findall(pattern, html_content))] for each pattern *)
Definition phones (html_content : str) : list str :=
  concat ((fun pattern => findall pattern html_content) <$> phone_patterns).

(** [re.sub(r'\D', '', phone)] *)
Definition digits_only (phone : str) : str := filter (fun c => is_digit c) phone.

(** [f"({d[:3]}) {d[3:6]}-{d[6:]}"] *)
Definition format_phone (d : str) : str :=
  txt "(" ++ take 3 d ++ txt ") " ++ take 3 (drop 3 d) ++ txt "-" ++ drop 6 d.

Fixpoint cleaned_phones_loop (phones cleaned_phones : list str) : list str :=
  match phones with
  | [] => cleaned_phones
  | phone :: rest =>
      let d := digits_only phone in
      if length d =? 10 then
        let formatted := format_phone d in
        if negb (mem formatted cleaned_phones)
        then cleaned_phones_loop rest (cleaned_phones ++ [formatted])
        else cleaned_phones_loop rest cleaned_phones
      else cleaned_phones_loop rest cleaned_phones
  end.

Definition cleaned_phones (html_content : str) : list str :=
  cleaned_phones_loop (phones html_content) [].

(** [\d+\s+[A-Z][a-zA-Z\s]+(?:Street|St|Avenue|Ave|Road|Rd|Boulevard|Blvd|Lane|Ln|Drive|Dr|Court|Ct|Way)\.?] *)
Definition address_pattern : regex :=
  [Rep is_digit 1 None; Rep is_space 1 None; Cls is_upper;
   Rep (fun c => is_alpha c || is_space c) 1 None;
   Alt [txt "Street"; txt "St"; txt "Avenue"; txt "Ave"; txt "Road";
        txt "Rd"; txt "Boulevard"; txt "Blvd"; txt "Lane"; txt "Ln";
        txt "Drive"; txt "Dr"; txt "Court"; txt "Ct"; txt "Way"];
   Rep (is_char ".") 0 (Some 1)].

Record ContactSignals := {
  unique_emails : list str;
  owner_emails : list str;
  business_emails : list str;
  phone_list : list str;
  main_phone : option str;
  main_address : option str;
}.

(** The signals of a page: [html_content] is the raw markup and [text] is
    [soup.get_text()]. *)
Definition contact_signals (html_content text : str) : ContactSignals :=
  let unique := unique_of (valid_emails html_content text) in
  let cleaned := cleaned_phones html_content in
  {| unique_emails := unique;
     owner_emails := owner_of unique;
     business_emails := business_of unique;
     phone_list := cleaned;
     main_phone := head cleaned;
     main_address := head (findall address_pattern text) |}.

(** ** Python values *)

Inductive pyval :=
| PyNone
| PyBool (b : bool)
| PyInt (z : Z)
| PyFloat (f : spec_float)
| PyStr (s : str)
| PyList (l : list pyval)
| PyDict (d : gmap string pyval).

(** [bool(v)] *)
Definition truthy (v : pyval) : bool :=
  match v with
  | PyNone => false
  | PyBool b => b
  | PyInt z => negb (z =? 0)%Z
  | PyFloat f => match f with S754_zero _ => false | _ => true end
  | PyStr s => negb (bool_decide (s = []))
  | PyList l => match l with [] => false | _ => true end
  | PyDict d => negb (bool_decide (d = ∅))
  end.

(** [x and y] *)
Definition py_and (x y : pyval) : pyval := if truthy x then y else x.

(** [d.get(k, dflt)] and [d.get(k)] *)
Definition dict_get (d : gmap string pyval) (k : string) (dflt : pyval) : pyval :=
  default dflt (d !! k).
Definition get (d : gmap string pyval) (k : string) : pyval :=
  dict_get d k PyNone.

(** A [str] or [None] as a value, and its truthiness *)
Definition opt_val (o : option str) : pyval :=
  match o with Some s => PyStr s | None => PyNone end.
Definition truthy_opt (o : option str) : bool := truthy (opt_val o).

(** [xs[0] if xs else None] *)
Definition first_or_none (xs : list str) : pyval := opt_val (head xs).

(** ** The outside world *)

Inductive chat_result :=
| ChatError
| ChatReply (content : str).

(** What the two prompts are built from. *)
Inductive prompt :=
| ExtractionPrompt (url : str) (hints : ContactSignals)
| QualificationPrompt (business_data : gmap string pyval).

Inductive event :=
| EvFetch (url : str)
| EvChat
| EvSleep (seconds : nat).

(** [requests_get] is [requests.get] followed by [raise_for_status], with
    [None] for any exception; [ollama_chat] is [ollama.chat] followed by
    [response['message']['content']], with [ChatError] for any exception;
    [json_loads] gives [None] when [json.loads] raises; [soup_get_text]
    is [soup.get_text()] of a page that [BeautifulSoup] has parsed (see
    [ParserEnv] for a page that it rejects). *)
Class Env := {
  World : Type;
  requests_get : str -> World -> option str * World;
  ollama_chat : prompt -> World -> chat_result * World;
  time_sleep : nat -> World -> World;
  soup_get_text : str -> str;
  json_loads : str -> option pyval;
}.

(** [re.search(r'\{.*\}', result_text, re.DOTALL)] and [.group()] *)
Definition json_pattern : regex := [chr "{"; Rep any_char 0 None; chr "}"].
Definition json_match (result_text : str) : option str :=
  search json_pattern result_text.

Section Pipeline.
Context {E : Env}.

(** The state of a run: the world and the log of what was done to it. *)
Definition M (A : Type) : Type := World * list event -> A * (World * list event).

Definition ret {A} (a : A) : M A := fun st => (a, st).
Definition bind {A B} (m : M A) (f : A -> M B) : M B :=
  fun st => let '(a, st') := m st in f a st'.

Notation "'do' x <- m ; k" := (bind m (fun x => k))
  (at level 10, x name, m at level 100, k at level 200).

Definition http_get (url : str) : M (option str) :=
  fun '(w, log) =>
    let '(r, w') := requests_get url w in (r, (w', log ++ [EvFetch url])).
Definition chat (p : prompt) : M chat_result :=
  fun '(w, log) =>
    let '(r, w') := ollama_chat p w in (r, (w', log ++ [EvChat])).
Definition sleep (seconds : nat) : M unit :=
  fun '(w, log) => (tt, (time_sleep seconds w, log ++ [EvSleep seconds])).

(** *** [is_small_independent_business] *)

Definition is_qualified (analysis : gmap string pyval) : pyval :=
  py_and
    (py_and (dict_get analysis "is_small_independent" (PyBool false))
            (dict_get analysis "is_service_based" (PyBool false)))
    (PyBool (negb (truthy (dict_get analysis "is_chain_or_franchise"
                             (PyBool true))))).

(** The [except] branch is reached when the call raises, when
    [json.loads] raises and when the decoded value has no [get]. *)
Definition is_small_independent_business
    (business_data : gmap string pyval) : M pyval :=
  do response <- chat (QualificationPrompt business_data) ;
  match response with
  | ChatReply result_text =>
      match json_match result_text with
      | Some group =>
          match json_loads group with
          | Some (PyDict analysis) => ret (is_qualified analysis)
          | Some _ | None => ret (PyBool false)
          end
      | None => ret (PyBool false)
      end
  | ChatError => ret (PyBool false)
  end.

(** *** [scrape_business_page] *)
Definition scrape_business_page (url : str) : M (option str) := http_get url.

(** *** [extract_business_info] *)

(** The dictionary of the [else] and [except] branches. *)
Definition signal_only (url : str) (sig : ContactSignals) : gmap string pyval :=
  <["address" := opt_val (main_address sig)]>
  (<["phone" := opt_val (main_phone sig)]>
  (<["owner_email" := first_or_none (owner_emails sig)]>
  (<["business_email" := first_or_none (business_emails sig)]>
  (<["source_url" := PyStr url]> ∅)))).

(** [if not business_data.get(k) and available: business_data[k] = v] *)
Definition fill (k : string) (available : bool) (v : pyval)
    (business_data : gmap string pyval) : gmap string pyval :=
  if negb (truthy (get business_data k)) && available
  then <[k := v]> business_data
  else business_data.

Definition nonempty (xs : list str) : bool :=
  match xs with [] => false | _ => true end.

Definition merge (url : str) (sig : ContactSignals)
    (business_data : gmap string pyval) : gmap string pyval :=
  let business_data := <["source_url" := PyStr url]> business_data in
  let business_data :=
    fill "business_email" (nonempty (business_emails sig))
      (first_or_none (business_emails sig)) business_data in
  let business_data :=
    fill "owner_email" (nonempty (owner_emails sig))
      (first_or_none (owner_emails sig)) business_data in
  let business_data :=
    fill "phone" (truthy_opt (main_phone sig)) (opt_val (main_phone sig))
      business_data in
  fill "address" (truthy_opt (main_address sig)) (opt_val (main_address sig))
    business_data.

Definition extract_business_info (html_content url : str)
    : M (gmap string pyval) :=
  let sig := contact_signals html_content (soup_get_text html_content) in
  do response <- chat (ExtractionPrompt url sig) ;
  match response with
  | ChatReply result_text =>
      match json_match result_text with
      | Some group =>
          match json_loads group with
          | Some (PyDict business_data) => ret (merge url sig business_data)
          | Some _ | None => ret (signal_only url sig)
          end
      | None => ret (signal_only url sig)
      end
  | ChatError => ret (signal_only url sig)
  end.

(** *** [scrape_businesses] *)

(** [if not html]: [None] and the empty page alike *)
Definition no_page (html : option str) : bool := negb (truthy_opt html).

Fixpoint scrape_loop (urls : list str)
    (qualified_businesses : list (gmap string pyval))
    : M (list (gmap string pyval)) :=
  match urls with
  | [] => ret qualified_businesses
  | url :: rest =>
      do html <- scrape_business_page url ;
      if no_page html then scrape_loop rest qualified_businesses
      else
        do business_data <- extract_business_info (default [] html) url ;
        if negb (truthy (get business_data "business_name")) then
          scrape_loop rest qualified_businesses
        else
          do ok <- is_small_independent_business business_data ;
          let qualified_businesses :=
            if truthy ok then qualified_businesses ++ [business_data]
            else qualified_businesses in
          do _ <- sleep 3 ;
          scrape_loop rest qualified_businesses
  end.

Definition scrape_businesses (urls : list str) : M (list (gmap string pyval)) :=
  scrape_loop urls [].

End Pipeline.

(** ** The orchestrator as the design describes it

    One URL moves through [Fetching], [Extracting] and [Classifying] to one
    of the three final states.  [run] traverses the URLs in turn. *)

Inductive phase :=
| Fetching
| Extracting (html : str)
| Classifying (record : gmap string pyval)
| Accepted (record : gmap string pyval)
| Rejected (record : gmap string pyval)
| Skipped.

Definition terminal (p : phase) : Prop :=
  match p with Accepted _ | Rejected _ | Skipped => True | _ => False end.

Definition classified (p : phase) : bool :=
  match p with Accepted _ | Rejected _ => true | _ => false end.

Definition accepted_record (p : phase) : option (gmap string pyval) :=
  match p with Accepted r => Some r | _ => None end.

Section StateMachine.
Context {E : Env}.

Notation "'do' x <- m ; k" := (bind m (fun x => k))
  (at level 10, x name, m at level 100, k at level 200).

(** [classify]: the decision the orchestrator takes from the value
    [is_small_independent_business] returns. *)
Definition classify (record : gmap string pyval) : M bool :=
  do verdict <- is_small_independent_business record ;
  ret (truthy verdict).

Definition step (url : str) (p : phase) : M phase :=
  match p with
  | Fetching =>
      do html <- scrape_business_page url ;
      ret (match html with
           | Some (c :: h) => Extracting (c :: h)
           | Some [] | None => Skipped
           end)
  | Extracting html =>
      do record <- extract_business_info html url ;
      ret (if truthy (get record "business_name")
           then Classifying record else Skipped)
  | Classifying record =>
      do accept <- classify record ;
      ret (if accept then Accepted record else Rejected record)
  | Accepted _ | Rejected _ | Skipped => ret p
  end.

Definition traverse (url : str) : M phase :=
  do p1 <- step url Fetching ;
  do p2 <- step url p1 ;
  step url p2.

(** The pacing delay as the source applies it: after a URL that was
    classified. *)
Definition pace (p : phase) : M unit :=
  if classified p then sleep 3 else ret tt.

Fixpoint run (urls : list str) : M (list phase) :=
  match urls with
  | [] => ret []
  | url :: rest =>
      do p <- traverse url ;
      do _ <- pace p ;
      do ps <- run rest ;
      ret (p :: ps)
  end.

End StateMachine.

(** The fetches and delays of a log, in order. *)
Definition is_pacing (e : event) : bool :=
  match e with EvChat => false | EvFetch _ | EvSleep _ => true end.
Definition pacing_events (log : list event) : list event :=
  filter (fun e => is_pacing e) log.

(** What the log of a run shows of one URL that ended in [p]. *)
Definition url_events (url : str) (p : phase) : list event :=
  EvFetch url :: (if classified p then [EvSleep 3] else []).

(** A delay after every URL: each fetch of the log is followed by a delay
    before the next fetch and before the end of the run. *)
Fixpoint delay_after_each_url (fetched : bool) (log : list event) : bool :=
  match log with
  | [] => negb fetched
  | EvFetch _ :: log' => negb fetched && delay_after_each_url true log'
  | EvSleep _ :: log' => delay_after_each_url false log'
  | EvChat :: log' => delay_after_each_url fetched log'
  end.

(** ** The parsing step as the design describes it

    The first balanced top-level object of a reply, by brace matching
    outside string literals: [depth] counts the open braces, [in_string]
    and [escaped] follow the JSON string syntax. *)

Fixpoint balanced_object (depth : nat) (in_string escaped : bool) (s : str)
    : option str :=
  match s with
  | [] => None
  | c :: s' =>
      if in_string then
        cons c <$>
          (if escaped then balanced_object depth true false s'
           else if is_char "092" c then balanced_object depth true true s'
           else if is_char "034" c then balanced_object depth false false s'
           else balanced_object depth true false s')
      else if is_char "034" c then cons c <$> balanced_object depth true false s'
      else if is_char "{" c then cons c <$> balanced_object (S depth) false false s'
      else if is_char "}" c then
        match depth with
        | 0 => None
        | 1 => Some [c]
        | S d => cons c <$> balanced_object d false false s'
        end
      else cons c <$> balanced_object depth false false s'
  end.

Fixpoint spec_first_balanced_object (s : str) : option str :=
  match s with
  | [] => None
  | c :: s' =>
      if is_char "{" c then
        match balanced_object 0 false false s with
        | Some o => Some o
        | None => spec_first_balanced_object s'
        end
      else spec_first_balanced_object s'
  end.

(** ** The role partition as the design describes it *)

Definition generic_names : list str :=
  [txt "info"; txt "contact"; txt "sales"; txt "support"; txt "hello";
   txt "admin"; txt "service"; txt "office"].

(** The part of an address before its first [@]. *)
Definition local_part (e : str) : str := default [] (head (split "@" e)).

Definition spec_is_business (e : str) : bool :=
  existsb (fun name => startswith (local_part e) name) generic_names.

(** ** A concrete world, to run the pipeline on examples

    [MiniJson.loads] decodes the JSON texts the examples use: objects,
    arrays, strings with the one-letter escapes, integers and the three
    literals; as [json.loads] does, it keeps the last of two equal keys and
    rejects text after the value.  Fractions, exponents and [\u] escapes
    are left out, so it is an [Env] for examples, not a model of
    [json.loads]: the theorems hold for every [json_loads]. *)

Module MiniJson.

Inductive token :=
| TLBrace | TRBrace | TLBracket | TRBracket | TColon | TComma
| TString (s : str)
| TNumber (digits : str)
| TWord (letters : str).

Inductive mode :=
| Plain
| InString (acc : str) (escaped : bool)
| InNumber (acc : str)
| InWord (acc : str).

Definition is_ws (c : ascii) : bool :=
  is_char " " c || is_char "009" c || is_char "010" c || is_char "013" c.

(** A character met outside a string, number or word. *)
Definition start (c : ascii) : option (list token * mode) :=
  if is_ws c then Some ([], Plain)
  else if is_char "{" c then Some ([TLBrace], Plain)
  else if is_char "}" c then Some ([TRBrace], Plain)
  else if is_char "[" c then Some ([TLBracket], Plain)
  else if is_char "]" c then Some ([TRBracket], Plain)
  else if is_char ":" c then Some ([TColon], Plain)
  else if is_char "," c then Some ([TComma], Plain)
  else if is_char "034" c then Some ([], InString [] false)
  else if is_digit c || is_char "-" c then Some ([], InNumber [c])
  else if is_lower c then Some ([], InWord [c])
  else None.

Definition unescape (c : ascii) : option ascii :=
  if is_char "034" c || is_char "092" c || is_char "/" c then Some c
  else if is_char "n" c then Some "010"%char
  else if is_char "t" c then Some "009"%char
  else if is_char "r" c then Some "013"%char
  else if is_char "b" c then Some "008"%char
  else if is_char "f" c then Some "012"%char
  else None.

Fixpoint lex (m : mode) (s : str) : option (list token) :=
  match s with
  | [] =>
      match m with
      | Plain => Some []
      | InString _ _ => None
      | InNumber acc => Some [TNumber (reverse acc)]
      | InWord acc => Some [TWord (reverse acc)]
      end
  | c :: s' =>
      match m with
      | Plain =>
          '(ts, m') ← start c; app ts <$> lex m' s'
      | InString acc true =>
          c' ← unescape c; lex (InString (c' :: acc) false) s'
      | InString acc false =>
          if is_char "034" c then cons (TString (reverse acc)) <$> lex Plain s'
          else if is_char "092" c then lex (InString acc true) s'
          else if (code c <? 32)%N then None
          else lex (InString (c :: acc) false) s'
      | InNumber acc =>
          if is_digit c then lex (InNumber (c :: acc)) s'
          else '(ts, m') ← start c;
               (fun r => TNumber (reverse acc) :: ts ++ r) <$> lex m' s'
      | InWord acc =>
          if is_lower c then lex (InWord (c :: acc)) s'
          else '(ts, m') ← start c;
               (fun r => TWord (reverse acc) :: ts ++ r) <$> lex m' s'
      end
  end.

Definition digit_value (c : ascii) : Z := Z.of_N (code c) - 48.

(** a JSON integer without its sign: [0], or digits not led by [0] *)
Definition natural (ds : str) : option Z :=
  match ds with
  | [] => None
  | [d] => Some (digit_value d)
  | d :: _ =>
      if is_char "0" d then None
      else Some (fold_left (fun n c => 10 * n + digit_value c) ds 0)%Z
  end.
Definition number (ds : str) : option pyval :=
  match ds with
  | c :: ds' =>
      if is_char "-" c then (fun n => PyInt (- n)) <$> natural ds'
      else PyInt <$> natural ds
  | [] => None
  end.

Definition word (w : str) : option pyval :=
  if bool_decide (w = txt "true") then Some (PyBool true)
  else if bool_decide (w = txt "false") then Some (PyBool false)
  else if bool_decide (w = txt "null") then Some PyNone
  else None.

Fixpoint value (fuel : nat) (ts : list token) : option (pyval * list token) :=
  match fuel with
  | 0 => None
  | S fuel =>
      match ts with
      | TString s :: r => Some (PyStr s, r)
      | TNumber ds :: r => v ← number ds; Some (v, r)
      | TWord w :: r => v ← word w; Some (v, r)
      | TLBracket :: TRBracket :: r => Some (PyList [], r)
      | TLBracket :: r => elements fuel r []
      | TLBrace :: TRBrace :: r => Some (PyDict ∅, r)
      | TLBrace :: r => members fuel r ∅
      | _ => None
      end
  end
with elements (fuel : nat) (ts : list token) (acc : list pyval)
    : option (pyval * list token) :=
  match fuel with
  | 0 => None
  | S fuel =>
      match value fuel ts with
      | Some (v, TComma :: r) => elements fuel r (acc ++ [v])
      | Some (v, TRBracket :: r) => Some (PyList (acc ++ [v]), r)
      | _ => None
      end
  end
with members (fuel : nat) (ts : list token) (acc : gmap string pyval)
    : option (pyval * list token) :=
  match fuel with
  | 0 => None
  | S fuel =>
      match ts with
      | TString k :: TColon :: r =>
          match value fuel r with
          | Some (v, TComma :: r') =>
              members fuel r' (<[string_of_list_ascii k := v]> acc)
          | Some (v, TRBrace :: r') =>
              Some (PyDict (<[string_of_list_ascii k := v]> acc), r')
          | _ => None
          end
      | _ => None
      end
  end.

(** Every call uses up a token, so one unit of fuel per token is enough. *)
Definition loads (s : str) : option pyval :=
  ts ← lex Plain s;
  match value (S (length ts)) ts with
  | Some (v, []) => Some v
  | _ => None
  end.

End MiniJson.

(** JSON texts are written with apostrophes for the double quotes. *)
Definition jq (s : string) : str :=
  map (fun c => if is_char "'" c then "034"%char else c) (txt s).

(** A world with a fixed web and a script of model replies; the rendered
    text of a page is the page itself. *)
Record scripted_world := {
  web : list (str * str);
  replies : list chat_result;
}.

Definition page_of (url : str) (w : scripted_world) : option str :=
  snd <$> list_find (fun p => fst p = url) (web w) ≫= (fun r => Some (snd r)).

Definition next_reply (w : scripted_world) : chat_result * scripted_world :=
  match replies w with
  | r :: rs => (r, {| web := web w; replies := rs |})
  | [] => (ChatError, w)
  end.

Definition scripted : Env := {|
  World := scripted_world;
  requests_get url w := (page_of url w, w);
  ollama_chat _ w := next_reply w;
  time_sleep _ w := w;
  soup_get_text html := html;
  json_loads := MiniJson.loads;
|}.

(** A world that only answers the model calls, in the order given. *)
Definition replying (rs : list chat_result) : scripted_world :=
  {| web := []; replies := rs |}.

Definition verdict_reply : str :=
  jq "{'is_small_independent': true, 'is_service_based': true, 'is_chain_or_franchise': false, 'business_type': 'plumbing service'}".

(** Three URLs: the first is not on the web, the record of the second has
    no name, the third is named and accepted. *)
Definition url_one : str := txt "http://one.example".
Definition url_two : str := txt "http://two.example".
Definition url_three : str := txt "http://three.example".

Definition page_two : str := txt "<p>Under construction</p>".
Definition page_three : str :=
  txt "<p>Acme Plumbing. Call 555-123-4567 or mail info@acme.com</p>".

Definition demo_world : scripted_world := {|
  web := [(url_two, page_two); (url_three, page_three)];
  replies :=
    [ChatReply (jq "{'description': 'a page without a name'}");
     ChatReply (jq "Here it is: {'business_name': 'Acme Plumbing', 'phone': null}");
     ChatReply verdict_reply];
|}.

(** ** Predicates of the statements *)

(** An address that went through every check of the validation loop. *)
Definition email_kept (email : str) : bool :=
  negb (bool_decide (is_Some (search file_ext_pattern email)))
  && negb (contains (txt "@2x") email || contains (txt "@3x") email)
  && has_char "@" email
  && (length (split "@" email) =? 2)
  && (let domain := default [] (split "@" email !! 1) in
      negb ((length domain <? 4) || has_char "/" domain || has_char "092" domain)
      && existsb (fun tld => endswith domain ("."%char :: tld)) valid_tlds).

(** Lower case, one [@], and a domain of four characters or more, free of
    path separators, that ends in a dot and an allowed suffix. *)
Definition well_formed_email (e : str) : Prop :=
  lower e = e ∧
  ∃ loc domain : str,
    e = loc ++ at_sign :: domain ∧ (at_sign ∉ loc) ∧ (at_sign ∉ domain) ∧
    4 ≤ length domain ∧ (slash ∉ domain) ∧ (backslash ∉ domain) ∧
    ∃ tld, tld ∈ valid_tlds ∧ (dot :: tld) `suffix_of` domain.

(** No character of the string is changed by [str.lower]. *)
Definition lowered (s : str) : Prop := Forall (fun c => lower_char c = c) s.

(** [^\(\d{3}\) \d{3}-\d{4}$] *)
Definition canonical_phone : regex :=
  [chr "("; Rep is_digit 3 (Some 3); chr ")"; chr " ";
   Rep is_digit 3 (Some 3); chr "-"; Rep is_digit 4 (Some 4)].

(** What [json.loads] makes of the span found in a reply, if anything. *)
Definition decoded {E : Env} (result_text : str) : option pyval :=
  json_match result_text ≫= json_loads.

(** The contact fields of a record and the signal each is filled from. *)
Definition contact_fields (sig : ContactSignals) : list (string * option str) :=
  [("business_email", head (business_emails sig));
   ("owner_email", head (owner_emails sig));
   ("phone", main_phone sig);
   ("address", main_address sig)].

(** The matches that reduce to ten digits, formatted, in the order found. *)
Definition formatted_candidates (phones : list str) : list str :=
  (fun phone => format_phone (digits_only phone))
    <$> filter (fun phone => length (digits_only phone) = 10) phones.

(** A list without its repetitions: each element where it is first seen. *)
Fixpoint first_seen (l : list str) : list str :=
  match l with
  | [] => []
  | x :: l' => x :: filter (fun y => y ≠ x) (first_seen l')
  end.

(** ** The texts of a pattern

    [conforms r t]: [t] is made of one piece per atom of [r], each piece in
    the class, the repetition bounds or the alternatives of its atom; word
    boundaries take no text. *)

Fixpoint conforms (r : regex) (t : str) : Prop :=
  match r with
  | [] => t = []
  | Cls p :: r' => ∃ c t', t = c :: t' ∧ p c = true ∧ conforms r' t'
  | Rep p lo hi :: r' =>
      ∃ piece t',
        t = piece ++ t' ∧ Forall (fun c => p c = true) piece ∧
        lo ≤ length piece ∧ (∀ n, hi = Some n → length piece ≤ n) ∧
        conforms r' t'
  | Alt alts :: r' => ∃ l t', l ∈ alts ∧ t = l ++ t' ∧ conforms r' t'
  | WordB :: r' => conforms r' t
  end.

(** [t] occurs in [s] *)
Definition occurs_in (t s : str) : Prop := ∃ before after, s = before ++ t ++ after.

(** The four assignments of the merge: the field, whether the signal is
    there, and its value. *)
Definition merge_fills (sig : ContactSignals) : list (string * bool * pyval) :=
  [("business_email", nonempty (business_emails sig),
    first_or_none (business_emails sig));
   ("owner_email", nonempty (owner_emails sig),
    first_or_none (owner_emails sig));
   ("phone", truthy_opt (main_phone sig), opt_val (main_phone sig));
   ("address", truthy_opt (main_address sig), opt_val (main_address sig))].

Definition record_keys : list string :=
  ["source_url"; "business_email"; "owner_email"; "phone"; "address"].

(** A text of 7-bit ASCII characters.  On such a text the character
    classes above are those of Python; [\d], [\s], [\w], [\b],
    [re.IGNORECASE], [str.lower] and [str.strip] of Python know more
    characters (the no-break space, accented letters, the digits of other
    scripts), and what is proved through them here is stated of ASCII
    texts. *)
Definition ascii_text (s : str) : Prop := Forall (fun c => (code c < 128)%N) s.


(** ** Discovery: [_is_valid_business_url], [_search_google_oxylabs],
    [fetch_business_urls_by_zipcode] and [run_by_zipcode] *)

(** The answer to [requests.post]: [PostError] for an exception of the
    request, of [raise_for_status] or of [response.json()],
    [PostUnauthorized] for status 401, [PostOk] with the decoded body. *)
Inductive post_result :=
| PostError
| PostUnauthorized
| PostOk (data : pyval).

Inductive search_event :=
| SvPost (query : str)
| SvSleep (seconds : nat).

(** [urlparse_netloc] is [urlparse(url).netloc], with [None] when
    [urlparse] raises; [oxylabs_username] is the configured user name. *)
Class SearchEnv := {
  search_base :: Env;
  urlparse_netloc : str -> option str;
  oxylabs_username : str;
  requests_post : str -> World -> post_result * World;
}.

Definition excluded_domains : list str :=
  [txt "google.com"; txt "facebook.com"; txt "yelp.com"; txt "yellowpages.com";
   txt "bbb.org"; txt "angieslist.com"; txt "thumbtack.com";
   txt "homeadvisor.com"; txt "linkedin.com"; txt "instagram.com";
   txt "twitter.com"; txt "youtube.com"; txt "wikipedia.org"; txt "bing.com";
   txt "yahoo.com"; txt "mapquest.com"; txt "tripadvisor.com";
   txt "foursquare.com"; txt "nextdoor.com"].

Definition service_types : list str :=
  [txt "plumbers"; txt "plumbing services";
   txt "hvac companies"; txt "heating and cooling";
   txt "beauty salons"; txt "hair salons";
   txt "massage therapists"; txt "spa services";
   txt "furniture stores";
   txt "electricians"; txt "electrical services";
   txt "carpenters"; txt "carpentry services";
   txt "landscaping companies"; txt "lawn care";
   txt "house cleaning services"; txt "maid services";
   txt "pest control services";
   txt "locksmiths";
   txt "roofing companies"; txt "roofers";
   txt "painting contractors";
   txt "flooring companies";
   txt "appliance repair"].

(** [for item in v]: the items of a list, the characters of a string, the
    keys of a dictionary (in no particular order here: every one is a
    string); [None] for a value that cannot be iterated. *)
Definition py_iter (v : pyval) : option (list pyval) :=
  match v with
  | PyList l => Some l
  | PyStr s => Some ((fun c => PyStr [c]) <$> s)
  | PyDict d => Some ((fun kv => PyStr (txt kv.1)) <$> map_to_list d)
  | PyNone | PyBool _ | PyInt _ | PyFloat _ => None
  end.

Section Discovery.
Context {SE : SearchEnv}.

(** The loop over [excluded_domains], then the test for a dot. *)
Fixpoint not_excluded (excluded_domains : list str) (domain : str) : bool :=
  match excluded_domains with
  | [] => true
  | excluded :: rest =>
      if contains excluded domain then false else not_excluded rest domain
  end.

Definition _is_valid_business_url (url : str) : bool :=
  match urlparse_netloc url with
  | Some netloc =>
      let domain := lower netloc in
      if negb (not_excluded excluded_domains domain) then false
      else if negb (has_char "." domain) then false
      else true
  | None => false
  end.

(** [url and self._is_valid_business_url(url)] for the value of
    [item.get('url')]: [urlparse] raises on a value that is not a string,
    and the bare [except] answers [False]. *)
Definition usable_url (url : pyval) : option str :=
  match url with
  | PyStr s => if truthy url && _is_valid_business_url s then Some s else None
  | _ => None
  end.

(** The loop over [organic_results]: [None] when [item.get] raises. *)
Fixpoint organic_loop (num_results : nat) (organic_results : list pyval)
    (urls : list str) : option (list str) :=
  match organic_results with
  | [] => Some urls
  | item :: rest =>
      match item with
      | PyDict item =>
          match usable_url (get item "url") with
          | Some url =>
              let urls := urls ++ [url] in
              if num_results <=? length urls then Some urls
              else organic_loop num_results rest urls
          | None => organic_loop num_results rest urls
          end
      | _ => None
      end
  end.

(** [content.get('results', {}).get('organic', [])] for
    [content = result.get('content', {})] *)
Definition organic_of (result : pyval) : option (list pyval) :=
  match result with
  | PyDict result =>
      match dict_get result "content" (PyDict ∅) with
      | PyDict content =>
          match dict_get content "results" (PyDict ∅) with
          | PyDict results => py_iter (dict_get results "organic" (PyList []))
          | _ => None
          end
      | _ => None
      end
  | _ => None
  end.

(** The loop over [results] *)
Fixpoint results_loop (num_results : nat) (results : list pyval)
    (urls : list str) : option (list str) :=
  match results with
  | [] => Some urls
  | result :: rest =>
      organic_results ← organic_of result;
      urls ← organic_loop num_results organic_results urls;
      if num_results <=? length urls then Some urls
      else results_loop num_results rest urls
  end.

(** The [try] block after [response.json()]: [None] when it raises. *)
Definition organic_urls (num_results : nat) (data : pyval) : option (list str) :=
  match data with
  | PyDict data =>
      results ← py_iter (dict_get data "results" (PyList []));
      urls ← results_loop num_results results [];
      Some (take num_results urls)
  | _ => None
  end.

(** The URL an item of the organic results adds, if any. *)
Definition item_url (item : pyval) : option str :=
  match item with
  | PyDict item => usable_url (get item "url")
  | _ => None
  end.

(** The state of a search: the world and the log of requests and delays. *)
Definition D (A : Type) : Type :=
  World * list search_event -> A * (World * list search_event).

Definition dret {A} (a : A) : D A := fun st => (a, st).
Definition dbind {A B} (m : D A) (f : A -> D B) : D B :=
  fun st => let '(a, st') := m st in f a st'.

Notation "'do' x <- m ; k" := (dbind m (fun x => k))
  (at level 10, x name, m at level 100, k at level 200).

Definition post (query : str) : D post_result :=
  fun '(w, log) =>
    let '(r, w') := requests_post query w in (r, (w', log ++ [SvPost query])).
Definition search_sleep (seconds : nat) : D unit :=
  fun '(w, log) => (tt, (time_sleep seconds w, log ++ [SvSleep seconds])).

Definition _search_google_oxylabs (query : str) (num_results : nat)
    : D (list str) :=
  if bool_decide (oxylabs_username = txt "YOUR_OXYLABS_USERNAME") then dret []
  else
    do response <- post query ;
    match response with
    | PostUnauthorized => dret []
    | PostOk data => dret (default [] (organic_urls num_results data))
    | PostError => dret []
    end.

(** [len(all_urls) >= max_businesses] *)
Definition full (all_urls : gset str) (max_businesses : Z) : bool :=
  (max_businesses <=? Z.of_nat (size all_urls))%Z.

(** The loop over the URLs of one search *)
Fixpoint add_urls (max_businesses : Z) (urls : list str) (all_urls : gset str)
    : gset str :=
  match urls with
  | [] => all_urls
  | url :: rest =>
      if full all_urls max_businesses then all_urls
      else if _is_valid_business_url url
      then add_urls max_businesses rest ({[url]} ∪ all_urls)
      else add_urls max_businesses rest all_urls
  end.

(** [f"{service_type} near {zipcode}"] *)
Definition query_of (zipcode service_type : str) : str :=
  service_type ++ txt " near " ++ zipcode.

(** The loop over [self.service_types] *)
Fixpoint search_loop (zipcode : str) (max_businesses : Z)
    (service_types : list str) (all_urls : gset str) : D (gset str) :=
  match service_types with
  | [] => dret all_urls
  | service_type :: rest =>
      if full all_urls max_businesses then dret all_urls
      else
        do urls <- _search_google_oxylabs (query_of zipcode service_type) 10 ;
        let all_urls := add_urls max_businesses urls all_urls in
        do _ <- search_sleep 2 ;
        search_loop zipcode max_businesses rest all_urls
  end.

(** What one turn of the loop leaves in the log: the request, unless the
    user name is the placeholder, and the delay. *)
Definition search_events (zipcode service_type : str) : list search_event :=
  (if bool_decide (oxylabs_username = txt "YOUR_OXYLABS_USERNAME") then []
   else [SvPost (query_of zipcode service_type)])
  ++ [SvSleep 2].

Definition fetch_business_urls_by_zipcode (zipcode : str) (max_businesses : Z)
    : D (list str) :=
  do all_urls <- search_loop zipcode max_businesses service_types ∅ ;
  dret (elements all_urls).

(** What holds of the set of URLs from the start of the search on. *)
Definition collected (max_businesses : Z) (all_urls : gset str) : Prop :=
  (∀ u, u ∈ all_urls → _is_valid_business_url u = true) ∧
  (Z.of_nat (size all_urls) ≤ Z.max 0 max_businesses)%Z.

End Discovery.

Definition is_dict (v : pyval) : bool :=
  match v with PyDict _ => true | _ => false end.

(** [re.match(r'^\d{5}$', zipcode)]: [$] is the end of the string, or the
    place before a newline that ends it. *)
Definition at_end (s : str) : bool :=
  bool_decide (s = []) || bool_decide (s = ["010"%char]).
Definition zip_ok (zipcode : str) : bool :=
  match matches [Rep is_digit 5 (Some 5)] None zipcode with
  | Some t => at_end (drop (length t) zipcode)
  | None => false
  end.

(** How [run_by_zipcode] ends; [Saved] stands for the calls of
    [save_results] and [print_summary]. *)
Inductive run_result :=
| InvalidZip
| NoUrls
| NoneQualified
| Saved (qualified_businesses : list (gmap string pyval)).

Section Workflow.
Context {SE : SearchEnv}.

Definition run_by_zipcode (zipcode : str) (max_businesses : Z) (w : World)
    : run_result * (World * list search_event * list event) :=
  if negb (zip_ok zipcode) then (InvalidZip, (w, [], []))
  else
    let '(urls, (w1, searches)) :=
      fetch_business_urls_by_zipcode zipcode max_businesses (w, []) in
    match urls with
    | [] => (NoUrls, (w1, searches, []))
    | _ :: _ =>
        let '(qualified_businesses, (w2, log)) := scrape_businesses urls (w1, []) in
        match qualified_businesses with
        | [] => (NoneQualified, (w2, searches, log))
        | _ :: _ => (Saved qualified_businesses, (w2, searches, log))
        end
    end.

End Workflow.

(** ** A concrete world for discovery

    The pages and model replies of a [scripted_world] and a script of
    answers of the search service.  [simple_netloc] takes the text between
    the first [//] of a URL and the next [/]; it stands for [urlparse] on
    the URLs of the examples only. *)

Record search_world := {
  pages_world : scripted_world;
  answers : list post_result;
}.

Fixpoint after_slashes (url : str) : option str :=
  match url with
  | c :: rest =>
      match rest with
      | c' :: rest' =>
          if is_char "/" c && is_char "/" c' then Some rest'
          else after_slashes rest
      | [] => None
      end
  | [] => None
  end.

Fixpoint up_to_slash (s : str) : str :=
  match s with
  | c :: rest => if is_char "/" c then [] else c :: up_to_slash rest
  | [] => []
  end.

Definition simple_netloc (url : str) : option str :=
  Some (default [] (up_to_slash <$> after_slashes url)).

Definition next_answer (w : search_world) : post_result * search_world :=
  match answers w with
  | a :: rest => (a, {| pages_world := pages_world w; answers := rest |})
  | [] => (PostError, w)
  end.

Definition search_scripted_base : Env := {|
  World := search_world;
  requests_get url w := (page_of url (pages_world w), w);
  ollama_chat _ w :=
    let '(r, pw) := next_reply (pages_world w) in
    (r, {| pages_world := pw; answers := answers w |});
  time_sleep _ w := w;
  soup_get_text html := html;
  json_loads := MiniJson.loads;
|}.

Definition search_scripted : SearchEnv := {|
  search_base := search_scripted_base;
  urlparse_netloc := simple_netloc;
  oxylabs_username := txt "user";
  requests_post _ w := next_answer w;
|}.

(** One page of search results with the given items. *)
Definition serp (items : list pyval) : pyval :=
  PyDict {[ "results" :=
    PyList [PyDict {[ "content" :=
      PyDict {[ "results" := PyDict {[ "organic" := PyList items ]} ]} ]}] ]}.

Definition organic_item (url : string) : pyval :=
  PyDict {[ "url" := PyStr (txt url) ]}.

(** A world where the first search finds one business and one directory
    page, and the model names and accepts the business. *)
Definition acme_world : search_world := {|
  pages_world := {|
    web := [(url_three, page_three)];
    replies :=
      [ChatReply (jq "{'business_name': 'Acme Plumbing', 'phone': null}");
       ChatReply verdict_reply];
  |};
  answers :=
    [PostOk (serp [organic_item "https://www.yelp.com/biz/acme";
                   organic_item "http://three.example"])];
|}.

(** ** Markup the parser rejects

    [soup = BeautifulSoup(html_content, 'html.parser')] is the first
    statement of [extract_business_info], before its [try]: on markup that
    the parser rejects the constructor raises, the exception leaves
    [extract_business_info], and [scrape_businesses], which has no handler
    around the call, ends with it.  [soup_parses] tells whether the
    constructor returns; [extract_business_info] above is the function
    from its second statement on, and [soup_get_text] the text of the
    parsed page.  [None] stands for the exception. *)
Class ParserEnv := {
  parser_base :: Env;
  soup_parses : str -> bool;
}.

Section Raising.
Context {PE : ParserEnv}.

Notation "'do' x <- m ; k" := (bind m (fun x => k))
  (at level 10, x name, m at level 100, k at level 200).

Definition extract_business_info_or_raise (html_content url : str)
    : M (option (gmap string pyval)) :=
  if soup_parses html_content then
    do business_data <- extract_business_info html_content url ;
    ret (Some business_data)
  else ret None.



End Raising.

(** A parser that, like [html.parser], rejects a marked section with an
    unknown keyword, over the scripted world; and a page with one. *)
Definition strict_parser : ParserEnv := {|
  parser_base := scripted;
  soup_parses html_content := negb (contains (txt "<![foo[") html_content);
|}.

Definition rejected_page : str := txt "<p>Acme Plumbing</p><![foo[bar]]>".


(** ** Text beyond ASCII

    The phone and address patterns, the zip code check and the cleaning
    of the page text use [\d], [\s] and [str.strip], which in Python know
    the decimal digits and the white space of every script.  Here they are
    modelled again on texts of code points.  Below U+0080 the two classes
    are the ASCII ones; above, they are the tables of the Unicode version
    of the interpreter, [decimal_above] and [space_above]. *)

Module Uni.

(** A Python [str]: a sequence of code points. *)
Abbreviation str := (list N).

(** The text of a literal of the source, and the code point of one of
    its characters. *)
Definition txt (s : string) : str := N_of_ascii <$> list_ascii_of_string s.
Definition is_char (a : ascii) (c : N) : bool := bool_decide (c = N_of_ascii a).

Definition in_range (lo hi c : N) : bool := (lo <=? c)%N && (c <=? hi)%N.

(** [A-Z], [a-z] *)
Definition is_upper : N -> bool := in_range 65 90.
Definition is_lower : N -> bool := in_range 97 122.
Definition is_alpha (c : N) : bool := is_upper c || is_lower c.

Class Unicode := {
  decimal_above : N -> bool;
  space_above : N -> bool;
}.

(** No code point is both white space and a decimal digit. *)
Definition classes_disjoint (U : Unicode) : Prop :=
  ∀ c, space_above c = true → decimal_above c = false.

(** *** The matcher, on code points

    As [Re] above, without the word boundary, which these patterns do not
    use. *)
Inductive atom :=
| Cls (p : N -> bool)
| Rep (p : N -> bool) (lo : nat) (hi : option nat)
| Alt (alts : list str).

Definition regex := list atom.
Definition cont := str -> option str.

Definition may_take (hi : option nat) : bool :=
  match hi with Some 0 => false | _ => true end.

Fixpoint greedy (p : N -> bool) (lo : nat) (hi : option nat)
    (k : cont) (s : str) {struct s} : option str :=
  let stop := match lo with 0 => k s | S _ => None end in
  match s with
  | c :: s' =>
      if p c && may_take hi then
        match greedy p (pred lo) (pred <$> hi) k s' with
        | Some t => Some (c :: t)
        | None => stop
        end
      else stop
  | [] => stop
  end.

Fixpoint literal (l : str) (s : str) : option str :=
  match l with
  | [] => Some s
  | a :: l' =>
      match s with
      | c :: s' => if bool_decide (c = a) then literal l' s' else None
      | [] => None
      end
  end.

Fixpoint alternatives (alts : list str) (k : cont) (s : str) : option str :=
  match alts with
  | [] => None
  | l :: alts' =>
      match literal l s with
      | Some s' =>
          match k s' with
          | Some t => Some (l ++ t)
          | None => alternatives alts' k s
          end
      | None => alternatives alts' k s
      end
  end.

(** The pattern matched at the cursor: the text it consumed. *)
Fixpoint matches (r : regex) : cont :=
  match r with
  | [] => fun _ => Some []
  | Cls p :: r' => fun s =>
      match s with
      | c :: s' => if p c then cons c <$> matches r' s' else None
      | [] => None
      end
  | Rep p lo hi :: r' => greedy p lo hi (matches r')
  | Alt alts :: r' => alternatives alts (matches r')
  end.

(** [re.findall]: the non-overlapping matches from left to right. *)
Fixpoint findall_from (r : regex) (skip : nat) (s : str) : list str :=
  match s with
  | [] => []
  | _ :: s' =>
      match skip with
      | S n => findall_from r n s'
      | 0 =>
          match matches r s with
          | Some t => t :: findall_from r (pred (length t)) s'
          | None => findall_from r 0 s'
          end
      end
  end.
Definition findall (r : regex) (s : str) : list str := findall_from r 0 s.

Definition fullmatch (r : regex) (s : str) : bool :=
  bool_decide (matches r s = Some s).

Definition chr (a : ascii) : atom := Cls (is_char a).

(** The texts of a pattern, and a text inside another. *)
Fixpoint conforms (r : regex) (t : str) : Prop :=
  match r with
  | [] => t = []
  | Cls p :: r' => ∃ c t', t = c :: t' ∧ p c = true ∧ conforms r' t'
  | Rep p lo hi :: r' =>
      ∃ piece t',
        t = piece ++ t' ∧ Forall (fun c => p c = true) piece ∧
        lo ≤ length piece ∧ (∀ n, hi = Some n → length piece ≤ n) ∧
        conforms r' t'
  | Alt alts :: r' => ∃ l t', l ∈ alts ∧ t = l ++ t' ∧ conforms r' t'
  end.

Definition occurs_in (t s : str) : Prop :=
  ∃ before after, s = before ++ t ++ after.

(** A list without its repetitions: each element where it is first seen. *)
Fixpoint first_seen (l : list str) : list str :=
  match l with
  | [] => []
  | x :: l' => x :: filter (fun y => y ≠ x) (first_seen l')
  end.

Definition mem (x : str) (xs : list str) : bool := bool_decide (x ∈ xs).

(** [str.split(sep)] and [sep.join(lines)] for a one-character
    separator *)
Fixpoint split (sep : N) (s : str) : list str :=
  match s with
  | [] => [[]]
  | c :: s' =>
      if bool_decide (c = sep) then [] :: split sep s'
      else match split sep s' with
           | p :: ps => (c :: p) :: ps
           | [] => [[c]]
           end
  end.

Fixpoint join (sep : N) (lines : list str) : str :=
  match lines with
  | [] => []
  | line :: rest =>
      match rest with
      | [] => line
      | _ :: _ => line ++ sep :: join sep rest
      end
  end.

Definition newline : N := 10.

(** 12000, the number of characters kept *)
Definition text_limit : nat := 12 * 1000.

(** The street words of [address_pattern] *)
Definition street_types : list str :=
  [txt "Street"; txt "St"; txt "Avenue"; txt "Ave"; txt "Road";
   txt "Rd"; txt "Boulevard"; txt "Blvd"; txt "Lane"; txt "Ln";
   txt "Drive"; txt "Dr"; txt "Court"; txt "Ct"; txt "Way"].

(** [f"({d[:3]}) {d[3:6]}-{d[6:]}"] *)
Definition format_phone (d : str) : str :=
  txt "(" ++ take 3 d ++ txt ") " ++ take 3 (drop 3 d) ++ txt "-" ++ drop 6 d.

(** [$] of a pattern without [re.MULTILINE]: the end of the string, or
    the place before a newline that ends it. *)
Definition at_end (s : str) : bool :=
  bool_decide (s = []) || bool_decide (s = [newline]).

Section Text.
Context {U : Unicode}.

(** [\d] and [\s] of a [str] pattern; [\s] is also what [str.strip]
    removes. *)
Definition is_digit (c : N) : bool :=
  if (c <? 128)%N then in_range 48 57 c else decimal_above c.
Definition is_space (c : N) : bool :=
  if (c <? 128)%N
  then in_range 9 13 c || in_range 28 31 c || (c =? 32)%N
  else space_above c.

(** [str.strip] *)
Fixpoint lstrip (s : str) : str :=
  match s with
  | c :: s' => if is_space c then lstrip s' else s
  | [] => []
  end.
Definition rstrip (s : str) : str := reverse (lstrip (reverse s)).
Definition strip (s : str) : str := rstrip (lstrip s).

(** *** Phones *)

(** [[-.\s]] *)
Definition phone_sep (c : N) : bool :=
  is_char "-" c || is_char "." c || is_space c.

Definition phone_patterns : list regex :=
  [ (* \(?\d{3}\)?[-.\s]?\d{3}[-.\s]?\d{4} *)
    [Rep (is_char "(") 0 (Some 1); Rep is_digit 3 (Some 3);
     Rep (is_char ")") 0 (Some 1); Rep phone_sep 0 (Some 1);
     Rep is_digit 3 (Some 3); Rep phone_sep 0 (Some 1);
     Rep is_digit 4 (Some 4)];
    (* \d{3}[-.\s]\d{3}[-.\s]\d{4} *)
    [Rep is_digit 3 (Some 3); Cls phone_sep; Rep is_digit 3 (Some 3);
     Cls phone_sep; Rep is_digit 4 (Some 4)];
    (* \(\d{3}\)\s?\d{3}-\d{4} *)
    [chr "("; Rep is_digit 3 (Some 3); chr ")"; Rep is_space 0 (Some 1);
     Rep is_digit 3 (Some 3); chr "-"; Rep is_digit 4 (Some 4)] ].

(** [phones.extend(re.findall(pattern, html_content))] for each pattern *)
Definition phones (html_content : str) : list str :=
  concat ((fun pattern => findall pattern html_content) <$> phone_patterns).

(** [re.sub(r'\D', '', phone)] *)
Definition digits_only (phone : str) : str :=
  filter (fun c => is_digit c) phone.

Fixpoint cleaned_phones_loop (phones cleaned_phones : list str) : list str :=
  match phones with
  | [] => cleaned_phones
  | phone :: rest =>
      let d := digits_only phone in
      if length d =? 10 then
        let formatted := format_phone d in
        if negb (mem formatted cleaned_phones)
        then cleaned_phones_loop rest (cleaned_phones ++ [formatted])
        else cleaned_phones_loop rest cleaned_phones
      else cleaned_phones_loop rest cleaned_phones
  end.

Definition cleaned_phones (html_content : str) : list str :=
  cleaned_phones_loop (phones html_content) [].

(** [^\(\d{3}\) \d{3}-\d{4}$] *)
Definition canonical_phone : regex :=
  [chr "("; Rep is_digit 3 (Some 3); chr ")"; chr " ";
   Rep is_digit 3 (Some 3); chr "-"; Rep is_digit 4 (Some 4)].

(** The matches that reduce to ten digits, formatted, in the order found. *)
Definition formatted_candidates (phones : list str) : list str :=
  (fun phone => format_phone (digits_only phone))
    <$> filter (fun phone => length (digits_only phone) = 10) phones.

(** *** The address *)

(** [\d+\s+[A-Z][a-zA-Z\s]+(?:Street|St|Avenue|Ave|Road|Rd|Boulevard|Blvd|Lane|Ln|Drive|Dr|Court|Ct|Way)\.?] *)
Definition address_pattern : regex :=
  [Rep is_digit 1 None; Rep is_space 1 None; Cls is_upper;
   Rep (fun c => is_alpha c || is_space c) 1 None;
   Alt street_types;
   Rep (is_char ".") 0 (Some 1)].

(** [addresses[0] if addresses else None] for
    [addresses = re.findall(address_pattern, soup.get_text())] *)
Definition main_address (text : str) : option str :=
  head (findall address_pattern text).

(** *** The zip code check: [re.match(r'^\d{5}$', zipcode)] *)
Definition zip_ok (zipcode : str) : bool :=
  match matches [Rep is_digit 5 (Some 5)] zipcode with
  | Some t => at_end (drop (length t) zipcode)
  | None => false
  end.

(** *** The text sent to the model

    [text = '\n'.join(line for line in text.split('\n') if line.strip())]
    and [text = text[:12000]] of [extract_business_info], on the text
    that [soup.get_text] gave. *)
Definition visible_lines (text : str) : list str :=
  filter (fun line => strip line ≠ []) (split newline text).

Definition clean_text (text : str) : str :=
  take text_limit (join newline (visible_lines text)).

End Text.

(** *** Tables for the examples: the white space and the decimal digits
    above U+007F of Unicode 14, each block of digits by its zero. *)
Definition spaces_above : list N :=
  [133; 160; 5760; 8192; 8193; 8194; 8195; 8196; 8197; 8198; 8199; 8200;
   8201; 8202; 8232; 8233; 8239; 8287; 12288]%N.

Definition zeros_above : list N :=
  [1632; 1776; 1984; 2406; 2534; 2662; 2790; 2918; 3046; 3174; 3302; 3430;
   3558; 3664; 3792; 3872; 4160; 4240; 6112; 6160; 6470; 6608; 6784; 6800;
   6992; 7088; 7232; 7248; 42528; 43216; 43264; 43472; 43504; 43600; 44016;
   65296; 66720; 68912; 69734; 69872; 69942; 70096; 70384; 70736; 70864;
   71248; 71360; 71472; 71904; 72016; 72784; 73040; 73120; 92768; 92864;
   93008; 120782; 120792; 120802; 120812; 120822; 123200; 123632; 125264;
   130032]%N.

Definition unicode_14 : Unicode := {|
  decimal_above c := existsb (fun zero => in_range zero (zero + 9) c) zeros_above;
  space_above c := bool_decide (c ∈ spaces_above);
|}.

(** The no-break space and the full-width digit zero. *)
Definition nbsp : N := 160.
Definition fullwidth_zero : N := 65296.

End Uni.

(** ** ASCII texts in both models

    The code points of a text, and when a pattern of [Re] and one of [Uni]
    are the same pattern on ASCII texts. *)
Definition code_points (s : str) : Uni.str := code <$> s.

Definition same_class (p : ascii -> bool) (q : N -> bool) : Prop :=
  ∀ c, (code c < 128)%N → q (code c) = p c.

Definition same_atom (a : atom) (b : Uni.atom) : Prop :=
  match a, b with
  | Cls p, Uni.Cls q => same_class p q
  | Rep p lo hi, Uni.Rep q lo' hi' => lo' = lo ∧ hi' = hi ∧ same_class p q
  | Alt alts, Uni.Alt alts' => alts' = code_points <$> alts
  | _, _ => False
  end.

(** Two continuations that return the same text on ASCII texts *)
Definition same_cont (k : cont) (k' : Uni.cont) : Prop :=
  ∀ prev s, ascii_text s → k' (code_points s) = fmap code_points (k prev s).
(** * Properties *)

(** ** Strings *)

Lemma lower_char_fixed c : lower_char (lower_char c) = lower_char c.
Proof. by destruct c as [[] [] [] [] [] [] [] []]. Qed.

Lemma lower_lower s : lower (lower s) = lower s.
Proof.
  unfold lower. rewrite <- list_fmap_compose. apply list_fmap_ext.
  intros _ c _. apply lower_char_fixed.
Qed.

Lemma lowered_lower s : lowered s ↔ lower s = s.
Proof.
  unfold lowered, lower. induction s as [|c s IH]; simpl; [done|].
  rewrite Forall_cons, IH. split; [intros [-> ->]; done|].
  intros [= ??]; done.
Qed.

Lemma lowered_lstrip s : lowered s → lowered (lstrip s).
Proof.
  unfold lowered. induction 1 as [|c s Hc Hs IH]; simpl; [constructor|].
  destruct (is_space c); [done|]. by constructor.
Qed.

Lemma lowered_strip s : lowered s → lowered (strip s).
Proof.
  intros H. unfold strip, rstrip, lowered.
  apply Forall_reverse. apply lowered_lstrip. apply Forall_reverse.
  by apply lowered_lstrip.
Qed.

Lemma split_nonempty sep s : split sep s ≠ [].
Proof.
  destruct s as [|c s]; simpl; [done|].
  case_bool_decide; [done|]. by destruct (split sep s).
Qed.

Lemma split_one sep s :
  length (split sep s) = 1 → (sep ∉ s) ∧ split sep s = [s].
Proof.
  induction s as [|c s IH]; simpl.
  - intros _. split; [apply not_elem_of_nil | done].
  - case_bool_decide as Hc.
    + pose proof (split_nonempty sep s). destruct (split sep s); simpl; [done|lia].
    + destruct (split sep s) as [|p ps] eqn:Hs; simpl.
      { by destruct (split_nonempty sep s). }
      intros Hl. destruct IH as [Hn Heq]; [done|].
      split; [rewrite not_elem_of_cons; split; [congruence | done]|].
      by simplify_eq.
Qed.

Lemma split_two sep s :
  length (split sep s) = 2 →
  ∃ l d, s = l ++ sep :: d ∧ (sep ∉ l) ∧ (sep ∉ d) ∧ split sep s = [l; d].
Proof.
  induction s as [|c s IH]; simpl; [done|].
  case_bool_decide as Hc.
  - simpl. intros Hl. destruct (split_one sep s) as [Hn Heq]; [lia|].
    exists [], s. subst c. rewrite Heq.
    split_and!; [done | apply not_elem_of_nil | done | done].
  - destruct (split sep s) as [|p ps] eqn:Hs; simpl; [done|].
    intros Hl. destruct IH as (l & d & -> & Hl' & Hd & Heq); [done|].
    exists (c :: l), d. simplify_eq.
    split_and!; [done | | done | done].
    rewrite not_elem_of_cons. split; [congruence|done].
Qed.

Lemma contains_spec needle hay :
  contains needle hay = true ↔ ∃ x y, hay = x ++ needle ++ y.
Proof.
  induction hay as [|c hay IH]; simpl; unfold startswith;
    rewrite orb_true_iff, bool_decide_eq_true.
  - split.
    + intros [[y ->]|?]; [|done]. by exists [], y.
    + intros (x & y & H). left. symmetry in H.
      apply app_eq_nil in H as [-> H]. apply app_eq_nil in H as [-> ->].
      by exists [].
  - rewrite IH. split.
    + intros [[y ->]|(x & y & ->)]; [by exists [], y|]. by exists (c :: x), y.
    + intros ([|c' x] & y & H); simpl in H.
      * left. by exists y.
      * right. simplify_eq. by exists x, y.
Qed.

Lemma once_unique (a : ascii) (l d u v : str) :
  a ∉ l → a ∉ d → u ++ a :: v = l ++ a :: d → u = l ∧ v = d.
Proof.
  revert u. induction l as [|c l IH]; intros u Hl Hd H.
  - destruct u as [|c' u]; simpl in H; [by simplify_eq|].
    simplify_eq. destruct Hd. rewrite elem_of_app, elem_of_cons. auto.
  - rewrite not_elem_of_cons in Hl. destruct Hl as [Hc Hl].
    destruct u as [|c' u]; simpl in H; [by simplify_eq|].
    injection H as -> H. destruct (IH u) as [-> ->]; done.
Qed.

(** ** Emails *)

Lemma valid_emails_loop_step x all acc :
  valid_emails_loop (x :: all) acc
  = if email_kept (strip (lower x))
    then valid_emails_loop all (acc ++ [strip (lower x)])
    else valid_emails_loop all acc.
Proof.
  cbn [valid_emails_loop]. unfold email_kept.
  set (email := strip (lower x)).
  generalize (bool_decide (is_Some (search file_ext_pattern email))).
  generalize (contains (txt "@2x") email || contains (txt "@3x") email).
  generalize (has_char "@" email).
  generalize (length (split "@" email) =? 2).
  set (domain := default [] (split "@" email !! 1)).
  generalize ((length domain <? 4) || has_char "/" domain || has_char "092" domain).
  generalize (existsb (fun tld => endswith domain ("."%char :: tld)) valid_tlds).
  by intros [] [] [] [] [] [].
Qed.

Lemma valid_emails_loop_filter all acc :
  valid_emails_loop all acc
  = acc ++ filter (fun e => email_kept e) ((fun x => strip (lower x)) <$> all).
Proof.
  revert acc. induction all as [|x all IH]; intros acc.
  { simpl. by rewrite app_nil_r. }
  rewrite valid_emails_loop_step, fmap_cons, filter_cons.
  destruct (email_kept (strip (lower x))); simpl; rewrite IH; [|done].
  by rewrite <- app_assoc.
Qed.

Lemma email_kept_well_formed e :
  lowered e → email_kept e = true → well_formed_email e.
Proof.
  intros Hlow Hk. split; [by apply lowered_lower|].
  unfold email_kept in Hk. cbv zeta in Hk.
  apply andb_true_iff in Hk as [Hk Hdom].
  apply andb_true_iff in Hk as [_ Hlen].
  apply andb_true_iff in Hdom as [Hdom Htld].
  destruct (split_two "@" e) as (l & d & He & Hl & Hd & Hs).
  { by apply Nat.eqb_eq. }
  rewrite Hs in Hdom, Htld. cbn [lookup list_lookup default] in Hdom, Htld.
  apply negb_true_iff, orb_false_iff in Hdom as [Hdom Hb].
  apply orb_false_iff in Hdom as [Hlen4 Hsl].
  apply Nat.ltb_ge in Hlen4.
  apply bool_decide_eq_false in Hsl, Hb.
  apply existsb_exists in Htld as (tld & Hin & Hend).
  apply bool_decide_eq_true in Hend.
  exists l, d. split_and!; try done.
  exists tld. split; [by apply list_elem_of_In | done].
Qed.

Lemma valid_emails_loop_well_formed all e :
  e ∈ valid_emails_loop all [] → well_formed_email e.
Proof.
  rewrite valid_emails_loop_filter. simpl.
  rewrite list_elem_of_filter, list_elem_of_fmap.
  intros [Hk (x & -> & _)].
  apply email_kept_well_formed; [|by apply Is_true_true].
  apply lowered_strip, lowered_lower, lower_lower.
Qed.

Lemma elem_of_unique_of l e : e ∈ unique_of l ↔ e ∈ l.
Proof. unfold unique_of. rewrite elem_of_elements. apply elem_of_list_to_set. Qed.

Lemma NoDup_unique_of l : NoDup (unique_of l).
Proof. unfold unique_of. apply NoDup_elements. Qed.

Lemma unique_emails_well_formed html_content text e :
  e ∈ unique_emails (contact_signals html_content text) → well_formed_email e.
Proof.
  cbn [contact_signals unique_emails]. rewrite elem_of_unique_of.
  apply valid_emails_loop_well_formed.
Qed.

(** C4: every address of the validated email set is lower case, has exactly
    one [@], a domain of at least four characters without [/] or [\], ending
    in a dot and a suffix of the allow-list; the set has no duplicates; and
    the corpus [foo@bar.png a@b.c Contact@Example.COM] gives exactly
    [contact@example.com], as do the three candidates taken one by one. *)
Theorem validated_emails_well_formed :
  (∀ candidates e,
     e ∈ unique_of (valid_emails_loop candidates []) → well_formed_email e) ∧
  (∀ html_content text e,
     e ∈ unique_emails (contact_signals html_content text) →
     well_formed_email e) ∧
  (∀ html_content text, NoDup (unique_emails (contact_signals html_content text))) ∧
  unique_of (valid_emails_loop
               [txt "foo@bar.png"; txt "a@b.c"; txt "Contact@Example.COM"] [])
    = [txt "contact@example.com"] ∧
  (let corpus := txt "foo@bar.png a@b.c Contact@Example.COM" in
   unique_emails (contact_signals corpus corpus) = [txt "contact@example.com"]).
Proof.
  split_and!.
  - intros candidates e He. rewrite elem_of_unique_of in He.
    by apply valid_emails_loop_well_formed in He.
  - apply unique_emails_well_formed.
  - intros. apply NoDup_unique_of.
  - by vm_compute.
  - by vm_compute.
Qed.

Lemma validated_emails_witness :
  well_formed_email (txt "contact@example.com").
Proof.
  apply (proj1 validated_emails_well_formed
           [txt "foo@bar.png"; txt "a@b.c"; txt "Contact@Example.COM"]).
  apply (bool_decide_unpack _). by vm_compute.
Defined.

(** ** The role partition *)

Lemma split_app sep (l d : str) :
  sep ∉ l → split sep (l ++ sep :: d) = l :: split sep d.
Proof.
  induction l as [|c l IH]; simpl; intros Hl.
  - by rewrite bool_decide_eq_true_2.
  - apply not_elem_of_cons in Hl as [Hc Hl].
    rewrite bool_decide_eq_false_2 by congruence. by rewrite IH.
Qed.

Lemma local_part_app (l d : str) :
  at_sign ∉ l → local_part (l ++ at_sign :: d) = l.
Proof. intros Hl. unfold local_part. by rewrite split_app. Qed.

Lemma contains_role name (l d : str) :
  at_sign ∉ l → at_sign ∉ d →
  contains (name ++ [at_sign]) (l ++ at_sign :: d) = true ↔ name `suffix_of` l.
Proof.
  intros Hl Hd. rewrite contains_spec. split.
  - intros (x & y & H). rewrite <- !app_assoc in H. simpl in H.
    rewrite app_assoc in H. symmetry in H.
    apply once_unique in H as [H _]; [|done..]. subst l. by exists x.
  - intros [x ->]. exists x, d. by rewrite <- !app_assoc.
Qed.

Lemma is_generic_spec e :
  is_generic e = true ↔
  ∃ name, name ∈ generic_names ∧ contains (name ++ [at_sign]) e = true.
Proof.
  unfold is_generic.
  change generic_prefixes with ((fun n => n ++ [at_sign]) <$> generic_names).
  rewrite existsb_exists. split.
  - intros (p & Hp & Hc). apply list_elem_of_In, list_elem_of_fmap in Hp.
    destruct Hp as (name & -> & Hn). eauto.
  - intros (name & Hn & Hc). exists (name ++ [at_sign]). split; [|done].
    apply list_elem_of_In, list_elem_of_fmap. eauto.
Qed.

Lemma is_generic_suffix e :
  well_formed_email e →
  is_generic e = true ↔
  ∃ name, name ∈ generic_names ∧ name `suffix_of` local_part e.
Proof.
  intros (_ & l & d & -> & Hl & Hd & _).
  rewrite is_generic_spec, local_part_app by done.
  split; intros (name & Hn & H); exists name; split; try done;
    by apply (contains_role name l d).
Qed.

(** C6, as the source has it: a validated address is a business address
    exactly when its local part ends with one of the generic role names
    (the text [name@] occurs in it), and an owner address otherwise; every
    address is in exactly one of the two lists. *)
Theorem role_partition html_content text e :
  let sig := contact_signals html_content text in
  e ∈ unique_emails sig →
  (e ∈ business_emails sig ↔
     ∃ name, name ∈ generic_names ∧ name `suffix_of` local_part e) ∧
  (e ∈ owner_emails sig ↔
     ¬ ∃ name, name ∈ generic_names ∧ name `suffix_of` local_part e) ∧
  (e ∈ business_emails sig ↔ (e ∉ owner_emails sig)).
Proof.
  intros sig He.
  pose proof (is_generic_suffix e (unique_emails_well_formed _ _ _ He)) as Hg.
  subst sig. cbn [contact_signals business_emails owner_emails unique_emails] in *.
  unfold business_of, owner_of. rewrite !list_elem_of_filter, <- Hg.
  destruct (is_generic e); cbn [negb]; split_and!; split;
    intuition (try done).
  match goal with H : _ → _ → False |- _ => destruct H; [exact I | done] end.
Qed.

Lemma role_partition_witness :
  let e := txt "office@example.com" in
  let sig := contact_signals e e in
  (e ∈ business_emails sig ↔
     ∃ name, name ∈ generic_names ∧ name `suffix_of` local_part e) ∧
  (e ∈ owner_emails sig ↔
     ¬ ∃ name, name ∈ generic_names ∧ name `suffix_of` local_part e) ∧
  (e ∈ business_emails sig ↔ (e ∉ owner_emails sig)).
Proof.
  apply (role_partition (txt "office@example.com") (txt "office@example.com")).
  apply (bool_decide_unpack _). by vm_compute.
Defined.

(** C6 as worded fails: [infoguy@example.com] starts with the generic
    prefix [info] and is an owner address, and [myinfo@example.com] starts
    with none and is a business address. *)
Lemma role_partition_by_prefix_fails :
  (let e := txt "infoguy@example.com" in
   let sig := contact_signals e e in
   e ∈ unique_emails sig ∧ spec_is_business e = true ∧
   (e ∉ business_emails sig) ∧ e ∈ owner_emails sig) ∧
  (let e := txt "myinfo@example.com" in
   let sig := contact_signals e e in
   e ∈ unique_emails sig ∧ spec_is_business e = false ∧
   e ∈ business_emails sig ∧ (e ∉ owner_emails sig)) ∧
  ¬ (∀ html_content text e,
       let sig := contact_signals html_content text in
       e ∈ unique_emails sig →
       (e ∈ business_emails sig ↔ spec_is_business e = true)).
Proof.
  assert (H1 : let e := txt "infoguy@example.com" in
               let sig := contact_signals e e in
               e ∈ unique_emails sig ∧ spec_is_business e = true ∧
               (e ∉ business_emails sig) ∧ e ∈ owner_emails sig).
  { cbv zeta. split_and!.
    - apply (bool_decide_unpack _). by vm_compute.
    - by vm_compute.
    - apply (bool_decide_eq_false_1 _). by vm_compute.
    - apply (bool_decide_unpack _). by vm_compute. }
  split_and!; [exact H1 | |].
  - cbv zeta. split_and!.
    + apply (bool_decide_unpack _). by vm_compute.
    + by vm_compute.
    + apply (bool_decide_unpack _). by vm_compute.
    + apply (bool_decide_eq_false_1 _). by vm_compute.
  - intros H. cbv zeta in H1. destruct H1 as (Hu & Hs & Hb & _).
    apply Hb. by apply (H _ _ _ Hu).
Qed.

(** ** Phones *)

Lemma filter_all {A} (P : A → Prop) `{!∀ x, Decision (P x)} (l : list A) :
  (∀ x, P x) → filter P l = l.
Proof.
  intros HP. induction l as [|x l IH]; [done|].
  by rewrite filter_cons_True, IH.
Qed.

Lemma cleaned_phones_loop_first_seen phones acc :
  cleaned_phones_loop phones acc
  = acc ++ filter (fun y => y ∉ acc) (first_seen (formatted_candidates phones)).
Proof.
  revert acc. induction phones as [|phone phones IH]; intros acc.
  { simpl. by rewrite app_nil_r. }
  cbn [cleaned_phones_loop]. unfold formatted_candidates.
  rewrite filter_cons.
  destruct (decide (length (digits_only phone) = 10)) as [Hlen|Hlen].
  - rewrite (proj2 (Nat.eqb_eq _ _) Hlen). rewrite fmap_cons.
    cbn [first_seen]. rewrite filter_cons.
    set (formatted := format_phone (digits_only phone)).
    fold (formatted_candidates phones).
    unfold mem. destruct (decide (formatted ∉ acc)) as [Hin|Hin].
    + rewrite bool_decide_eq_false_2 by done. cbn [negb].
      rewrite IH, <- app_assoc. cbn [app]. do 2 f_equal.
      rewrite list_filter_filter. apply list_filter_iff.
      intros y. rewrite elem_of_app, list_elem_of_singleton. tauto.
    + apply dec_stable in Hin. rewrite bool_decide_eq_true_2 by done.
      cbn [negb]. rewrite IH. f_equal.
      rewrite list_filter_filter. apply list_filter_iff.
      intros y. split; [|by intros [? ?]]. intros Hy. split; [done|]. by intros ->.
  - rewrite (proj2 (Nat.eqb_neq _ _) Hlen). apply IH.
Qed.

Lemma cleaned_phones_first_seen html_content :
  cleaned_phones html_content
  = first_seen (formatted_candidates (phones html_content)).
Proof.
  unfold cleaned_phones. rewrite cleaned_phones_loop_first_seen. simpl.
  apply filter_all. intros y. apply not_elem_of_nil.
Qed.

Lemma elem_of_first_seen l x : x ∈ first_seen l ↔ x ∈ l.
Proof.
  induction l as [|y l IH]; [done|]. cbn [first_seen].
  rewrite !elem_of_cons, list_elem_of_filter, IH.
  destruct (decide (x = y)); tauto.
Qed.

Lemma NoDup_first_seen l : NoDup (first_seen l).
Proof.
  induction l as [|y l IH]; cbn [first_seen]; constructor.
  - rewrite list_elem_of_filter. tauto.
  - by apply NoDup_filter.
Qed.

Lemma matches_canonical_phone d :
  length d = 10 → Forall (fun c => is_digit c = true) d →
  matches canonical_phone None (format_phone d) = Some (format_phone d).
Proof.
  intros Hlen Hd.
  do 10 (destruct d as [|? d]; [done|]). destruct d; [|done].
  repeat match goal with
         | H : Forall _ (_ :: _) |- _ => apply Forall_cons in H as [? H]
         end.
  cbn -[is_digit]. 
  repeat match goal with H : is_digit _ = true |- _ => rewrite H; clear H end.
  cbn. done.
Qed.

Lemma elem_of_formatted_candidates phones p :
  p ∈ formatted_candidates phones ↔
  ∃ phone, phone ∈ phones ∧ length (digits_only phone) = 10 ∧
           p = format_phone (digits_only phone).
Proof.
  unfold formatted_candidates. rewrite list_elem_of_fmap.
  setoid_rewrite list_elem_of_filter. split.
  - intros (phone & -> & Hlen & Hin). eauto.
  - intros (phone & Hin & Hlen & ->). eauto.
Qed.

Lemma digits_only_digits phone :
  Forall (fun c => is_digit c = true) (digits_only phone).
Proof.
  unfold digits_only. apply Forall_forall. intros c Hc.
  apply list_elem_of_filter in Hc as [Hc _]. by apply Is_true_true.
Qed.

(** ** The JSON span of a reply *)

Lemma first_unique (a : ascii) (l l' r r' : str) :
  a ∉ l → a ∉ l' → l ++ a :: r = l' ++ a :: r' → l = l' ∧ r = r'.
Proof.
  revert l'. induction l as [|c l IH]; intros [|c' l'] Hl Hl' H;
    simpl in H; simplify_eq; try done.
  - destruct Hl'. apply list_elem_of_here.
  - destruct Hl. apply list_elem_of_here.
  - apply not_elem_of_cons in Hl as [_ Hl], Hl' as [_ Hl'].
    destruct (IH l') as [-> ->]; done.
Qed.

Lemma last_unique (a : ascii) (l l' r r' : str) :
  a ∉ r → a ∉ r' → l ++ a :: r = l' ++ a :: r' → l = l' ∧ r = r'.
Proof.
  revert l'. induction l as [|c l IH]; intros [|c' l'] Hr Hr' H;
    simpl in H; simplify_eq; try done.
  - destruct Hr. rewrite elem_of_app, elem_of_cons. auto.
  - destruct Hr'. rewrite elem_of_app, elem_of_cons. auto.
  - destruct (IH l') as [-> ->]; done.
Qed.

Lemma matches_close prev s :
  matches [chr close_brace] prev s
  = match s with
    | c :: _ => if is_char close_brace c then Some [c] else None
    | [] => None
    end.
Proof. destruct s as [|c s]; [done|]. simpl. by destruct (is_char _ c). Qed.

Lemma matches_json prev s :
  matches json_pattern prev s
  = match s with
    | c :: s' =>
        if is_char open_brace c
        then cons c <$> greedy any_char 0 None (matches [chr close_brace]) (Some c) s'
        else None
    | [] => None
    end.
Proof. done. Qed.

(** The greedy [.*] before the closing brace runs to the last [}]. *)
Lemma greedy_to_last_close prev s :
  match greedy any_char 0 None (matches [chr close_brace]) prev s with
  | Some t =>
      ∃ body post, s = body ++ close_brace :: post ∧ (close_brace ∉ post) ∧
                   t = body ++ [close_brace]
  | None => close_brace ∉ s
  end.
Proof.
  revert prev. induction s as [|c s IH]; intros prev.
  { cbn. apply not_elem_of_nil. }
  cbn [greedy any_char may_take andb fmap option_fmap option_map pred].
  specialize (IH (Some c)).
  destruct (greedy any_char 0 None _ (Some c) s) as [t|].
  - destruct IH as (body & post & -> & Hpost & ->).
    by exists (c :: body), post.
  - rewrite matches_close. unfold is_char. case_bool_decide as Hc.
    + subst c. by exists [], s.
    + rewrite not_elem_of_cons. split; [congruence | done].
Qed.

Lemma search_json_inv prev t :
  match search_from json_pattern prev t with
  | Some g =>
      ∃ pre body post,
        t = pre ++ open_brace :: body ++ close_brace :: post ∧
        (open_brace ∉ pre) ∧ (close_brace ∉ post) ∧
        g = open_brace :: body ++ [close_brace]
  | None =>
      ¬ ∃ pre mid post, t = pre ++ open_brace :: mid ++ close_brace :: post
  end.
Proof.
  revert prev. induction t as [|c t IH]; intros prev.
  { cbn. intros ([|??] & ? & ? & ?); done. }
  cbn [search_from]. rewrite matches_json.
  unfold is_char. case_bool_decide as Hc.
  - subst c. pose proof (greedy_to_last_close (Some open_brace) t) as Hg.
    destruct (greedy any_char 0 None _ _ t) as [b|]; cbn [fmap option_fmap option_map].
    + destruct Hg as (body & post & -> & Hpost & ->).
      exists [], body, post. split_and!; try done. apply not_elem_of_nil.
    + assert (Hno : ¬ ∃ pre mid post,
                 open_brace :: t = pre ++ open_brace :: mid ++ close_brace :: post).
      { intros (pre & mid & post & H). apply Hg.
        destruct pre as [|? pre]; simpl in H; simplify_eq;
          rewrite ?elem_of_app, ?elem_of_cons, ?elem_of_app, ?elem_of_cons; auto. }
      specialize (IH (Some open_brace)).
      destruct (search_from json_pattern _ t); [|done].
      destruct IH as (pre & body & post & -> & _). destruct Hno.
      by exists (open_brace :: pre), body, post.
  - specialize (IH (Some c)).
    destruct (search_from json_pattern _ t).
    + destruct IH as (pre & body & post & -> & Hpre & Hpost & ->).
      exists (c :: pre), body, post. split_and!; try done.
      rewrite not_elem_of_cons. split; [congruence | done].
    + intros ([|c' pre] & mid & post & H); simpl in H; simplify_eq.
      apply IH. by exists pre, mid, post.
Qed.

Lemma json_match_Some t g :
  json_match t = Some g ↔
  ∃ pre body post,
    t = pre ++ open_brace :: body ++ close_brace :: post ∧
    (open_brace ∉ pre) ∧ (close_brace ∉ post) ∧
    g = open_brace :: body ++ [close_brace].
Proof.
  unfold json_match, search.
  pose proof (search_json_inv None t) as H. split.
  - intros Heq. by rewrite Heq in H.
  - intros (pre & body & post & Ht & Hpre & Hpost & ->).
    destruct (search_from json_pattern None t) as [g'|].
    + destruct H as (pre' & body' & post' & Ht' & Hpre' & Hpost' & ->).
      rewrite Ht in Ht'. apply first_unique in Ht' as [_ Ht']; [|done..].
      apply last_unique in Ht' as [Ht' _]; [|done..]. by simplify_eq.
    + destruct H. eauto.
Qed.

Lemma json_match_None t :
  json_match t = None ↔
  ¬ ∃ pre mid post, t = pre ++ open_brace :: mid ++ close_brace :: post.
Proof.
  unfold json_match, search.
  pose proof (search_json_inv None t) as H. split.
  - intros Heq. by rewrite Heq in H.
  - intros Hno. destruct (search_from json_pattern None t); [|done].
    destruct H as (pre & body & post & -> & _). destruct Hno. eauto.
Qed.

Lemma json_match_commentary_before pre t :
  open_brace ∉ pre → json_match (pre ++ t) = json_match t.
Proof.
  intros Hpre. destruct (json_match t) as [g|] eqn:Ht.
  - apply json_match_Some in Ht as (pre' & body & post & -> & Hpre' & Hpost & ->).
    apply json_match_Some. exists (pre ++ pre'), body, post.
    rewrite <- app_assoc. split_and!; try done.
    rewrite not_elem_of_app. done.
  - apply json_match_None. intros (pre' & mid & post & H).
    apply json_match_None in Ht. apply Ht. clear Ht.
    revert pre' H. induction pre as [|c pre IH]; intros pre' H; [eauto|].
    apply not_elem_of_cons in Hpre as [Hc Hpre].
    destruct pre' as [|c' pre']; simpl in H; simplify_eq. eauto.
Qed.

Lemma json_match_text_after t tail g :
  close_brace ∉ tail → json_match t = Some g → json_match (t ++ tail) = Some g.
Proof.
  intros Htail (pre & body & post & -> & Hpre & Hpost & ->)%json_match_Some.
  apply json_match_Some. exists pre, body, (post ++ tail).
  split_and!; try done.
  - rewrite <- app_assoc. cbn [app]. by rewrite <- app_assoc.
  - by rewrite not_elem_of_app.
Qed.

(** ** The classifier *)

Section Classifier.
Context {E : Env}.

Lemma truthy_py_and x y : truthy (py_and x y) = truthy x && truthy y.
Proof. unfold py_and. by destruct (truthy x) eqn:Hx; [|rewrite Hx]. Qed.

Lemma truthy_is_qualified analysis :
  truthy (is_qualified analysis)
  = truthy (dict_get analysis "is_small_independent" (PyBool false))
    && truthy (dict_get analysis "is_service_based" (PyBool false))
    && negb (truthy (dict_get analysis "is_chain_or_franchise" (PyBool true))).
Proof. unfold is_qualified. by rewrite !truthy_py_and. Qed.

Lemma is_small_independent_business_eq business_data w log :
  is_small_independent_business business_data (w, log)
  = let '(response, w') := ollama_chat (QualificationPrompt business_data) w in
    (match response with
     | ChatReply t =>
         match decoded t with
         | Some (PyDict analysis) => is_qualified analysis
         | _ => PyBool false
         end
     | ChatError => PyBool false
     end, (w', log ++ [EvChat])).
Proof.
  unfold is_small_independent_business, bind, chat, decoded.
  destruct (ollama_chat _ w) as [[|t] w']; [done|].
  destruct (json_match t) as [g|]; [|done]. simpl.
  by destruct (json_loads g) as [[]|].
Qed.

Lemma classify_eq business_data w log :
  classify business_data (w, log)
  = let '(response, w') := ollama_chat (QualificationPrompt business_data) w in
    (match response with
     | ChatReply t =>
         match decoded t with
         | Some (PyDict analysis) => truthy (is_qualified analysis)
         | _ => false
         end
     | ChatError => false
     end, (w', log ++ [EvChat])).
Proof.
  unfold classify, bind. rewrite is_small_independent_business_eq.
  destruct (ollama_chat _ w) as [[|t] w']; [done|].
  by destruct (decoded t) as [[]|].
Qed.


(** C10: a decoded object that lacks one of the three verdict keys is
    never accepted: the missing [is_small_independent] or
    [is_service_based] counts as [False], the missing
    [is_chain_or_franchise] as [True]; the value returned is [False]
    itself when the keys that are there hold booleans. *)
Theorem missing_verdict_key_rejects business_data w log w' t analysis :
  ollama_chat (QualificationPrompt business_data) w = (ChatReply t, w') →
  decoded t = Some (PyDict analysis) →
  analysis !! "is_small_independent" = None ∨
  analysis !! "is_service_based" = None ∨
  analysis !! "is_chain_or_franchise" = None →
  let verdict := (is_small_independent_business business_data (w, log)).1 in
  (classify business_data (w, log)).1 = false ∧
  truthy verdict = false ∧
  ((∀ k v, k ∈ ["is_small_independent"; "is_service_based"] →
           analysis !! k = Some v → ∃ b, v = PyBool b) →
   verdict = PyBool false).
Proof.
  intros Hchat Hdec Hmiss verdict. subst verdict.
  rewrite classify_eq, is_small_independent_business_eq, Hchat, Hdec.
  cbn [fst]. rewrite truthy_is_qualified.
  split_and!.
  - unfold dict_get.
    destruct Hmiss as [-> | [-> | ->]]; cbn [default truthy negb];
      by rewrite ?andb_false_r.
  - unfold dict_get.
    destruct Hmiss as [-> | [-> | ->]]; cbn [default truthy negb];
      by rewrite ?andb_false_r.
  - intros Hbool. unfold is_qualified, dict_get, py_and.
    destruct (analysis !! "is_small_independent") as [v1|] eqn:H1;
      cbn [default]; [|done].
    destruct (Hbool _ v1 ltac:(apply list_elem_of_here) H1) as [b1 ->].
    destruct b1; cbn [truthy]; [|done].
    destruct (analysis !! "is_service_based") as [v2|] eqn:H2;
      cbn [default]; [|done].
    destruct (Hbool _ v2 ltac:(apply list_elem_of_further, list_elem_of_here) H2)
      as [b2 ->].
    destruct b2; cbn [truthy]; [|done].
    destruct Hmiss as [? | [? | ->]]; [done..|]. done.
Qed.

End Classifier.

(** ** The extraction adapter *)

Lemma greedy_positive_nonempty p lo hi k prev s t :
  greedy p (S lo) hi k prev s = Some t → t ≠ [].
Proof.
  destruct s as [|c s]; cbn [greedy]; [done|].
  destruct (p c && may_take hi); [|done].
  destruct (greedy p _ _ k (Some c) s); [|done]. by intros [= <-].
Qed.

Lemma findall_from_matches r prev skip s t :
  t ∈ findall_from r prev skip s → ∃ prev' s', matches r prev' s' = Some t.
Proof.
  revert prev skip. induction s as [|c s IH]; intros prev skip; cbn [findall_from].
  { by intros ?%elem_of_nil. }
  destruct skip as [|n]; [|by apply IH].
  destruct (matches r prev (c :: s)) as [t'|] eqn:Hm; [|by apply IH].
  intros [->|Ht]%elem_of_cons; [eauto | by eapply IH].
Qed.

Lemma main_phone_nonempty html_content text v :
  main_phone (contact_signals html_content text) = Some v → v ≠ [].
Proof.
  cbn [contact_signals main_phone]. intros Hv%head_Some_elem_of.
  rewrite cleaned_phones_first_seen, elem_of_first_seen,
    elem_of_formatted_candidates in Hv.
  by destruct Hv as (phone & _ & _ & ->).
Qed.

Lemma main_address_nonempty html_content text v :
  main_address (contact_signals html_content text) = Some v → v ≠ [].
Proof.
  cbn [contact_signals main_address]. intros Hv%head_Some_elem_of.
  apply findall_from_matches in Hv as (prev & s & Hm).
  by apply greedy_positive_nonempty in Hm.
Qed.

Section Adapter.
Context {E : Env}.

Lemma extract_business_info_eq html_content url w log :
  extract_business_info html_content url (w, log)
  = let sig := contact_signals html_content (soup_get_text html_content) in
    let '(response, w') := ollama_chat (ExtractionPrompt url sig) w in
    (match response with
     | ChatReply t =>
         match decoded t with
         | Some (PyDict model) => merge url sig model
         | _ => signal_only url sig
         end
     | ChatError => signal_only url sig
     end, (w', log ++ [EvChat])).
Proof.
  unfold extract_business_info, bind, chat, decoded. cbv zeta.
  destruct (ollama_chat _ w) as [[|t] w']; [done|].
  destruct (json_match t) as [g|]; [|done]. simpl.
  by destruct (json_loads g) as [[]|].
Qed.

Lemma lookup_fill k available v d k' :
  fill k available v d !! k'
  = if decide (k = k')
    then if negb (truthy (get d k)) && available then Some v else d !! k
    else d !! k'.
Proof.
  unfold fill. destruct (negb (truthy (get d k)) && available);
    case_decide; simplify_map_eq; done.
Qed.

Lemma get_fill_other k available v d k' :
  k ≠ k' → get (fill k available v d) k' = get d k'.
Proof. intros. unfold get, dict_get. by rewrite lookup_fill, decide_False. Qed.

Lemma merge_source_url url sig model :
  merge url sig model !! "source_url" = Some (PyStr url).
Proof.
  unfold merge. rewrite !lookup_fill. repeat (rewrite decide_False by done).
  apply lookup_insert_eq.
Qed.

Lemma signal_only_source_url url sig :
  signal_only url sig !! "source_url" = Some (PyStr url).
Proof. unfold signal_only. by simplify_map_eq. Qed.

Lemma get_insert_other k v d k' :
  k ≠ k' → get (<[k := v]> d) k' = get d k'.
Proof. intros. unfold get, dict_get. by rewrite lookup_insert_ne. Qed.

Ltac merge_lookup :=
  unfold merge;
  repeat first
    [ rewrite lookup_fill
    | rewrite get_fill_other by done
    | rewrite get_insert_other by done
    | rewrite lookup_insert_ne by done
    | rewrite decide_False by done
    | rewrite decide_True by done ].

(** What the merge leaves in a contact field. *)
Lemma merge_contact_field url sig model k signal :
  (k, signal) ∈ contact_fields sig →
  ∃ available,
    merge url sig model !! k
    = (if negb (truthy (get model k)) && available
       then Some (opt_val signal) else model !! k) ∧
    (signal = None → available = false) ∧
    (∀ v, signal = Some v → v ≠ [] → available = true) ∧
    (∀ v, signal = Some v → k = "business_email" ∨ k = "owner_email" →
          available = true).
Proof.
  unfold contact_fields. rewrite !elem_of_cons, elem_of_nil.
  intros [H|[H|[H|[H|[]]]]]; simplify_eq.
  - exists (nonempty (business_emails sig)).
    split_and!; [by merge_lookup | by destruct (business_emails sig)..].
  - exists (nonempty (owner_emails sig)).
    split_and!; [by merge_lookup | by destruct (owner_emails sig)..].
  - exists (truthy_opt (main_phone sig)). split_and!.
    + by merge_lookup.
    + by intros ->.
    + intros v -> Hv. unfold truthy_opt. simpl.
      by rewrite bool_decide_eq_false_2.
    + intros v _ [?|?]; done.
  - exists (truthy_opt (main_address sig)). split_and!.
    + by merge_lookup.
    + by intros ->.
    + intros v -> Hv. unfold truthy_opt. simpl.
      by rewrite bool_decide_eq_false_2.
    + intros v _ [?|?]; done.
Qed.

Lemma signal_nonempty html_content k signal v :
  (k, signal) ∈ contact_fields
                  (contact_signals html_content (soup_get_text html_content)) →
  signal = Some v →
  v ≠ [] ∨ k = "business_email" ∨ k = "owner_email".
Proof.
  unfold contact_fields. rewrite !elem_of_cons, elem_of_nil.
  intros [H|[H|[H|[H|[]]]]] ->; simplify_eq; auto.
  - left. by eapply main_phone_nonempty.
  - left. by eapply main_address_nonempty.
Qed.

End Adapter.

Section AdapterClaims.
Context {E : Env}.

Lemma extract_not_decoded html_content url w log response w' :
  let sig := contact_signals html_content (soup_get_text html_content) in
  ollama_chat (ExtractionPrompt url sig) w = (response, w') →
  response = ChatError ∨
  (∃ t, response = ChatReply t ∧ ∀ model, decoded t ≠ Some (PyDict model)) →
  (extract_business_info html_content url (w, log)).1 = signal_only url sig.
Proof.
  intros sig Hchat Hfail.
  rewrite extract_business_info_eq. cbv zeta. fold sig.
  rewrite Hchat. cbn [fst].
  destruct Hfail as [->|(t & -> & Hno)]; [done|].
  destruct (decoded t) as [[]|]; try done. by destruct (Hno d).
Qed.

(** C2: the final record's [source_url] is the input URL whatever the
    model returned; and when a model record is decoded, each of
    [business_email], [owner_email], [phone] and [address] keeps the
    model's value when the model gave one, takes the signal (first
    business email, first owner email, primary phone, address) when the
    model gave none, and is left as it was when there is no signal
    either. *)
Theorem merge_precedence html_content url :
  let sig := contact_signals html_content (soup_get_text html_content) in
  (∀ w log,
     get (extract_business_info html_content url (w, log)).1 "source_url"
     = PyStr url) ∧
  (∀ w log t w' model,
     ollama_chat (ExtractionPrompt url sig) w = (ChatReply t, w') →
     decoded t = Some (PyDict model) →
     let final := (extract_business_info html_content url (w, log)).1 in
     ∀ k signal, (k, signal) ∈ contact_fields sig →
       (truthy (get model k) = true → get final k = get model k) ∧
       (truthy (get model k) = false →
        ∀ v, signal = Some v → get final k = PyStr v) ∧
       (truthy (get model k) = false → signal = None →
        final !! k = model !! k)).
Proof.
  intros sig. split.
  - intros w log. rewrite extract_business_info_eq. cbv zeta. fold sig.
    destruct (ollama_chat _ w) as [response w']. cbn [fst].
    unfold get, dict_get.
    destruct response as [|t]; [by rewrite signal_only_source_url|].
    destruct (decoded t) as [[]|];
      by rewrite ?signal_only_source_url, ?merge_source_url.
  - intros w log t w' model Hchat Hdec final k signal Hk. subst final.
    rewrite extract_business_info_eq. cbv zeta. fold sig.
    rewrite Hchat, Hdec. cbn [fst].
    destruct (merge_contact_field url sig model k signal Hk)
      as (available & Hm & Hnone & Hsome & Hmail).
    unfold get, dict_get in *. rewrite Hm. split_and!.
    + by intros ->.
    + intros -> v ->. cbn [negb andb].
      destruct (signal_nonempty html_content k (Some v) v Hk eq_refl)
        as [Hv|Hv].
      * by rewrite (Hsome v).
      * by rewrite (Hmail v).
    + intros _ Hs. by rewrite (Hnone Hs), andb_false_r.
Qed.

(** C7, as the source has it: the span handed to the decoder runs from
    the first [{] of the reply to its last [}]; commentary before it
    without a [{], and text after it without a [}], do not change the
    span; the adapter merges what is decoded from that span and the
    classifier judges it, and without a span, or when decoding it
    fails, the adapter returns the signal-only record and the classifier
    returns [False]. *)
Theorem json_span_decoded :
  (∀ t g,
     json_match t = Some g ↔
     ∃ pre body post,
       t = pre ++ open_brace :: body ++ close_brace :: post ∧
       (open_brace ∉ pre) ∧ (close_brace ∉ post) ∧
       g = open_brace :: body ++ [close_brace]) ∧
  (∀ pre t, open_brace ∉ pre → json_match (pre ++ t) = json_match t) ∧
  (∀ t tail g, close_brace ∉ tail → json_match t = Some g →
               json_match (t ++ tail) = Some g) ∧
  (∀ html_content url w log t w',
     let sig := contact_signals html_content (soup_get_text html_content) in
     ollama_chat (ExtractionPrompt url sig) w = (ChatReply t, w') →
     let final := (extract_business_info html_content url (w, log)).1 in
     (∀ g model, json_match t = Some g → json_loads g = Some (PyDict model) →
                 final = merge url sig model) ∧
     (json_match t = None → final = signal_only url sig) ∧
     (∀ g, json_match t = Some g → json_loads g = None →
           final = signal_only url sig)) ∧
  (∀ business_data w log t w',
     ollama_chat (QualificationPrompt business_data) w = (ChatReply t, w') →
     let verdict := (is_small_independent_business business_data (w, log)).1 in
     (∀ g analysis, json_match t = Some g →
                    json_loads g = Some (PyDict analysis) →
                    verdict = is_qualified analysis) ∧
     (json_match t = None → verdict = PyBool false) ∧
     (∀ g, json_match t = Some g → json_loads g = None →
           verdict = PyBool false)).
Proof.
  split_and!.
  - apply json_match_Some.
  - apply json_match_commentary_before.
  - apply json_match_text_after.
  - intros html_content url w log t w' sig Hchat final. subst final.
    rewrite extract_business_info_eq. cbv zeta. fold sig. rewrite Hchat.
    cbn [fst]. unfold decoded. split_and!.
    + intros g model -> Hl. simpl. by rewrite Hl.
    + by intros ->.
    + intros g -> Hl. simpl. by rewrite Hl.
  - intros business_data w log t w' Hchat verdict. subst verdict.
    rewrite is_small_independent_business_eq, Hchat.
    cbn [fst]. unfold decoded. split_and!.
    + intros g analysis -> Hl. simpl. by rewrite Hl.
    + by intros ->.
    + intros g -> Hl. simpl. by rewrite Hl.
Qed.

End AdapterClaims.

(** ** The orchestrator *)

Section Orchestrator.
Context {E : Env}.

Lemma no_page_cons c h : no_page (Some (c :: h)) = false.
Proof. done. Qed.

Lemma extract_source_url html_content url st :
  get (extract_business_info html_content url st).1 "source_url" = PyStr url.
Proof.
  destruct st as [w log]. rewrite extract_business_info_eq. cbv zeta.
  destruct (ollama_chat _ w) as [response w']. cbn [fst].
  unfold get, dict_get.
  destruct response as [|t]; [by rewrite signal_only_source_url|].
  destruct (decoded t) as [[]|];
    by rewrite ?signal_only_source_url, ?merge_source_url.
Qed.

(** One URL, by cases on what the world answers. *)
Lemma traverse_eq url st :
  traverse url st
  = let '(html, st1) := scrape_business_page url st in
    if no_page html then (Skipped, st1)
    else
      let '(record, st2) := extract_business_info (default [] html) url st1 in
      if negb (truthy (get record "business_name")) then (Skipped, st2)
      else
        let '(accept, st3) := classify record st2 in
        (if accept then Accepted record else Rejected record, st3).
Proof.
  unfold traverse, bind. cbn [step]. unfold bind, ret.
  destruct (scrape_business_page url st) as [[[|c h]|] st1]; try done.
  rewrite no_page_cons. cbn [step default from_option id]. unfold bind, ret.
  destruct (extract_business_info (c :: h) url st1) as [record st2].
  destruct (truthy (get record "business_name")); [|done].
  cbn [negb step]. unfold bind, ret.
  by destruct (classify record st2) as [[] st3].
Qed.

Lemma run_cons url rest st :
  run (url :: rest) st
  = let '(p, st1) := traverse url st in
    let '(_, st2) := pace p st1 in
    let '(ps, st3) := run rest st2 in
    (p :: ps, st3).
Proof. done. Qed.

Lemma scrape_loop_cons url rest acc st :
  scrape_loop (url :: rest) acc st
  = let '(html, st1) := scrape_business_page url st in
    if no_page html then scrape_loop rest acc st1
    else
      let '(business_data, st2) :=
        extract_business_info (default [] html) url st1 in
      if negb (truthy (get business_data "business_name"))
      then scrape_loop rest acc st2
      else
        let '(ok, st3) := is_small_independent_business business_data st2 in
        let '(_, st4) := sleep 3 st3 in
        scrape_loop rest
          (if truthy ok then acc ++ [business_data] else acc) st4.
Proof.
  cbn [scrape_loop]. unfold bind.
  destruct (scrape_business_page url st) as [html st1].
  destruct (no_page html); [done|].
  destruct (extract_business_info _ url st1) as [business_data st2].
  by destruct (negb _).
Qed.

Lemma scrape_loop_run urls acc st :
  scrape_loop urls acc st
  = (acc ++ omap accepted_record (run urls st).1, (run urls st).2).
Proof.
  revert acc st. induction urls as [|url rest IH]; intros acc st.
  { cbn. by rewrite app_nil_r. }
  rewrite scrape_loop_cons, run_cons, traverse_eq.
  destruct (scrape_business_page url st) as [html st1].
  destruct (no_page html).
  { cbn [pace classified ret]. rewrite IH. by destruct (run rest st1). }
  destruct (extract_business_info (default [] html) url st1) as [record st2].
  destruct (truthy (get record "business_name")); cbn [negb].
  2:{ cbn [pace classified ret]. rewrite IH. by destruct (run rest st2). }
  unfold classify, bind, ret.
  destruct (is_small_independent_business record st2) as [ok st3].
  destruct (truthy ok); cbn [pace classified];
    destruct (sleep 3 st3) as [[] st4]; rewrite IH;
    destruct (run rest st4) as [ps st5]; cbn [fst snd omap accepted_record];
    [|done].
  by rewrite <- app_assoc.
Qed.

Lemma traverse_terminal url st : terminal (traverse url st).1.
Proof.
  rewrite traverse_eq.
  destruct (scrape_business_page url st) as [html st1].
  destruct (no_page html); [done|].
  destruct (extract_business_info _ url st1) as [record st2].
  destruct (negb _); [done|].
  by destruct (classify record st2) as [[] st3].
Qed.

Lemma traverse_accepted url st r :
  (traverse url st).1 = Accepted r ↔
  ∃ html st1 st2 st3,
    scrape_business_page url st = (Some html, st1) ∧ html ≠ [] ∧
    extract_business_info html url st1 = (r, st2) ∧
    truthy (get r "business_name") = true ∧
    classify r st2 = (true, st3).
Proof.
  rewrite traverse_eq. split.
  - destruct (scrape_business_page url st) as [[[|c h]|] st1]; try done.
    rewrite no_page_cons. cbn [default from_option id].
    destruct (extract_business_info (c :: h) url st1) as [record st2] eqn:He.
    destruct (truthy (get record "business_name")) eqn:Hn; [|done].
    cbn [negb]. destruct (classify record st2) as [[] st3] eqn:Hc; [|done].
    cbn [fst]. intros [= <-]. by exists (c :: h), st1, st2, st3.
  - intros (html & st1 & st2 & st3 & -> & Hh & He & Hn & Hc).
    destruct html as [|c h]; [done|].
    rewrite no_page_cons. cbn [default from_option id].
    by rewrite He, Hn, Hc.
Qed.

Lemma run_names urls st r :
  r ∈ omap accepted_record (run urls st).1 →
  truthy (get r "business_name") = true.
Proof.
  revert st. induction urls as [|url rest IH]; intros st.
  { cbn. by intros ?%elem_of_nil. }
  rewrite run_cons.
  destruct (traverse url st) as [p st1] eqn:Ht.
  destruct (pace p st1) as [[] st2].
  specialize (IH st2). destruct (run rest st2) as [ps st3].
  cbn [fst omap] in *.
  destruct p; cbn [accepted_record]; try done.
  intros [->|Hr]%elem_of_cons; [|by apply IH].
  assert (Ha : (traverse url st).1 = Accepted record) by by rewrite Ht.
  by apply traverse_accepted in Ha as (?&?&?&?&?&?&?&?&?).
Qed.

(** C9: the output is the records of the URLs that ended [Accepted], in
    order; a URL ends [Accepted] exactly when its fetch gave a page, the
    record extracted from it has a [business_name] and [classify]
    accepted it; a record without a name is never in the output and a
    failed fetch gives none; and of three URLs, the first failing to
    fetch, the second extracted without a name and the third named and
    accepted, the output is the one record of the third. *)
Theorem orchestrator_output :
  (∀ urls st,
     (scrape_businesses urls st).1 = omap accepted_record (run urls st).1) ∧
  (∀ url st r,
     (traverse url st).1 = Accepted r ↔
     ∃ html st1 st2 st3,
       scrape_business_page url st = (Some html, st1) ∧ html ≠ [] ∧
       extract_business_info html url st1 = (r, st2) ∧
       truthy (get r "business_name") = true ∧
       classify r st2 = (true, st3)) ∧
  (∀ urls st r,
     r ∈ (scrape_businesses urls st).1 →
     truthy (get r "business_name") = true) ∧
  (∀ url st st1,
     scrape_business_page url st = (None, st1) →
     traverse url st = (Skipped, st1) ∧ (scrape_businesses [url] st).1 = []) ∧
  (∀ u1 u2 u3 st st1 html2 st2 r2 st3 html3 st4 r3 st5 st6,
     scrape_business_page u1 st = (None, st1) →
     scrape_business_page u2 st1 = (Some html2, st2) → html2 ≠ [] →
     extract_business_info html2 u2 st2 = (r2, st3) →
     truthy (get r2 "business_name") = false →
     scrape_business_page u3 st3 = (Some html3, st4) → html3 ≠ [] →
     extract_business_info html3 u3 st4 = (r3, st5) →
     truthy (get r3 "business_name") = true →
     classify r3 st5 = (true, st6) →
     (scrape_businesses [u1; u2; u3] st).1 = [r3] ∧
     get r3 "source_url" = PyStr u3).
Proof.
  split_and!.
  - intros. unfold scrape_businesses. by rewrite scrape_loop_run.
  - apply traverse_accepted.
  - intros urls st r. unfold scrape_businesses. rewrite scrape_loop_run.
    apply run_names.
  - intros url st st1 Hf.
    assert (Ht : traverse url st = (Skipped, st1)).
    { rewrite traverse_eq. by rewrite Hf. }
    split; [done|]. unfold scrape_businesses. rewrite scrape_loop_run.
    by rewrite run_cons, Ht.
  - intros u1 u2 u3 st st1 html2 st2 r2 st3 html3 st4 r3 st5 st6
      Hf1 Hf2 Hh2 He2 Hn2 Hf3 Hh3 He3 Hn3 Hc3.
    split.
    + unfold scrape_businesses. rewrite scrape_loop_run.
      destruct html2 as [|c2 h2]; [done|].
      destruct html3 as [|c3 h3]; [done|].
      rewrite run_cons, traverse_eq, Hf1.
      change (no_page None) with true. cbn [pace classified ret].
      rewrite run_cons, traverse_eq, Hf2, no_page_cons.
      cbn [default from_option id]. rewrite He2, Hn2.
      cbn [negb pace classified ret].
      rewrite run_cons, traverse_eq, Hf3, no_page_cons.
      cbn [default from_option id]. rewrite He3, Hn3, Hc3.
      cbn [negb pace classified].
      by destruct (sleep 3 st6) as [[] st7].
    + pose proof (extract_source_url html3 u3 st4) as Hs.
      by rewrite He3 in Hs.
Qed.

End Orchestrator.

(** ** Pacing *)

Lemma pacing_events_app l1 l2 :
  pacing_events (l1 ++ l2) = pacing_events l1 ++ pacing_events l2.
Proof. apply filter_app. Qed.

Lemma delay_after_each_url_pacing fetched log :
  delay_after_each_url fetched (pacing_events log)
  = delay_after_each_url fetched log.
Proof.
  revert fetched. induction log as [|e log IH]; intros fetched; [done|].
  unfold pacing_events in *. rewrite filter_cons.
  destruct e; simpl; by rewrite ?IH.
Qed.

Lemma delay_after_each_url_events urls ps :
  length ps = length urls →
  delay_after_each_url false (concat (zip_with url_events urls ps))
  = forallb classified ps.
Proof.
  revert ps. induction urls as [|url urls IH]; intros [|p ps] Hlen;
    simplify_eq/=; [done|].
  destruct (classified p); cbn.
  - by apply IH.
  - destruct urls, ps; simplify_eq/=; done.
Qed.

Section Pacing.
Context {E : Env}.

Lemma traverse_log url w log0 :
  ∃ chats,
    (traverse url (w, log0)).2.2 = log0 ++ EvFetch url :: chats ∧
    pacing_events chats = [].
Proof.
  rewrite traverse_eq. unfold scrape_business_page, http_get.
  destruct (requests_get url w) as [html w1].
  destruct (no_page html).
  { by exists []. }
  rewrite extract_business_info_eq. cbv zeta.
  destruct (ollama_chat _ w1) as [response w2].
  match goal with |- context [get ?r "business_name"] =>
    destruct (negb (truthy (get r "business_name"))) end.
  { exists [EvChat]. by rewrite <- app_assoc. }
  rewrite classify_eq.
  match goal with |- context [ollama_chat ?p w2] =>
    destruct (ollama_chat p w2) as [response' w3] end.
  exists [EvChat; EvChat]. cbn [snd]. by rewrite <- !app_assoc.
Qed.

Lemma run_log urls w log0 :
  length (run urls (w, log0)).1 = length urls ∧
  Forall terminal (run urls (w, log0)).1 ∧
  ∃ new,
    (run urls (w, log0)).2.2 = log0 ++ new ∧
    pacing_events new = concat (zip_with url_events urls (run urls (w, log0)).1).
Proof.
  revert w log0. induction urls as [|url rest IH]; intros w log0.
  { cbn. split_and!; [done | constructor |]. exists []. by rewrite app_nil_r. }
  rewrite run_cons.
  destruct (traverse_log url w log0) as (chats & Hlog & Hchats).
  pose proof (traverse_terminal url (w, log0)) as Hterm.
  destruct (traverse url (w, log0)) as [p [w1 log1]]. cbn [fst snd] in *.
  subst log1.
  assert (Hpace : ∃ w2, pace p (w1, log0 ++ EvFetch url :: chats)
            = (tt, (w2, log0 ++ EvFetch url :: chats
                          ++ (if classified p then [EvSleep 3] else [])))).
  { unfold pace, sleep, ret. destruct (classified p).
    - eexists. by rewrite <- app_assoc.
    - eexists. by rewrite app_nil_r. }
  destruct Hpace as [w2 ->].
  destruct (IH w2 (log0 ++ EvFetch url :: chats
                     ++ (if classified p then [EvSleep 3] else [])))
    as (Hlen & Hall & new & Hnew & Hpac).
  destruct (run rest _) as [ps [w3 log3]]. cbn [fst snd] in *.
  split_and!; [by cbn; rewrite Hlen | by constructor |].
  exists (EvFetch url :: chats
            ++ (if classified p then [EvSleep 3] else []) ++ new).
  split.
  - rewrite Hnew. rewrite <- !app_assoc. cbn [app]. by rewrite <- !app_assoc.
  - cbn [zip_with concat]. rewrite <- Hpac.
    change (EvFetch url :: ?l) with ([EvFetch url] ++ l).
    rewrite !pacing_events_app, Hchats. unfold url_events.
    by destruct (classified p).
Qed.

(** C8, as the source has it: in the log of a run the delay of three
    seconds follows exactly the URLs that were classified ([Accepted] or
    [Rejected]), before the next URL is fetched; after a [Skipped] URL the
    next fetch comes without a delay, so the log has a delay after every
    URL only when no URL was skipped. *)
Theorem pacing_delay urls w log0 :
  let ps := (run urls (w, log0)).1 in
  let log := (scrape_businesses urls (w, log0)).2.2 in
  length ps = length urls ∧
  Forall terminal ps ∧
  ∃ new,
    log = log0 ++ new ∧
    pacing_events new = concat (zip_with url_events urls ps) ∧
    delay_after_each_url false new = forallb classified ps.
Proof.
  intros ps log. subst ps log. unfold scrape_businesses.
  rewrite scrape_loop_run. cbn [snd].
  destruct (run_log urls w log0) as (Hlen & Hall & new & Hnew & Hpac).
  split_and!; [done..|]. exists new. split_and!; [done..|].
  by rewrite <- delay_after_each_url_pacing, Hpac,
    delay_after_each_url_events.
Qed.

End Pacing.

(** ** The pipeline on concrete worlds *)


Lemma missing_verdict_key_witness :
  let reply := jq "{'is_small_independent': true, 'is_service_based': true}" in
  (classify (E := scripted) ∅ (replying [ChatReply reply], [])).1 = false ∧
  (is_small_independent_business (E := scripted) ∅
     (replying [ChatReply reply], [])).1 = PyBool false.
Proof.
  intros reply.
  destruct (missing_verdict_key_rejects (E := scripted) ∅
              (replying [ChatReply reply]) [] (replying []) reply
              (<["is_service_based" := PyBool true]>
                 (<["is_small_independent" := PyBool true]> ∅)))
    as (Hc & _ & Hv).
  - done.
  - by vm_compute.
  - right. right. by vm_compute.
  - split; [done|]. apply Hv. intros k v Hk Hl.
    apply elem_of_cons in Hk as [->|Hk];
      [|apply list_elem_of_singleton in Hk as ->];
      vm_compute in Hl; injection Hl as <-; eauto.
Defined.

Lemma merge_precedence_witness :
  let reply := jq "{'business_name': 'Acme', 'phone': '555-0000', 'address': null}" in
  let final :=
    (extract_business_info (E := scripted) page_three url_three
       (replying [ChatReply reply], [])).1 in
  get final "phone" = PyStr (txt "555-0000") ∧
  get final "business_email" = PyStr (txt "info@acme.com") ∧
  final !! "address" = Some PyNone ∧
  get final "source_url" = PyStr url_three.
Proof.
  intros reply final.
  pose proof (proj2 (merge_precedence (E := scripted) page_three url_three)
                (replying [ChatReply reply]) [] reply (replying [])
                (<["address" := PyNone]>
                   (<["phone" := PyStr (txt "555-0000")]>
                      (<["business_name" := PyStr (txt "Acme")]> ∅)))
                eq_refl) as H.
  cbv zeta in H. specialize (H ltac:(by vm_compute)).
  split_and!.
  - apply (proj1 (H "phone" (Some (txt "(555) 123-4567"))
                    ltac:(apply (bool_decide_unpack _); by vm_compute))).
    by vm_compute.
  - apply (proj1 (proj2 (H "business_email" (Some (txt "info@acme.com"))
                    ltac:(apply (bool_decide_unpack _); by vm_compute))));
      by vm_compute.
  - etrans;
      [apply (proj2 (proj2 (H "address" None
                ltac:(apply (bool_decide_unpack _); by vm_compute))))|];
      by vm_compute.
  - apply (proj1 (merge_precedence (E := scripted) page_three url_three)).
Defined.

Lemma json_span_decoded_witness :
  let reply := jq "Here it is: {'business_name': 'Acme Plumbing', 'phone': null} Done." in
  let span := jq "{'business_name': 'Acme Plumbing', 'phone': null}" in
  json_match reply = Some span ∧
  (extract_business_info (E := scripted) page_two url_two
     (replying [ChatReply reply], [])).1
  = merge url_two (contact_signals page_two page_two)
      (<["phone" := PyNone]>
         (<["business_name" := PyStr (txt "Acme Plumbing")]> ∅)) ∧
  (is_small_independent_business (E := scripted) ∅
     (replying [ChatReply (txt "It is a {chain")], [])).1 = PyBool false.
Proof.
  intros reply span. split_and!.
  - apply (proj1 (json_span_decoded (E := scripted))).
    exists (txt "Here it is: "),
      (jq "'business_name': 'Acme Plumbing', 'phone': null"), (txt " Done.").
    split_and!.
    + by vm_compute.
    + apply (bool_decide_eq_false_1 _). by vm_compute.
    + apply (bool_decide_eq_false_1 _). by vm_compute.
    + by vm_compute.
  - apply (proj1 (proj1 (proj2 (proj2 (proj2 (json_span_decoded (E := scripted)))))
             page_two url_two (replying [ChatReply reply]) [] reply (replying [])
             eq_refl) span); by vm_compute.
  - apply (proj1 (proj2 (proj2 (proj2 (proj2 (proj2
             (json_span_decoded (E := scripted)))))
             ∅ (replying [ChatReply (txt "It is a {chain")]) []
             (txt "It is a {chain") (replying []) eq_refl))).
    by vm_compute.
Defined.

(** C7 as worded fails: in [{"business_name": "Acme"} (see {notes})] the
    first balanced object is [{"business_name": "Acme"}], which decodes to
    a record with a name; the span the source decodes runs on to the last
    [}], is not JSON, and the adapter returns the signal-only record. *)
Lemma first_balanced_object_not_decoded :
  let reply := jq "{'business_name': 'Acme'} (see {notes})" in
  spec_first_balanced_object reply = Some (jq "{'business_name': 'Acme'}") ∧
  MiniJson.loads (jq "{'business_name': 'Acme'}")
  = Some (PyDict (<["business_name" := PyStr (txt "Acme")]> ∅)) ∧
  json_match reply = Some (jq "{'business_name': 'Acme'} (see {notes}") ∧
  MiniJson.loads (jq "{'business_name': 'Acme'} (see {notes}") = None ∧
  (let final :=
     (extract_business_info (E := scripted) page_two url_two
        (replying [ChatReply reply], [])).1 in
   final = signal_only url_two (contact_signals page_two page_two) ∧
   final !! "business_name" = None) ∧
  ¬ (∀ t, json_match t = spec_first_balanced_object t).
Proof.
  intros reply. split_and!; [by vm_compute.. | |].
  - cbv zeta. split; [|vm_compute; reflexivity].
    apply (extract_not_decoded (E := scripted) page_two url_two
             (replying [ChatReply reply]) [] (ChatReply reply) (replying [])
             eq_refl).
    right. exists reply. split; [done|]. intros model. by vm_compute.
  - intros H. specialize (H reply). revert H.
    apply (bool_decide_eq_false_1 _). by vm_compute.
Qed.

(** C8 as worded fails: of the three URLs, the first is skipped when its
    fetch fails and the second when its record has no name, and the next
    URL is fetched without a delay; the only delay of the run follows the
    third URL. *)
Lemma no_delay_after_skipped_url :
  let log :=
    (scrape_businesses (E := scripted) [url_one; url_two; url_three]
       (demo_world, [])).2.2 in
  log = [EvFetch url_one; EvFetch url_two; EvChat; EvFetch url_three;
         EvChat; EvChat; EvSleep 3] ∧
  delay_after_each_url false log = false ∧
  ¬ (∀ (E : Env) urls w,
       delay_after_each_url false (scrape_businesses urls (w, [])).2.2 = true).
Proof.
  intros log. split_and!; [by vm_compute.. |].
  intros H.
  specialize (H scripted [url_one; url_two; url_three] demo_world).
  by vm_compute in H.
Qed.

Lemma pair_from_fst {A B} (p : A * B) (a : A) : p.1 = a → p = (a, p.2).
Proof. intros <-. by destruct p. Qed.

Lemma orchestrator_output_witness :
  ∃ r3,
    (scrape_businesses (E := scripted) [url_one; url_two; url_three]
       (demo_world, [])).1 = [r3] ∧
    get r3 "source_url" = PyStr url_three.
Proof.
  pose (st := (demo_world, @nil event)).
  pose (st1 := (scrape_business_page (E := scripted) url_one st).2).
  pose (st2 := (scrape_business_page (E := scripted) url_two st1).2).
  pose (e2 := extract_business_info (E := scripted) page_two url_two st2).
  pose (st4 := (scrape_business_page (E := scripted) url_three e2.2).2).
  pose (e3 := extract_business_info (E := scripted) page_three url_three st4).
  pose (st6 := (classify (E := scripted) e3.1 e3.2).2).
  exists e3.1.
  apply (proj2 (proj2 (proj2 (proj2 (orchestrator_output (E := scripted)))))
           url_one url_two url_three st st1 page_two st2 e2.1 e2.2
           page_three st4 e3.1 e3.2 st6).
  - apply pair_from_fst. by vm_compute.
  - apply pair_from_fst. by vm_compute.
  - done.
  - apply surjective_pairing.
  - by vm_compute.
  - apply pair_from_fst. by vm_compute.
  - done.
  - apply surjective_pairing.
  - by vm_compute.
  - apply pair_from_fst. by vm_compute.
Defined.

(** * Further properties *)

(** ** What the matcher returns *)

Lemma greedy_sound (Q : str → Prop) p lo hi (k : cont) prev s t :
  (∀ prev' s' t', k prev' s' = Some t' → t' `prefix_of` s' ∧ Q t') →
  greedy p lo hi k prev s = Some t →
  t `prefix_of` s ∧
  ∃ piece t',
    t = piece ++ t' ∧ Forall (fun c => p c = true) piece ∧
    lo ≤ length piece ∧ (∀ n, hi = Some n → length piece ≤ n) ∧ Q t'.
Proof.
  intros Hk. revert lo hi prev t.
  assert (Hstop : ∀ lo prev s t,
            match lo with 0 => k prev s | S _ => None end = Some t →
            ∀ hi : option nat,
            t `prefix_of` s ∧
            ∃ piece t',
              t = piece ++ t' ∧ Forall (fun c => p c = true) piece ∧
              lo ≤ length piece ∧ (∀ n, hi = Some n → length piece ≤ n) ∧ Q t').
  { intros [|lo] prev' s' t' H hi; [|done].
    destruct (Hk _ _ _ H) as [Hp HQ]. split; [done|].
    exists [], t'. split_and!; [done | constructor | done | | done].
    intros; simpl; lia. }
  induction s as [|c s IH]; intros lo hi prev t; cbn [greedy].
  { intros H. by apply (Hstop lo prev []). }
  destruct (p c && may_take hi) eqn:Hc; [|intros H; by apply (Hstop lo prev)].
  destruct (greedy p (pred lo) (pred <$> hi) k (Some c) s) as [t0|] eqn:Hg;
    [|intros H; by apply (Hstop lo prev)].
  intros [= <-]. apply andb_true_iff in Hc as [Hpc Hhi].
  destruct (IH _ _ _ _ Hg) as (Hpre & piece & t' & -> & Hall & Hlo & Hbound & HQ).
  split; [by apply prefix_cons|].
  exists (c :: piece), t'. split_and!; [done | by constructor | simpl; lia | | done].
  intros n ->. destruct n as [|n]; [done|]. simpl. specialize (Hbound n eq_refl). lia.
Qed.

Lemma literal_sound l prev s prev' s' :
  literal l prev s = Some (prev', s') → s = l ++ s'.
Proof.
  revert prev s. induction l as [|a l IH]; intros prev s; cbn [literal].
  { by intros [= _ ->]. }
  destruct s as [|c s]; [done|]. case_bool_decide as Hc; [|done].
  intros H%IH. by subst.
Qed.

Lemma alternatives_sound (Q : str → Prop) alts (k : cont) prev s t :
  (∀ prev' s' t', k prev' s' = Some t' → t' `prefix_of` s' ∧ Q t') →
  alternatives alts k prev s = Some t →
  t `prefix_of` s ∧ ∃ l t', l ∈ alts ∧ t = l ++ t' ∧ Q t'.
Proof.
  intros Hk. induction alts as [|l alts IH]; cbn [alternatives]; [done|].
  assert (Hnext : alternatives alts k prev s = Some t →
            t `prefix_of` s ∧ ∃ l0 t', l0 ∈ l :: alts ∧ t = l0 ++ t' ∧ Q t').
  { intros (Hp & l0 & t' & Hin & -> & HQ)%IH. split; [done|].
    exists l0, t'. split_and!; [by apply list_elem_of_further | done..]. }
  destruct (literal l prev s) as [[prev' s']|] eqn:Hl; [|done].
  destruct (k prev' s') as [t'|] eqn:Hkt; [|done].
  intros [= <-]. apply literal_sound in Hl as ->.
  destruct (Hk _ _ _ Hkt) as [Hp HQ]. split; [by apply prefix_app|].
  exists l, t'. split_and!; [apply list_elem_of_here | done..].
Qed.

Lemma matches_sound r prev s t :
  matches r prev s = Some t → t `prefix_of` s ∧ conforms r t.
Proof.
  revert prev s t. induction r as [|a r IH]; intros prev s t.
  { intros [= <-]. split; [apply prefix_nil | done]. }
  destruct a as [p|p lo hi|alts|]; cbn [matches conforms].
  - destruct s as [|c s]; [done|]. destruct (p c) eqn:Hc; [|done].
    destruct (matches r (Some c) s) as [t'|] eqn:Hm; [|done].
    intros [= <-]. destruct (IH _ _ _ Hm) as [Hp Hconf].
    split; [by apply prefix_cons|]. by exists c, t'.
  - intros H. by apply (greedy_sound (conforms r)) in H.
  - intros H. by apply (alternatives_sound (conforms r)) in H.
  - destruct (boundary prev s); [|done]. apply IH.
Qed.

Lemma findall_from_sound r prev skip s t :
  t ∈ findall_from r prev skip s → occurs_in t s ∧ conforms r t.
Proof.
  revert prev skip. induction s as [|c s IH]; intros prev skip; cbn [findall_from].
  { by intros ?%elem_of_nil. }
  assert (Hrec : ∀ prev' skip', t ∈ findall_from r prev' skip' s →
                   occurs_in t (c :: s) ∧ conforms r t).
  { intros prev' skip' [(before & after & ->) Hc]%IH. split; [|done].
    by exists (c :: before), after. }
  destruct skip as [|n]; [|by apply Hrec].
  destruct (matches r prev (c :: s)) as [t'|] eqn:Hm; [|by apply Hrec].
  intros [->|Ht]%elem_of_cons; [|by eapply Hrec].
  apply matches_sound in Hm as [[after Hafter] Hconf]. split; [|done].
  exists [], after. by rewrite Hafter.
Qed.

Lemma findall_sound r s t :
  t ∈ findall r s → occurs_in t s ∧ conforms r t.
Proof. apply findall_from_sound. Qed.

(** ** Where the signals come from *)

Lemma occurs_in_drop n t s : occurs_in t s → occurs_in (drop n t) s.
Proof.
  intros (before & after & ->). exists (before ++ take n t), after.
  rewrite <- (app_assoc before), (app_assoc (take n t)).
  by rewrite take_drop.
Qed.

Lemma email_char_no_space c :
  local_char c || is_char "@" c = true → is_space c = false.
Proof. by destruct c as [[] [] [] [] [] [] [] []]. Qed.

Lemma alnum_local c : is_alnum c = true → local_char c || is_char "@" c = true.
Proof. by destruct c as [[] [] [] [] [] [] [] []]. Qed.
Lemma domain_local c : domain_char c = true → local_char c || is_char "@" c = true.
Proof. by destruct c as [[] [] [] [] [] [] [] []]. Qed.
Lemma alpha_local c : is_alpha c = true → local_char c || is_char "@" c = true.
Proof. by destruct c as [[] [] [] [] [] [] [] []]. Qed.
Lemma local_local c : local_char c = true → local_char c || is_char "@" c = true.
Proof. by intros ->. Qed.
Lemma at_local c : is_char "@" c = true → local_char c || is_char "@" c = true.
Proof. intros ->. apply orb_true_r. Qed.
Lemma dot_local c : is_char "." c = true → local_char c || is_char "@" c = true.
Proof. by destruct c as [[] [] [] [] [] [] [] []]. Qed.

Lemma is_space_lower c : is_space (lower_char c) = is_space c.
Proof. by destruct c as [[] [] [] [] [] [] [] []]. Qed.

Ltac email_chars :=
  repeat first
    [ apply Forall_nil_2
    | apply Forall_cons; split;
      [eauto using alnum_local, at_local, dot_local |]
    | apply Forall_app; split;
      [eapply Forall_impl; [eassumption |];
       eauto using local_local, domain_local, alpha_local |] ].

Lemma email_pattern_chars t :
  conforms email_pattern t →
  Forall (fun c => local_char c || is_char "@" c = true) t.
Proof.
  unfold email_pattern, chr. intros H.
  cbn [conforms] in H.
  destruct H as (c0 & t0 & -> & Hc0 & piece1 & t1 & -> & Hp1 & _ & _ &
                 c2 & t2 & -> & Hc2 & c3 & t3 & -> & Hc3 &
                 piece4 & t4 & -> & Hp4 & _ & _ & c5 & t5 & -> & Hc5 &
                 piece6 & t6 & -> & Hp6 & _ & _ & ->).
  email_chars.
Qed.

Lemma mailto_pattern_chars t :
  conforms mailto_pattern t →
  Forall (fun c => local_char c || is_char "@" c = true) (mailto_group t).
Proof.
  unfold mailto_pattern, chr, chr_i, mailto_group. intros H.
  cbn [conforms] in H.
  destruct H as (c0 & t0 & -> & _ & c1 & t1 & -> & _ & c2 & t2 & -> & _ &
                 c3 & t3 & -> & _ & c4 & t4 & -> & _ & c5 & t5 & -> & _ &
                 c6 & t6 & -> & _ &
                 piece1 & t7 & -> & Hp1 & _ & _ & c8 & t8 & -> & Hc8 &
                 piece9 & t9 & -> & Hp9 & _ & _ & c10 & t10 & -> & Hc10 &
                 piece11 & t11 & -> & Hp11 & _ & _ & ->).
  cbn [drop]. email_chars.
Qed.

Lemma lstrip_no_space s :
  Forall (fun c => is_space c = false) s → lstrip s = s.
Proof. destruct 1 as [|c s Hc _]; [done|]. simpl. by rewrite Hc. Qed.

Lemma strip_no_space s :
  Forall (fun c => is_space c = false) s → strip s = s.
Proof.
  intros H. unfold strip, rstrip. rewrite (lstrip_no_space s H).
  rewrite lstrip_no_space by by apply Forall_reverse.
  apply reverse_involutive.
Qed.

Lemma candidates_occur html_content text cand :
  cand ∈ all_emails html_content text →
  (occurs_in cand html_content ∨ occurs_in cand text) ∧
  Forall (fun c => local_char c || is_char "@" c = true) cand.
Proof.
  unfold all_emails. rewrite elem_of_app, list_elem_of_fmap.
  intros [(t & -> & [Ho Hc]%findall_sound) | [Ho Hc]%findall_sound].
  - split; [left; by apply occurs_in_drop | by apply mailto_pattern_chars].
  - split; [by right | by apply email_pattern_chars].
Qed.

(** X1: on a page whose markup and rendered text are ASCII texts the
    extractor makes up no address: every validated email is the
    lower-case form of a text that occurs in the markup (after a
    [mailto:]) or in the rendered text of the page. *)
Theorem validated_emails_occur html_content text e :
  ascii_text html_content → ascii_text text →
  e ∈ unique_emails (contact_signals html_content text) →
  ∃ cand, e = lower cand ∧
          (occurs_in cand html_content ∨ occurs_in cand text).
Proof.
  intros _ _.
  cbn [contact_signals unique_emails]. rewrite elem_of_unique_of.
  unfold valid_emails. rewrite valid_emails_loop_filter. simpl.
  rewrite list_elem_of_filter, list_elem_of_fmap.
  intros [_ (cand & -> & [Ho Hc]%candidates_occur)].
  exists cand. split; [|done]. apply strip_no_space.
  unfold lower. apply Forall_fmap. eapply Forall_impl; [exact Hc|].
  intros c Hcc. simpl. rewrite is_space_lower. by apply email_char_no_space.
Qed.

Lemma validated_emails_occur_witness :
  ∃ cand, txt "contact@example.com" = lower cand ∧
          (occurs_in cand (txt "<a href=mailto:x>") ∨
           occurs_in cand (txt "Write to Contact@Example.COM today")).
Proof.
  apply (validated_emails_occur (txt "<a href=mailto:x>")
           (txt "Write to Contact@Example.COM today")).
  - apply (bool_decide_unpack _). by vm_compute.
  - apply (bool_decide_unpack _). by vm_compute.
  - apply (bool_decide_unpack _). by vm_compute.
Defined.

(** ** The merge *)

Section MergeFacts.
Context {E : Env}.

Ltac merge_lookup :=
  unfold merge;
  repeat first
    [ rewrite lookup_fill
    | rewrite get_fill_other by done
    | rewrite get_insert_other by done
    | rewrite lookup_insert_ne by done
    | rewrite decide_False by done
    | rewrite decide_True by done ].

Lemma merge_fill_lookup url sig model k available v :
  (k, available, v) ∈ merge_fills sig →
  merge url sig model !! k
  = if negb (truthy (get model k)) && available then Some v else model !! k.
Proof.
  unfold merge_fills. rewrite !elem_of_cons, elem_of_nil.
  intros [H|[H|[H|[H|[]]]]]; simplify_eq; by merge_lookup.
Qed.

Lemma merge_other_lookup url sig model k :
  k ∉ record_keys → merge url sig model !! k = model !! k.
Proof.
  unfold record_keys. rewrite !not_elem_of_cons. intros (?&?&?&?&?&_).
  by merge_lookup.
Qed.

Lemma record_key_cases sig k :
  k = "source_url" ∨ (∃ available v, (k, available, v) ∈ merge_fills sig) ∨
  k ∉ record_keys.
Proof.
  destruct (decide (k ∈ record_keys)) as [Hk|Hk]; [|by right; right].
  unfold record_keys, merge_fills in *.
  rewrite !elem_of_cons, elem_of_nil in Hk.
  destruct Hk as [->|[->|[->|[->|[->|[]]]]]]; [by left|right; left..];
    eexists _, _; rewrite !elem_of_cons; eauto 6.
Qed.

Lemma merge_idempotent url sig model :
  merge url sig (merge url sig model) = merge url sig model.
Proof.
  apply map_eq. intros k.
  destruct (record_key_cases sig k) as [->|[(available & v & Hk)|Hk]].
  - by rewrite !merge_source_url.
  - rewrite (merge_fill_lookup _ _ (merge url sig model) _ _ _ Hk).
    unfold get, dict_get.
    rewrite (merge_fill_lookup _ _ model _ _ _ Hk).
    fold (dict_get model k PyNone). fold (get model k).
    destruct (negb (truthy (get model k)) && available) eqn:Hc; cbn [default].
    + clear Hc. by destruct (negb (truthy (id v)) && available).
    + unfold get, dict_get in Hc. by rewrite Hc.
  - by rewrite !merge_other_lookup.
Qed.

(** X4: the merge touches five keys only: every other field the model
    returned is in the final record with the model's value, no key of the
    model is lost, no key beyond the five is added, and merging twice is
    merging once. *)
Theorem merge_keeps_model_fields html_content url w log t w' model :
  let sig := contact_signals html_content (soup_get_text html_content) in
  ollama_chat (ExtractionPrompt url sig) w = (ChatReply t, w') →
  decoded t = Some (PyDict model) →
  let final := (extract_business_info html_content url (w, log)).1 in
  (∀ k, k ∉ record_keys → final !! k = model !! k) ∧
  (∀ k, is_Some (model !! k) → is_Some (final !! k)) ∧
  (∀ k, is_Some (final !! k) → is_Some (model !! k) ∨ k ∈ record_keys) ∧
  merge url sig final = final.
Proof.
  intros sig Hchat Hdec final.
  assert (Hfinal : final = merge url sig model).
  { subst final. rewrite extract_business_info_eq. cbv zeta. fold sig.
    by rewrite Hchat, Hdec. }
  rewrite Hfinal. split_and!.
  - intros k. apply merge_other_lookup.
  - intros k Hk.
    destruct (record_key_cases sig k) as [->|[(available & v & Hf)|Hf]].
    + by rewrite merge_source_url.
    + rewrite (merge_fill_lookup _ _ _ _ _ _ Hf). by destruct (_ && _).
    + by rewrite merge_other_lookup.
  - intros k Hk.
    destruct (decide (k ∈ record_keys)) as [Hin|Hin]; [by right|left].
    by rewrite merge_other_lookup in Hk.
  - apply merge_idempotent.
Qed.

Lemma signal_only_get_merge url sig k :
  (∀ v, main_phone sig = Some v → v ≠ []) →
  (∀ v, main_address sig = Some v → v ≠ []) →
  get (signal_only url sig) k = get (merge url sig ∅) k.
Proof.
  intros Hphone Haddress. unfold get, dict_get.
  destruct (record_key_cases sig k) as [->|[(available & v & Hf)|Hf]].
  - by rewrite merge_source_url, signal_only_source_url.
  - rewrite (merge_fill_lookup _ _ _ _ _ _ Hf).
    unfold get, dict_get. rewrite lookup_empty. cbn [default truthy negb andb].
    unfold merge_fills in Hf. rewrite !elem_of_cons, elem_of_nil in Hf.
    destruct Hf as [H|[H|[H|[H|[]]]]]; simplify_eq; unfold signal_only;
      simplify_map_eq.
    + by destruct (business_emails sig).
    + by destruct (owner_emails sig).
    + destruct (main_phone sig) as [v|] eqn:Hv; [|done].
      specialize (Hphone v eq_refl). unfold truthy_opt. simpl.
      by rewrite bool_decide_eq_false_2.
    + destruct (main_address sig) as [v|] eqn:Hv; [|done].
      specialize (Haddress v eq_refl). unfold truthy_opt. simpl.
      by rewrite bool_decide_eq_false_2.
  - rewrite merge_other_lookup, lookup_empty by done.
    unfold record_keys in Hf. rewrite !not_elem_of_cons in Hf.
    destruct Hf as (?&?&?&?&?&_). unfold signal_only. by simplify_map_eq.
Qed.

(** X5: a reply that decodes to an object without fields and a failed
    model call give records that read the same at every key: the two paths
    fill the contact fields from the signals in the same way. *)
Theorem empty_reply_reads_as_degraded
    html_content url w1 log1 response w1' w2 log2 t w2' k :
  let sig := contact_signals html_content (soup_get_text html_content) in
  ollama_chat (ExtractionPrompt url sig) w1 = (response, w1') →
  response = ChatError ∨
  (∃ t', response = ChatReply t' ∧ ∀ model, decoded t' ≠ Some (PyDict model)) →
  ollama_chat (ExtractionPrompt url sig) w2 = (ChatReply t, w2') →
  decoded t = Some (PyDict ∅) →
  get (extract_business_info html_content url (w1, log1)).1 k
  = get (extract_business_info html_content url (w2, log2)).1 k.
Proof.
  intros sig Hchat1 Hfail Hchat2 Hdec.
  rewrite (extract_not_decoded _ _ _ _ _ _ Hchat1 Hfail).
  rewrite (extract_business_info_eq _ _ w2). cbv zeta. fold sig.
  rewrite Hchat2, Hdec. cbn [fst].
  apply signal_only_get_merge.
  - apply main_phone_nonempty.
  - apply main_address_nonempty.
Qed.

End MergeFacts.

(** ** Runs of the orchestrator *)

Section RunFacts.
Context {E : Env}.

Lemma run_sources urls st :
  ((fun r => get r "source_url") <$> omap accepted_record (run urls st).1)
    `sublist_of` (PyStr <$> urls).
Proof.
  revert st. induction urls as [|url rest IH]; intros st; [by constructor|].
  rewrite run_cons.
  destruct (traverse url st) as [p st1] eqn:Ht.
  destruct (pace p st1) as [[] st2].
  specialize (IH st2). destruct (run rest st2) as [ps st3].
  cbn [fst] in *. rewrite fmap_cons.
  destruct p;
    try (change (omap accepted_record (?q :: ps))
           with (omap accepted_record ps); by apply sublist_cons).
  assert (Ha : (traverse url st).1 = Accepted record) by by rewrite Ht.
  apply traverse_accepted in Ha as (html & sta & stb & stc & _ & _ & He & _).
  pose proof (extract_source_url html url sta) as Hs. rewrite He in Hs.
  cbn [fst] in Hs. change (omap accepted_record (Accepted record :: ps))
    with (record :: omap accepted_record ps).
  rewrite fmap_cons, Hs. by apply sublist_skip.
Qed.

(** X7: the records of the output keep the order of the input and come
    at most one from each URL: their [source_url] values form a
    subsequence of the input URLs, so the output is never longer than the
    input. *)
Theorem output_follows_input urls st :
  let output := (scrape_businesses urls st).1 in
  ((fun r => get r "source_url") <$> output) `sublist_of` (PyStr <$> urls) ∧
  length output ≤ length urls.
Proof.
  intros output. subst output. unfold scrape_businesses.
  rewrite scrape_loop_run. cbn [fst app].
  pose proof (run_sources urls st) as H. split; [done|].
  apply sublist_length in H. by rewrite !length_fmap in H.
Qed.

Lemma run_app urls1 urls2 st :
  run (urls1 ++ urls2) st
  = let '(ps1, st1) := run urls1 st in
    let '(ps2, st2) := run urls2 st1 in
    (ps1 ++ ps2, st2).
Proof.
  revert st. induction urls1 as [|url rest IH]; intros st.
  { cbn. by destruct (run urls2 st). }
  cbn [app]. rewrite !run_cons.
  destruct (traverse url st) as [p st1]. destruct (pace p st1) as [[] st2].
  rewrite IH. destruct (run rest st2) as [ps1 st3].
  by destruct (run urls2 st3).
Qed.

(** X8: a list of URLs can be run in two batches: running the second
    batch from the state the first one leaves gives the same records, in
    the same order, and the same final state and log as one run over the
    whole list. *)
Theorem scrape_businesses_in_batches urls1 urls2 st :
  scrape_businesses (urls1 ++ urls2) st
  = let '(first, st1) := scrape_businesses urls1 st in
    let '(second, st2) := scrape_businesses urls2 st1 in
    (first ++ second, st2).
Proof.
  unfold scrape_businesses. rewrite !scrape_loop_run, run_app.
  destruct (run urls1 st) as [ps1 st1]. cbn [fst snd app].
  destruct (run urls2 st1) as [ps2 st2]. cbn [fst snd app].
  by rewrite omap_app.
Qed.

End RunFacts.

(** ** Markup the parser rejects *)

Section RaisingFacts.
Context {PE : ParserEnv}.

Lemma extract_or_raise_eq html_content url st :
  extract_business_info_or_raise html_content url st
  = if soup_parses html_content
    then (Some (extract_business_info html_content url st).1,
          (extract_business_info html_content url st).2)
    else (None, st).
Proof.
  unfold extract_business_info_or_raise, bind, ret.
  destruct (soup_parses html_content); [|done].
  by destruct (extract_business_info html_content url st).
Qed.

Lemma signal_only_fields url sig :
  signal_only url sig !! "source_url" = Some (PyStr url) ∧
  (∀ k signal, (k, signal) ∈ contact_fields sig →
               signal_only url sig !! k = Some (opt_val signal)) ∧
  (∀ k, k ∉ record_keys → signal_only url sig !! k = None).
Proof.
  split_and!; [apply signal_only_source_url | |].
  - unfold contact_fields. intros k signal.
    rewrite !elem_of_cons, elem_of_nil.
    intros [H|[H|[H|[H|[]]]]]; simplify_eq; unfold signal_only;
      by simplify_map_eq.
  - intros k. unfold record_keys. rewrite !not_elem_of_cons.
    intros (?&?&?&?&?&_). unfold signal_only. by simplify_map_eq.
Qed.

(** C3, as the source has it: on markup that the parser accepts the
    adapter does not raise, whatever the model does: it returns a record
    with the [source_url]; and when the inference call fails or no JSON
    object is decoded from the reply, that record has [source_url] and
    the four contact fields taken from the signals ([None] where there is
    no signal) and no other field. *)
Theorem degraded_record_parsed html_content url :
  soup_parses html_content = true →
  let sig := contact_signals html_content (soup_get_text html_content) in
  (∀ st, ∃ record st',
     extract_business_info_or_raise html_content url st = (Some record, st') ∧
     record !! "source_url" = Some (PyStr url)) ∧
  (∀ w log response w',
     ollama_chat (ExtractionPrompt url sig) w = (response, w') →
     response = ChatError ∨
     (∃ t, response = ChatReply t ∧
           ∀ model, decoded t ≠ Some (PyDict model)) →
     ∃ st',
       extract_business_info_or_raise html_content url (w, log)
       = (Some (signal_only url sig), st') ∧
       signal_only url sig !! "source_url" = Some (PyStr url) ∧
       (∀ k signal, (k, signal) ∈ contact_fields sig →
                    signal_only url sig !! k = Some (opt_val signal)) ∧
       (∀ k, k ∉ record_keys → signal_only url sig !! k = None)).
Proof.
  intros Hparsed sig. split.
  - intros [w log]. rewrite extract_or_raise_eq, Hparsed.
    eexists _, _. split; [done|].
    rewrite extract_business_info_eq. cbv zeta. fold sig.
    destruct (ollama_chat _ w) as [response w']. cbn [fst].
    destruct response as [|t]; [by rewrite signal_only_source_url|].
    destruct (decoded t) as [[]|];
      by rewrite ?signal_only_source_url, ?merge_source_url.
  - intros w log response w' Hchat Hfail.
    rewrite extract_or_raise_eq, Hparsed.
    rewrite (extract_not_decoded _ _ _ _ response w' Hchat Hfail). fold sig.
    eexists. split; [done|]. apply signal_only_fields.
Qed.







End RaisingFacts.

(** ** Discovery *)

Section DiscoveryFacts.
Context {SE : SearchEnv}.

Lemma not_excluded_spec excluded domain :
  not_excluded excluded domain = true ↔
  ∀ ex, ex ∈ excluded → contains ex domain = false.
Proof.
  induction excluded as [|e excluded IH]; cbn [not_excluded].
  { split; [by intros _ ex ?%elem_of_nil | done]. }
  destruct (contains e domain) eqn:He.
  - split; [done|]. intros H. specialize (H e (list_elem_of_here _ _)). congruence.
  - rewrite IH. split.
    + intros H ex [->|Hex]%elem_of_cons; auto.
    + intros H ex Hex. by apply H, list_elem_of_further.
Qed.

Lemma contains_false needle hay :
  contains needle hay = false ↔ ¬ occurs_in needle hay.
Proof.
  unfold occurs_in. rewrite <- contains_spec. by destruct (contains needle hay).
Qed.

Lemma valid_url_spec url :
  _is_valid_business_url url = true ↔
  ∃ netloc,
    urlparse_netloc url = Some netloc ∧ dot ∈ lower netloc ∧
    ∀ ex, ex ∈ excluded_domains → ¬ occurs_in ex (lower netloc).
Proof.
  unfold _is_valid_business_url.
  destruct (urlparse_netloc url) as [netloc|]; [|split; [done | by intros (? & ? & _)]].
  destruct (not_excluded excluded_domains (lower netloc)) eqn:Hex; cbn [negb].
  - pose proof (proj1 (not_excluded_spec _ _) Hex) as Hex'. unfold has_char.
    case_bool_decide as Hdot; cbn [negb].
    + split; [|done]. intros _. exists netloc. split_and!; [done..|].
      intros ex Hin. by apply contains_false, Hex'.
    + split; [done|]. by intros (? & [= <-] & ? & _).
  - split; [done|]. intros (? & [= <-] & _ & H).
    assert (not_excluded excluded_domains (lower netloc) = true); [|congruence].
    apply not_excluded_spec. intros ex Hin. by apply contains_false, H.
Qed.

(** X9: a URL on which [urlparse] raises is not valid.  Otherwise the
    check reads the netloc of the URL, its user and port parts included,
    not the host alone: with an ASCII netloc the URL is valid exactly when
    the lower-case netloc has a dot and none of the excluded domains
    occurs in it.  So a netloc in which an excluded domain occurs in any
    letter case, as a subdomain, in the host or before the [@], is never
    valid, and neither is an empty netloc. *)
Theorem valid_url_netloc url :
  (urlparse_netloc url = None → _is_valid_business_url url = false) ∧
  (∀ netloc,
     urlparse_netloc url = Some netloc → ascii_text netloc →
     (_is_valid_business_url url = true ↔
      dot ∈ lower netloc ∧
      ∀ ex, ex ∈ excluded_domains → ¬ occurs_in ex (lower netloc)) ∧
     (∀ before part after,
        netloc = before ++ part ++ after →
        lower part ∈ excluded_domains →
        _is_valid_business_url url = false) ∧
     (netloc = [] → _is_valid_business_url url = false)).
Proof.
  split.
  { intros Hn. apply not_true_is_false.
    intros (netloc & Hn' & _)%valid_url_spec. congruence. }
  intros netloc Hn _.
  assert (Hiff : _is_valid_business_url url = true ↔
            dot ∈ lower netloc ∧
            ∀ ex, ex ∈ excluded_domains → ¬ occurs_in ex (lower netloc)).
  { rewrite valid_url_spec. split.
    - intros (netloc' & Hn' & H). rewrite Hn in Hn'. by injection Hn' as <-.
    - intros H. by exists netloc. }
  split_and!; [exact Hiff | |].
  - intros before part after -> Hex.
    apply not_true_is_false. intros [_ H]%Hiff.
    apply (H _ Hex). exists (lower before), (lower after).
    unfold lower. by rewrite !fmap_app.
  - intros ->. apply not_true_is_false. intros [Hdot _]%Hiff.
    by apply elem_of_nil in Hdot.
Qed.

End DiscoveryFacts.

Lemma valid_url_netloc_witness :
  _is_valid_business_url (SE := search_scripted)
    (txt "https://WWW.Yelp.com/biz/acme-plumbing") = false ∧
  _is_valid_business_url (SE := search_scripted)
    (txt "http://yelp.com@mybiz.example/") = false ∧
  _is_valid_business_url (SE := search_scripted)
    (txt "http://a.b@localhost/x") = true.
Proof.
  split_and!.
  - apply (proj1 (proj2 (proj2 (valid_url_netloc (SE := search_scripted)
             (txt "https://WWW.Yelp.com/biz/acme-plumbing"))
             (txt "WWW.Yelp.com") eq_refl
             ltac:(apply (bool_decide_unpack _); by vm_compute)))
             (txt "WWW.") (txt "Yelp.com") []).
    + vm_compute. reflexivity.
    + apply (bool_decide_unpack _). by vm_compute.
  - apply (proj1 (proj2 (proj2 (valid_url_netloc (SE := search_scripted)
             (txt "http://yelp.com@mybiz.example/"))
             (txt "yelp.com@mybiz.example") eq_refl
             ltac:(apply (bool_decide_unpack _); by vm_compute)))
             [] (txt "yelp.com") (txt "@mybiz.example")).
    + vm_compute. reflexivity.
    + apply (bool_decide_unpack _). by vm_compute.
  - apply (proj1 (proj2 (valid_url_netloc (SE := search_scripted)
             (txt "http://a.b@localhost/x"))
             (txt "a.b@localhost") eq_refl
             ltac:(apply (bool_decide_unpack _); by vm_compute))).
    split.
    + apply (bool_decide_unpack _). by vm_compute.
    + intros ex Hex. apply contains_false.
      revert ex Hex. apply Forall_forall.
      apply (bool_decide_unpack _). by vm_compute.
Defined.

(** ** The results of a search *)

Section SearchFacts.
Context {SE : SearchEnv}.

Lemma usable_url_valid v url :
  usable_url v = Some url →
  v = PyStr url ∧ url ≠ [] ∧ _is_valid_business_url url = true.
Proof.
  destruct v as [| | | |s| |]; cbn [usable_url]; try done.
  destruct (truthy (PyStr s) && _is_valid_business_url s) eqn:H; [|done].
  intros [= <-]. apply andb_true_iff in H as [Ht Hv]. split_and!; [done| |done].
  intros ->. by vm_compute in Ht.
Qed.

Lemma organic_loop_valid n items urls urls' :
  organic_loop n items urls = Some urls' →
  Forall (fun u => _is_valid_business_url u = true) urls →
  Forall (fun u => _is_valid_business_url u = true) urls'.
Proof.
  revert urls. induction items as [|item items IH]; intros urls; cbn [organic_loop].
  { by intros [= <-]. }
  destruct item as [| | | | | |item]; try done.
  destruct (usable_url (get item "url")) as [url|] eqn:Hu; [|apply IH].
  apply usable_url_valid in Hu as (_ & _ & Hv).
  assert (Hall : Forall (fun u => _is_valid_business_url u = true) urls →
                 Forall (fun u => _is_valid_business_url u = true) (urls ++ [url])).
  { intros H. apply Forall_app. split; [done|]. by repeat constructor. }
  destruct (n <=? length (urls ++ [url])).
  - intros [= <-]. exact Hall.
  - intros H Hurls. by apply (IH _ H), Hall.
Qed.

Lemma results_loop_valid n results urls urls' :
  results_loop n results urls = Some urls' →
  Forall (fun u => _is_valid_business_url u = true) urls →
  Forall (fun u => _is_valid_business_url u = true) urls'.
Proof.
  revert urls. induction results as [|result results IH]; intros urls;
    cbn [results_loop].
  { by intros [= <-]. }
  destruct (organic_of result) as [items|]; [|done]. cbn [mbind option_bind].
  destruct (organic_loop n items urls) as [urls1|] eqn:Ho; [|done].
  cbn [mbind option_bind]. intros H Hurls.
  pose proof (organic_loop_valid _ _ _ _ Ho Hurls) as H1.
  destruct (n <=? length urls1); [by injection H as <-|]. by apply (IH _ H).
Qed.

Lemma organic_urls_valid n data urls :
  organic_urls n data = Some urls →
  length urls ≤ n ∧ Forall (fun u => _is_valid_business_url u = true) urls.
Proof.
  destruct data as [| | | | | |data]; cbn [organic_urls]; try done.
  destruct (py_iter _) as [results|]; [|done]. cbn [mbind option_bind].
  destruct (results_loop n results []) as [urls1|] eqn:Hr; [|done].
  cbn [mbind option_bind]. intros [= <-]. split.
  - rewrite length_take. lia.
  - apply Forall_take. by apply (results_loop_valid _ _ _ _ Hr).
Qed.

Lemma search_eq query n w log :
  _search_google_oxylabs query n (w, log)
  = if bool_decide (oxylabs_username = txt "YOUR_OXYLABS_USERNAME")
    then ([], (w, log))
    else
      let '(response, w') := requests_post query w in
      (match response with
       | PostOk data => default [] (organic_urls n data)
       | PostUnauthorized | PostError => []
       end, (w', log ++ [SvPost query])).
Proof.
  unfold _search_google_oxylabs. case_bool_decide; [done|].
  unfold dbind, post, dret. destruct (requests_post query w) as [[| |data] w'];
    done.
Qed.

(** X10: a search never returns more than [num_results] URLs and every
    URL it returns passes [_is_valid_business_url]; it returns no URL when
    the service answers 401, when the request or the decoding of its body
    raises, and when the body is not of the expected shape; and it sends
    one request, or none when the user name is still the placeholder. *)
Theorem search_results_valid query n w log :
  let '(urls, (w', log')) := _search_google_oxylabs query n (w, log) in
  length urls ≤ n ∧
  Forall (fun u => _is_valid_business_url u = true) urls ∧
  (oxylabs_username = txt "YOUR_OXYLABS_USERNAME" →
   urls = [] ∧ w' = w ∧ log' = log) ∧
  (oxylabs_username ≠ txt "YOUR_OXYLABS_USERNAME" →
   log' = log ++ [SvPost query] ∧
   ∀ response, (requests_post query w).1 = response →
     (response = PostError ∨ response = PostUnauthorized → urls = []) ∧
     (∀ data, response = PostOk data → organic_urls n data = None → urls = [])).
Proof.
  rewrite search_eq. case_bool_decide as Hname.
  { split_and!; [simpl; lia | constructor | done | done]. }
  destruct (requests_post query w) as [response w'] eqn:Hpost.
  assert (Hres : length (match response with
                         | PostOk data => default [] (organic_urls n data)
                         | _ => []
                         end) ≤ n ∧
                 Forall (fun u => _is_valid_business_url u = true)
                        (match response with
                         | PostOk data => default [] (organic_urls n data)
                         | _ => []
                         end)).
  { destruct response as [| |data]; try (split; [simpl; lia | constructor]).
    destruct (organic_urls n data) as [urls|] eqn:Hd;
      [by apply (organic_urls_valid n data) | split; [simpl; lia | constructor]]. }
  destruct Hres as [Hlen Hvalid]. split_and!; [done | done | done |].
  intros _. split; [done|]. cbn [fst]. intros ? <-. split.
  - by intros [->| ->].
  - intros data -> Hnone. by rewrite Hnone.
Qed.

(** The items of a well-formed page, in order, made into URLs. *)
Lemma organic_loop_dicts n items urls :
  Forall (fun item => is_dict item = true) items →
  ∃ urls',
    organic_loop n items urls = Some urls' ∧
    take n urls' = take n (urls ++ omap item_url items) ∧
    (n ≤ length urls' ∨ urls' = urls ++ omap item_url items).
Proof.
  intros Hitems. revert urls.
  induction Hitems as [|item items Hd _ IH]; intros urls.
  { exists urls. cbn. rewrite app_nil_r. auto. }
  destruct item as [| | | | | |item]; try done.
  cbn [organic_loop omap list_omap item_url].
  destruct (usable_url (get item "url")) as [url|] eqn:Hu.
  - destruct (n <=? length (urls ++ [url])) eqn:Hn.
    + apply Nat.leb_le in Hn. exists (urls ++ [url]).
      split_and!; [done | | by left].
      change (url :: omap item_url items) with ([url] ++ omap item_url items).
      rewrite (assoc_L (++) urls). symmetry. by apply take_app_le.
    + destruct (IH (urls ++ [url])) as (urls' & -> & Ht & Hor).
      exists urls'. rewrite <- app_assoc in Ht, Hor. by split_and!.
  - apply IH.
Qed.

Lemma take_eq_extend {A} n (l1 l2 k : list A) :
  take n l1 = take n l2 → n ≤ length l1 → take n l1 = take n (l2 ++ k).
Proof.
  intros Ht Hn. rewrite take_app_le; [done|].
  apply (f_equal length) in Ht. rewrite !length_take in Ht. lia.
Qed.

Lemma results_loop_pages n results pages urls :
  Forall2 (fun result items =>
             organic_of result = Some items ∧
             Forall (fun item => is_dict item = true) items) results pages →
  ∃ urls',
    results_loop n results urls = Some urls' ∧
    take n urls' = take n (urls ++ omap item_url (concat pages)) ∧
    (n ≤ length urls' ∨ urls' = urls ++ omap item_url (concat pages)).
Proof.
  intros Hpages. revert urls.
  induction Hpages as [|result items results pages [Ho Hd] _ IH]; intros urls.
  { exists urls. cbn. rewrite app_nil_r. auto. }
  cbn [results_loop concat]. rewrite Ho. cbn [mbind option_bind].
  destruct (organic_loop_dicts n items urls Hd) as (urls1 & -> & Ht & Hor).
  cbn [mbind option_bind]. rewrite omap_app, app_assoc.
  destruct (n <=? length urls1) eqn:Hn.
  - apply Nat.leb_le in Hn. exists urls1. split_and!; [done | | by left].
    by apply take_eq_extend.
  - apply Nat.leb_gt in Hn. destruct Hor as [? | ->]; [lia|]. apply IH.
Qed.

(** X11: on a body of the expected shape the two loops and their
    [break]s return the first [num_results] usable URLs of the organic
    items, in the order of the pages and of the items on each page. *)
Theorem search_takes_first_valid n data results pages :
  data !! "results" = Some (PyList results) →
  Forall2 (fun result items =>
             organic_of result = Some items ∧
             Forall (fun item => is_dict item = true) items) results pages →
  organic_urls n (PyDict data)
  = Some (take n (omap item_url (concat pages))).
Proof.
  intros Hdata Hpages. cbn [organic_urls]. unfold dict_get. rewrite Hdata.
  destruct (results_loop_pages n results pages [] Hpages) as (urls' & Hr & Ht & _).
  simpl. rewrite Hr. simpl. by rewrite Ht.
Qed.

End SearchFacts.

(** ** The search by zip code *)

Section FetchFacts.
Context {SE : SearchEnv}.

Lemma add_urls_collected max urls all_urls :
  collected max all_urls → collected max (add_urls max urls all_urls).
Proof.
  revert all_urls. induction urls as [|url urls IH]; intros all_urls Hc; [done|].
  cbn [add_urls]. unfold full.
  destruct (max <=? Z.of_nat (size all_urls))%Z eqn:Hfull; [done|].
  apply Z.leb_gt in Hfull.
  destruct (_is_valid_business_url url) eqn:Hv; [|by apply IH].
  apply IH. destruct Hc as [Hvalid Hsize]. split.
  - intros u [->%elem_of_singleton|Hu]%elem_of_union; auto.
  - assert (size ({[url]} ∪ all_urls) ≤ S (size all_urls)); [|lia].
    rewrite size_union_alt, size_singleton.
    assert (Hsub : all_urls ∖ {[url]} ⊆ all_urls) by by apply subseteq_difference_l.
    apply subseteq_size in Hsub. lia.
Qed.

Lemma add_urls_size max urls all_urls :
  size all_urls ≤ size (add_urls max urls all_urls).
Proof.
  revert all_urls. induction urls as [|url urls IH]; intros all_urls; [done|].
  cbn [add_urls]. destruct (full all_urls max); [done|].
  destruct (_is_valid_business_url url); [|apply IH].
  etrans; [|apply IH]. apply subseteq_size. set_solver.
Qed.

Lemma search_loop_cons zipcode max service_type rest all_urls st :
  search_loop zipcode max (service_type :: rest) all_urls st
  = if full all_urls max then (all_urls, st)
    else
      let '(urls, st1) :=
        _search_google_oxylabs (query_of zipcode service_type) 10 st in
      let '(_, st2) := search_sleep 2 st1 in
      search_loop zipcode max rest (add_urls max urls all_urls) st2.
Proof.
  cbn [search_loop]. destruct (full all_urls max); [done|].
  unfold dbind. by destruct (_search_google_oxylabs _ 10 st).
Qed.

Lemma search_step_log zipcode service_type w log :
  ∃ urls w',
    (let '(urls, st1) :=
       _search_google_oxylabs (query_of zipcode service_type) 10 (w, log) in
     let '(_, st2) := search_sleep 2 st1 in (urls, st2))
    = (urls, (w', log ++ search_events zipcode service_type)).
Proof.
  rewrite search_eq. unfold search_events, search_sleep.
  case_bool_decide; [by eexists _, _|].
  destruct (requests_post _ w) as [response w']. eexists _, _.
  by rewrite <- app_assoc.
Qed.

Lemma search_loop_spec zipcode max types all_urls w log :
  collected max all_urls →
  ∃ searched,
    let '(found, (_, log')) := search_loop zipcode max types all_urls (w, log) in
    collected max found ∧
    size all_urls ≤ size found ∧
    searched `prefix_of` types ∧
    log' = log ++ concat (search_events zipcode <$> searched) ∧
    ((Z.of_nat (size found) < max)%Z → searched = types) ∧
    ((max <= Z.of_nat (size all_urls))%Z → searched = []).
Proof.
  revert all_urls w log. induction types as [|service_type rest IH];
    intros all_urls w log Hc.
  { exists []. cbn. rewrite app_nil_r. by split_and!. }
  rewrite search_loop_cons. unfold full.
  destruct (max <=? Z.of_nat (size all_urls))%Z eqn:Hfull.
  { apply Z.leb_le in Hfull. exists []. cbn. rewrite app_nil_r.
    split_and!; [done | done | apply prefix_nil | done | lia | done]. }
  apply Z.leb_gt in Hfull.
  destruct (search_step_log zipcode service_type w log) as (urls & w' & Hstep).
  destruct (_search_google_oxylabs _ 10 (w, log)) as [urls0 st1].
  destruct (search_sleep 2 st1) as [[] st2]. injection Hstep as -> ->.
  destruct (IH (add_urls max urls all_urls) w'
              (log ++ search_events zipcode service_type)
              (add_urls_collected _ _ _ Hc)) as [searched Hs].
  exists (service_type :: searched).
  destruct (search_loop zipcode max rest _ _) as [found [w2 log2]].
  destruct Hs as (Hcf & Hsize & Hpre & -> & Hall & _).
  pose proof (add_urls_size max urls all_urls).
  split_and!; [done | lia | by apply prefix_cons | | | lia].
  - rewrite fmap_cons. cbn [concat]. by rewrite <- app_assoc.
  - intros Hlt. by rewrite Hall.
Qed.

Lemma fetch_eq zipcode max st :
  fetch_business_urls_by_zipcode zipcode max st
  = let '(found, st') := search_loop zipcode max service_types ∅ st in
    (elements found, st').
Proof. unfold fetch_business_urls_by_zipcode, dbind, dret. done. Qed.

Lemma collected_empty max : collected max ∅.
Proof. split; [by intros u ?%elem_of_empty | rewrite size_empty; lia]. Qed.

Lemma fetch_spec zipcode max w log :
  ∃ searched,
    let '(urls, (_, log')) :=
      fetch_business_urls_by_zipcode zipcode max (w, log) in
    NoDup urls ∧
    Forall (fun u => _is_valid_business_url u = true) urls ∧
    (Z.of_nat (length urls) ≤ Z.max 0 max)%Z ∧
    searched `prefix_of` service_types ∧
    log' = log ++ concat (search_events zipcode <$> searched) ∧
    ((Z.of_nat (length urls) < max)%Z → searched = service_types) ∧
    ((max <= 0)%Z → searched = [] ∧ urls = []).
Proof.
  rewrite fetch_eq.
  destruct (search_loop_spec zipcode max service_types ∅ w log
              (collected_empty max)) as [searched Hs].
  exists searched.
  destruct (search_loop zipcode max service_types ∅ (w, log))
    as [found [w' log']].
  destruct Hs as ([Hvalid Hsize] & _ & Hpre & -> & Hall & Hnone).
  assert (Hlen : length (elements found) = size found) by done.
  split_and!; [apply NoDup_elements | | lia | done | done | by rewrite Hlen |].
  - apply Forall_forall. intros u Hu. apply Hvalid. by apply elem_of_elements.
  - intros Hmax. rewrite size_empty in Hnone. split; [apply Hnone; lia|].
    assert (size found = 0) as ->%size_empty_inv%leibniz_equiv by lia.
    apply elements_empty.
Qed.

(** X12: the URLs the search by zip code returns are distinct, each
    passes [_is_valid_business_url], and there are at most
    [max_businesses] of them (none when [max_businesses] is not
    positive). *)
Theorem fetched_urls_bounded zipcode max_businesses w log :
  let urls := (fetch_business_urls_by_zipcode zipcode max_businesses (w, log)).1 in
  NoDup urls ∧
  Forall (fun u => _is_valid_business_url u = true) urls ∧
  (Z.of_nat (length urls) ≤ Z.max 0 max_businesses)%Z.
Proof.
  intros urls. subst urls.
  destruct (fetch_spec zipcode max_businesses w log) as [searched H].
  destruct (fetch_business_urls_by_zipcode _ _ _) as [urls [w' log']].
  by destruct H as (? & ? & ? & _).
Qed.

(** X13: the search goes through the service types in their order, one
    query [type near zipcode] each, with the delay of two seconds after
    every search; it stops before the end of the list only when the cap is
    reached, and makes no search at all when [max_businesses] is not
    positive. *)
Theorem searches_in_order zipcode max_businesses w log :
  ∃ searched,
    let '(urls, (_, log')) :=
      fetch_business_urls_by_zipcode zipcode max_businesses (w, log) in
    searched `prefix_of` service_types ∧
    log' = log ++ concat (search_events zipcode <$> searched) ∧
    ((Z.of_nat (length urls) < max_businesses)%Z → searched = service_types) ∧
    ((max_businesses <= 0)%Z → searched = [] ∧ urls = []).
Proof.
  destruct (fetch_spec zipcode max_businesses w log) as [searched H].
  exists searched.
  destruct (fetch_business_urls_by_zipcode _ _ _) as [urls [w' log']].
  by destruct H as (_ & _ & _ & ? & ? & ? & ?).
Qed.

End FetchFacts.

(** ** The workflow of one zip code *)

Section WorkflowFacts.
Context {SE : SearchEnv}.

(** X15: what each end of [run_by_zipcode] means.  A zip code that
    fails the check ends the run with no request made and the world
    untouched; with no URL found no page is fetched; and the records that
    are saved are not empty, at most [max_businesses], each with a
    business name and with the [source_url] of a page that passed
    [_is_valid_business_url]. *)
Theorem run_by_zipcode_outcome zipcode max_businesses w :
  let '(result, (w', searches, log)) := run_by_zipcode zipcode max_businesses w in
  match result with
  | InvalidZip =>
      zip_ok zipcode = false ∧ w' = w ∧ searches = [] ∧ log = []
  | NoUrls => zip_ok zipcode = true ∧ log = []
  | NoneQualified => zip_ok zipcode = true
  | Saved qualified_businesses =>
      zip_ok zipcode = true ∧
      qualified_businesses ≠ [] ∧
      (Z.of_nat (length qualified_businesses) ≤ max_businesses)%Z ∧
      Forall (fun record =>
                truthy (get record "business_name") = true ∧
                ∃ url, get record "source_url" = PyStr url ∧
                       _is_valid_business_url url = true)
             qualified_businesses
  end.
Proof.
  unfold run_by_zipcode. destruct (zip_ok zipcode); cbn [negb]; [|done].
  destruct (fetch_spec zipcode max_businesses w []) as [searched Hf].
  destruct (fetch_business_urls_by_zipcode _ _ _) as [urls [w1 searches]].
  destruct Hf as (_ & Hvalid & Hlen & _).
  destruct urls as [|url urls]; [done|].
  pose proof (run_sources (url :: urls) (w1, [])) as Hsub.
  pose proof (run_names (url :: urls) (w1, [])) as Hnames.
  unfold scrape_businesses. rewrite scrape_loop_run. cbn [app].
  destruct (run (url :: urls) (w1, [])) as [ps [w2 log]]. cbn [fst snd] in *.
  destruct (omap accepted_record ps) as [|q qs] eqn:Hq; [done|].
  split_and!; [done | done | |].
  - apply sublist_length in Hsub. rewrite !length_fmap in Hsub.
    cbn [length] in *. lia.
  - apply Forall_forall. intros record Hr. split; [by apply Hnames|].
    assert (Hin : get record "source_url" ∈ PyStr <$> url :: urls).
    { eapply elem_of_sublist; [|apply Hsub].
      apply list_elem_of_fmap. by exists record. }
    apply list_elem_of_fmap in Hin as (u & Hu & Hin). exists u.
    split; [done|]. by eapply Forall_forall in Hvalid.
Qed.

End WorkflowFacts.

(** ** Text beyond ASCII *)

Lemma filter_all_elem {A} (P : A → Prop) `{!∀ x, Decision (P x)} (l : list A) :
  (∀ x, x ∈ l → P x) → filter P l = l.
Proof.
  induction l as [|x l IH]; intros HP; [done|].
  rewrite filter_cons_True by (apply HP, list_elem_of_here).
  rewrite IH; [done|]. intros y Hy. by apply HP, list_elem_of_further.
Qed.

Section UnicodeFacts.
Import Uni.
Context {U : Unicode}.

(** *** What the matcher returns *)

Lemma greedy_conforms (Q : str → Prop) p lo hi (k : cont) s t :
  (∀ s' t', k s' = Some t' → t' `prefix_of` s' ∧ Q t') →
  greedy p lo hi k s = Some t →
  t `prefix_of` s ∧
  ∃ piece t',
    t = piece ++ t' ∧ Forall (fun c => p c = true) piece ∧
    lo ≤ length piece ∧ (∀ n, hi = Some n → length piece ≤ n) ∧ Q t'.
Proof.
  intros Hk. revert lo hi t.
  assert (Hstop : ∀ lo s t,
            match lo with 0 => k s | S _ => None end = Some t →
            ∀ hi : option nat,
            t `prefix_of` s ∧
            ∃ piece t',
              t = piece ++ t' ∧ Forall (fun c => p c = true) piece ∧
              lo ≤ length piece ∧ (∀ n, hi = Some n → length piece ≤ n) ∧ Q t').
  { intros [|lo] s' t' H hi; [|done].
    destruct (Hk _ _ H) as [Hp HQ]. split; [done|].
    exists [], t'. split_and!; [done | constructor | done | | done].
    intros; simpl; lia. }
  induction s as [|c s IH]; intros lo hi t; cbn [greedy].
  { intros H. by apply (Hstop lo []). }
  destruct (p c && may_take hi) eqn:Hc; [|intros H; by apply (Hstop lo)].
  destruct (greedy p (pred lo) (pred <$> hi) k s) as [t0|] eqn:Hg;
    [|intros H; by apply (Hstop lo)].
  intros [= <-]. apply andb_true_iff in Hc as [Hpc Hhi].
  destruct (IH _ _ _ Hg) as (Hpre & piece & t' & -> & Hall & Hlo & Hbound & HQ).
  split; [by apply prefix_cons|].
  exists (c :: piece), t'.
  split_and!; [done | by constructor | simpl; lia | | done].
  intros n ->. destruct n as [|n]; [done|]. simpl.
  specialize (Hbound n eq_refl). lia.
Qed.

Lemma literal_consumed l s s' : literal l s = Some s' → s = l ++ s'.
Proof.
  revert s. induction l as [|a l IH]; intros s; cbn [literal].
  { by intros [= ->]. }
  destruct s as [|c s]; [done|]. case_bool_decide as Hc; [|done].
  intros H%IH. by subst.
Qed.

Lemma alternatives_conforms (Q : str → Prop) alts (k : cont) s t :
  (∀ s' t', k s' = Some t' → t' `prefix_of` s' ∧ Q t') →
  alternatives alts k s = Some t →
  t `prefix_of` s ∧ ∃ l t', l ∈ alts ∧ t = l ++ t' ∧ Q t'.
Proof.
  intros Hk. induction alts as [|l alts IH]; cbn [alternatives]; [done|].
  assert (Hnext : alternatives alts k s = Some t →
            t `prefix_of` s ∧ ∃ l0 t', l0 ∈ l :: alts ∧ t = l0 ++ t' ∧ Q t').
  { intros (Hp & l0 & t' & Hin & -> & HQ)%IH. split; [done|].
    exists l0, t'. split_and!; [by apply list_elem_of_further | done..]. }
  destruct (literal l s) as [s'|] eqn:Hl; [|done].
  destruct (k s') as [t'|] eqn:Hkt; [|done].
  intros [= <-]. apply literal_consumed in Hl as ->.
  destruct (Hk _ _ Hkt) as [Hp HQ]. split; [by apply prefix_app|].
  exists l, t'. split_and!; [apply list_elem_of_here | done..].
Qed.

Lemma matches_conforms r s t :
  matches r s = Some t → t `prefix_of` s ∧ conforms r t.
Proof.
  revert s t. induction r as [|a r IH]; intros s t.
  { intros [= <-]. split; [apply prefix_nil | done]. }
  destruct a as [p|p lo hi|alts]; cbn [matches conforms].
  - destruct s as [|c s]; [done|]. destruct (p c) eqn:Hc; [|done].
    destruct (matches r s) as [t'|] eqn:Hm; [|done].
    intros [= <-]. destruct (IH _ _ Hm) as [Hp Hconf].
    split; [by apply prefix_cons|]. by exists c, t'.
  - intros H. by apply (greedy_conforms (conforms r)) in H.
  - intros H. by apply (alternatives_conforms (conforms r)) in H.
Qed.

Lemma findall_from_conforms r skip s t :
  t ∈ findall_from r skip s → occurs_in t s ∧ conforms r t.
Proof.
  revert skip. induction s as [|c s IH]; intros skip; cbn [findall_from].
  { by intros ?%elem_of_nil. }
  assert (Hrec : ∀ skip', t ∈ findall_from r skip' s →
                   occurs_in t (c :: s) ∧ conforms r t).
  { intros skip' [(before & after & ->) Hc]%IH. split; [|done].
    by exists (c :: before), after. }
  destruct skip as [|n]; [|by apply Hrec].
  destruct (matches r (c :: s)) as [t'|] eqn:Hm; [|by apply Hrec].
  intros [->|Ht]%elem_of_cons; [|by eapply Hrec].
  apply matches_conforms in Hm as [[after Hafter] Hconf]. split; [|done].
  exists [], after. by rewrite Hafter.
Qed.

Lemma findall_conforms r s t :
  t ∈ findall r s → occurs_in t s ∧ conforms r t.
Proof. apply findall_from_conforms. Qed.

Lemma greedy_all p (d rest : str) :
  Forall (fun c => p c = true) d →
  greedy p (length d) (Some (length d)) (matches []) (d ++ rest) = Some d.
Proof.
  induction d as [|c d IH]; intros Hd.
  - destruct rest as [|c rest]; [done|].
    cbn [app length greedy may_take]. by rewrite andb_false_r.
  - apply Forall_cons in Hd as [Hc Hd].
    cbn [app length greedy may_take pred fmap option_fmap option_map].
    by rewrite Hc, IH.
Qed.

(** *** Phones *)

Lemma phones_loop_first_seen phones acc :
  cleaned_phones_loop phones acc
  = acc ++ filter (fun y => y ∉ acc) (first_seen (formatted_candidates phones)).
Proof.
  revert acc. induction phones as [|phone phones IH]; intros acc.
  { simpl. by rewrite app_nil_r. }
  cbn [cleaned_phones_loop]. unfold formatted_candidates.
  rewrite filter_cons.
  destruct (decide (length (digits_only phone) = 10)) as [Hlen|Hlen].
  - rewrite (proj2 (Nat.eqb_eq _ _) Hlen). rewrite fmap_cons.
    cbn [first_seen]. rewrite filter_cons.
    set (formatted := format_phone (digits_only phone)).
    fold (formatted_candidates phones).
    unfold mem. destruct (decide (formatted ∉ acc)) as [Hin|Hin].
    + rewrite bool_decide_eq_false_2 by done. cbn [negb].
      rewrite IH, <- app_assoc. cbn [app]. do 2 f_equal.
      rewrite list_filter_filter. apply list_filter_iff.
      intros y. rewrite elem_of_app, list_elem_of_singleton. tauto.
    + apply dec_stable in Hin. rewrite bool_decide_eq_true_2 by done.
      cbn [negb]. rewrite IH. f_equal.
      rewrite list_filter_filter. apply list_filter_iff.
      intros y. split; [|by intros [? ?]]. intros Hy. split; [done|]. by intros ->.
  - rewrite (proj2 (Nat.eqb_neq _ _) Hlen). apply IH.
Qed.

Lemma phones_first_seen html_content :
  cleaned_phones html_content
  = first_seen (formatted_candidates (phones html_content)).
Proof.
  unfold cleaned_phones. rewrite phones_loop_first_seen. simpl.
  apply filter_all. intros y. apply not_elem_of_nil.
Qed.

Lemma first_seen_elem (l : list str) x : x ∈ first_seen l ↔ x ∈ l.
Proof.
  induction l as [|y l IH]; [done|]. cbn [first_seen].
  rewrite !elem_of_cons, list_elem_of_filter, IH.
  destruct (decide (x = y)); tauto.
Qed.

Lemma first_seen_NoDup (l : list str) : NoDup (first_seen l).
Proof.
  induction l as [|y l IH]; cbn [first_seen]; constructor.
  - rewrite list_elem_of_filter. tauto.
  - by apply NoDup_filter.
Qed.

Lemma canonical_of_ten_digits d :
  length d = 10 → Forall (fun c => is_digit c = true) d →
  matches canonical_phone (format_phone d) = Some (format_phone d).
Proof.
  intros Hlen Hd.
  do 10 (destruct d as [|? d]; [done|]). destruct d; [|done].
  repeat match goal with
         | H : Forall _ (_ :: _) |- _ => apply Forall_cons in H as [? H]
         end.
  cbn -[is_digit].
  repeat match goal with H : is_digit _ = true |- _ => rewrite H; clear H end.
  cbn. done.
Qed.

Lemma formatted_candidates_elem phones p :
  p ∈ formatted_candidates phones ↔
  ∃ phone, phone ∈ phones ∧ length (digits_only phone) = 10 ∧
           p = format_phone (digits_only phone).
Proof.
  unfold formatted_candidates. rewrite list_elem_of_fmap.
  setoid_rewrite list_elem_of_filter. split.
  - intros (phone & -> & Hlen & Hin). eauto.
  - intros (phone & Hin & Hlen & ->). eauto.
Qed.

Lemma digits_only_are_digits phone :
  Forall (fun c => is_digit c = true) (digits_only phone).
Proof.
  unfold digits_only. apply Forall_forall. intros c Hc.
  apply list_elem_of_filter in Hc as [Hc _]. by apply Is_true_true.
Qed.

(** C5: every phone of the output matches [^\(\d{3}\) \d{3}-\d{4}$],
    with the digits that [\d] knows; the output holds the formatted text
    of exactly the matches that reduce to ten digits; it has no duplicates
    and lists each number where it is first seen; and
    [Call 555-123-4567 or (555) 987.6543] gives [(555) 123-4567] then
    [(555) 987-6543], a repeated number being listed once. *)
Theorem phones_canonical :
  (∀ html_content p,
     p ∈ cleaned_phones html_content → fullmatch canonical_phone p = true) ∧
  (∀ html_content p,
     p ∈ cleaned_phones html_content ↔
     ∃ phone, phone ∈ phones html_content ∧
              length (digits_only phone) = 10 ∧
              p = format_phone (digits_only phone)) ∧
  (∀ html_content, NoDup (cleaned_phones html_content)) ∧
  (∀ html_content,
     cleaned_phones html_content
     = first_seen (formatted_candidates (phones html_content))) ∧
  cleaned_phones (txt "Call 555-123-4567 or (555) 987.6543")
    = [txt "(555) 123-4567"; txt "(555) 987-6543"] ∧
  cleaned_phones (txt "Call 555-123-4567 or (555) 987.6543, (555) 123.4567")
    = [txt "(555) 123-4567"; txt "(555) 987-6543"].
Proof.
  assert (Hmem : ∀ html_content p,
     p ∈ cleaned_phones html_content ↔
     ∃ phone, phone ∈ phones html_content ∧
              length (digits_only phone) = 10 ∧
              p = format_phone (digits_only phone)).
  { intros. by rewrite phones_first_seen, first_seen_elem,
      formatted_candidates_elem. }
  split_and!; [| exact Hmem | | | vm_compute; reflexivity
               | vm_compute; reflexivity].
  - intros html_content p (phone & _ & Hlen & ->)%Hmem.
    unfold fullmatch. apply bool_decide_eq_true.
    apply canonical_of_ten_digits; [done | apply digits_only_are_digits].
  - intros. rewrite phones_first_seen. apply first_seen_NoDup.
  - apply phones_first_seen.
Qed.

(** *** The digits of a match *)

Lemma digits_only_app s1 s2 :
  digits_only (s1 ++ s2) = digits_only s1 ++ digits_only s2.
Proof. apply filter_app. Qed.

Lemma digits_only_all piece :
  Forall (fun c => is_digit c = true) piece → digits_only piece = piece.
Proof.
  intros H. unfold digits_only. apply filter_all_elem. intros c Hc.
  apply Is_true_true. by eapply Forall_forall in H.
Qed.

Lemma digits_only_none (p : N → bool) piece :
  (∀ c, p c = true → is_digit c = false) →
  Forall (fun c => p c = true) piece → digits_only piece = [].
Proof.
  intros Hp. induction 1 as [|c piece Hc _ IH]; [done|].
  unfold digits_only in *. rewrite filter_cons_False; [done|].
  rewrite (Hp c Hc). by intros [].
Qed.

Lemma digits_only_one (p : N → bool) c :
  (∀ c, p c = true → is_digit c = false) → p c = true → digits_only [c] = [].
Proof.
  intros Hp Hc. apply (digits_only_none p); [done|]. by repeat constructor.
Qed.

Lemma is_char_no_digit a c :
  is_digit (N_of_ascii a) = false → is_char a c = true → is_digit c = false.
Proof. by intros Ha ->%bool_decide_eq_true. Qed.

Lemma piece_length (piece : str) lo n :
  lo ≤ length piece → (∀ m, Some n = Some m → length piece ≤ m) → lo = n →
  length piece = n.
Proof. intros Hlo Hhi <-. specialize (Hhi lo eq_refl). lia. Qed.

Section Disjoint.
Hypothesis Hdisjoint : classes_disjoint U.

Lemma space_no_digit c : is_space c = true → is_digit c = false.
Proof using Hdisjoint.
  unfold is_space, is_digit, in_range.
  destruct (c <? 128)%N; [|apply Hdisjoint].
  rewrite !orb_true_iff, !andb_true_iff, !N.leb_le, N.eqb_eq.
  intros H. apply andb_false_iff. rewrite !N.leb_gt. lia.
Qed.

Lemma phone_sep_no_digit c : phone_sep c = true → is_digit c = false.
Proof using Hdisjoint.
  unfold phone_sep. rewrite !orb_true_iff.
  intros [[H|H]|H]; [by apply (is_char_no_digit "-") |
                     by apply (is_char_no_digit ".") |
                     by apply space_no_digit].
Qed.

Lemma phone_pattern_digits pattern t :
  pattern ∈ phone_patterns → conforms pattern t →
  length (digits_only t) = 10.
Proof using Hdisjoint.
  pose proof (is_char_no_digit "(" ) as Hopen.
  pose proof (is_char_no_digit ")" ) as Hclose.
  pose proof (is_char_no_digit "-" ) as Hdash.
  unfold phone_patterns, chr.
  rewrite !elem_of_cons, elem_of_nil. intros [->|[->|[->|[]]]] H;
    cbn [conforms] in H.
  - destruct H as (p0 & t0 & -> & H0 & _ & _ & p1 & t1 & -> & H1 & L1 & U1 &
                   p2 & t2 & -> & H2 & _ & _ & p3 & t3 & -> & H3 & _ & _ &
                   p4 & t4 & -> & H4 & L4 & U4 & p5 & t5 & -> & H5 & _ & _ &
                   p6 & t6 & -> & H6 & L6 & U6 & ->).
    rewrite !digits_only_app.
    rewrite (digits_only_none _ p0 (λ c, Hopen c eq_refl) H0),
      (digits_only_none _ p2 (λ c, Hclose c eq_refl) H2),
      (digits_only_none _ p3 phone_sep_no_digit H3),
      (digits_only_none _ p5 phone_sep_no_digit H5),
      (digits_only_all p1 H1), (digits_only_all p4 H4), (digits_only_all p6 H6).
    cbn [app digits_only filter list_filter]. rewrite !length_app.
    rewrite (piece_length p1 3 3 L1 U1 eq_refl),
      (piece_length p4 3 3 L4 U4 eq_refl),
      (piece_length p6 4 4 L6 U6 eq_refl). done.
  - destruct H as (p1 & t1 & -> & H1 & L1 & U1 & c2 & t2 & -> & H2 &
                   p3 & t3 & -> & H3 & L3 & U3 & c4 & t4 & -> & H4 &
                   p5 & t5 & -> & H5 & L5 & U5 & ->).
    rewrite !digits_only_app.
    change (c2 :: ?l) with ([c2] ++ l). change (c4 :: ?l) with ([c4] ++ l).
    rewrite !digits_only_app.
    rewrite (digits_only_one _ c2 phone_sep_no_digit H2),
      (digits_only_one _ c4 phone_sep_no_digit H4),
      (digits_only_all p1 H1), (digits_only_all p3 H3), (digits_only_all p5 H5).
    cbn [app digits_only filter list_filter]. rewrite !length_app.
    rewrite (piece_length p1 3 3 L1 U1 eq_refl),
      (piece_length p3 3 3 L3 U3 eq_refl),
      (piece_length p5 4 4 L5 U5 eq_refl). done.
  - destruct H as (c0 & t0 & -> & H0 & p1 & t1 & -> & H1 & L1 & U1 &
                   c2 & t2 & -> & H2 & p3 & t3 & -> & H3 & _ & _ &
                   p4 & t4 & -> & H4 & L4 & U4 & c5 & t5 & -> & H5 &
                   p6 & t6 & -> & H6 & L6 & U6 & ->).
    change (c0 :: ?l) with ([c0] ++ l). change (c2 :: ?l) with ([c2] ++ l).
    change (c5 :: ?l) with ([c5] ++ l).
    rewrite !digits_only_app.
    rewrite (digits_only_one _ c0 (λ c, Hopen c eq_refl) H0),
      (digits_only_one _ c2 (λ c, Hclose c eq_refl) H2),
      (digits_only_one _ c5 (λ c, Hdash c eq_refl) H5),
      (digits_only_none _ p3 space_no_digit H3),
      (digits_only_all p1 H1), (digits_only_all p4 H4), (digits_only_all p6 H6).
    cbn [app digits_only filter list_filter]. rewrite !length_app.
    rewrite (piece_length p1 3 3 L1 U1 eq_refl),
      (piece_length p4 3 3 L4 U4 eq_refl),
      (piece_length p6 4 4 L6 U6 eq_refl). done.
Qed.

Lemma phones_sound html_content phone :
  phone ∈ phones html_content →
  occurs_in phone html_content ∧ length (digits_only phone) = 10.
Proof using Hdisjoint.
  unfold phones. intros H. apply list_elem_of_In, in_concat in H.
  destruct H as (l & Hl & Hphone). apply list_elem_of_In in Hl, Hphone.
  apply list_elem_of_fmap in Hl as (pattern & -> & Hp).
  apply findall_conforms in Hphone as [Ho Hc]. split; [done|].
  by apply (phone_pattern_digits pattern).
Qed.

(** X2: every text the three phone patterns match occurs in the markup
    and has exactly ten digits, so the digit count check drops no match:
    the phone list is every match, formatted, where first seen, and each
    listed phone is the formatting of the digits of a text of the page. *)
Theorem phone_matches_all_kept :
  (∀ html_content phone,
     phone ∈ phones html_content →
     occurs_in phone html_content ∧ length (digits_only phone) = 10) ∧
  (∀ html_content,
     cleaned_phones html_content
     = first_seen ((fun phone => format_phone (digits_only phone))
                     <$> phones html_content)) ∧
  (∀ html_content p,
     p ∈ cleaned_phones html_content →
     ∃ phone, occurs_in phone html_content ∧
              p = format_phone (digits_only phone)).
Proof using Hdisjoint.
  assert (Hall : ∀ html_content,
     cleaned_phones html_content
     = first_seen ((fun phone => format_phone (digits_only phone))
                     <$> phones html_content)).
  { intros html_content. rewrite phones_first_seen.
    unfold formatted_candidates. rewrite filter_all_elem; [done|].
    intros phone Hp. by apply phones_sound in Hp as [_ ?]. }
  split_and!; [apply phones_sound | exact Hall |].
  intros html_content p. rewrite Hall, first_seen_elem, list_elem_of_fmap.
  intros (phone & -> & [Ho _]%phones_sound). eauto.
Qed.

End Disjoint.

(** *** The address *)

Lemma address_pattern_shape a :
  conforms address_pattern a →
  (∃ d rest, a = d :: rest ∧ is_digit d = true) ∧
  ∃ street, street ∈ street_types ∧
            (street `suffix_of` a ∨ (street ++ txt ".") `suffix_of` a).
Proof.
  unfold address_pattern. intros H. cbn [conforms] in H.
  destruct H as (p0 & t0 & -> & H0 & L0 & _ & p1 & t1 & -> & _ & _ & _ &
                 c2 & t2 & -> & _ & p3 & t3 & -> & _ & _ & _ &
                 street & t4 & Hs & -> & p5 & t5 & -> & H5 & _ & U5 & ->).
  split.
  - destruct H0 as [|d p0 Hd _]; [simpl in L0; lia|].
    by exists d, (p0 ++ p1 ++ c2 :: p3 ++ street ++ p5 ++ []).
  - exists street. split; [done|]. specialize (U5 1 eq_refl).
    rewrite app_nil_r.
    destruct H5 as [|c p5 Hc H5].
    + left. rewrite app_nil_r.
      do 2 apply suffix_app_r. apply suffix_cons_r. by apply suffix_app_r.
    + destruct p5; [|simpl in U5; lia]. right.
      apply bool_decide_eq_true in Hc. subst c.
      do 2 apply suffix_app_r. apply suffix_cons_r. by apply suffix_app_r.
Qed.

(** X3: the address signal, when there is one, is a text of the rendered
    page that starts with a decimal digit and ends with one of the street
    words of the pattern, or with that word and a period. *)
Theorem main_address_shape text a :
  main_address text = Some a →
  occurs_in a text ∧
  (∃ d rest, a = d :: rest ∧ is_digit d = true) ∧
  ∃ street, street ∈ street_types ∧
            (street `suffix_of` a ∨ (street ++ txt ".") `suffix_of` a).
Proof.
  unfold main_address. intros Ha%head_Some_elem_of.
  apply findall_conforms in Ha as [Ho Hc]. split; [done|].
  by apply address_pattern_shape.
Qed.

(** *** The zip code check *)

Lemma five_digits_match (d rest : str) :
  length d = 5 → Forall (fun c => is_digit c = true) d →
  matches [Rep is_digit 5 (Some 5)] (d ++ rest) = Some d.
Proof.
  intros Hlen Hd. cbn [matches]. rewrite <- Hlen. by apply greedy_all.
Qed.

(** X14: the zip code check accepts exactly the strings of five
    decimal digits, those of ASCII and those of any other script that
    [\d] knows, alone or followed by one newline at the end of the
    string. *)
Theorem zip_code_format zipcode :
  zip_ok zipcode = true ↔
  ∃ d : str,
    length d = 5 ∧ Forall (fun c => is_digit c = true) d ∧
    (zipcode = d ∨ zipcode = d ++ [newline]).
Proof.
  unfold zip_ok. split.
  - destruct (matches _ zipcode) as [t|] eqn:Hm; [|done].
    apply matches_conforms in Hm as [[k ->] Hc]. cbn [conforms] in Hc.
    destruct Hc as (piece & t' & -> & Hd & Hlo & Hhi & ->).
    rewrite app_nil_r in *. rewrite drop_app_length.
    specialize (Hhi 5 eq_refl). unfold at_end.
    intros [->%bool_decide_eq_true | ->%bool_decide_eq_true]%orb_true_iff;
      exists piece; (split_and!; [lia | done | ]).
    + left. by rewrite app_nil_r.
    + by right.
  - intros (d & Hlen & Hd & [-> | ->]).
    + rewrite <- (app_nil_r d) at 1. rewrite (five_digits_match d [] Hlen Hd).
      by rewrite drop_all.
    + rewrite (five_digits_match d _ Hlen Hd).
      by rewrite drop_app_length.
Qed.

(** *** The text sent to the model *)

Lemma split_not_nil sep s : split sep s ≠ [].
Proof.
  destruct s as [|c s]; simpl; [done|].
  case_bool_decide; [done|]. by destruct (split sep s).
Qed.

Lemma split_at_sep sep (l d : str) :
  sep ∉ l → split sep (l ++ sep :: d) = l :: split sep d.
Proof.
  induction l as [|c l IH]; simpl; intros Hl.
  - by rewrite bool_decide_eq_true_2.
  - apply not_elem_of_cons in Hl as [Hc Hl].
    rewrite bool_decide_eq_false_2 by congruence. by rewrite IH.
Qed.

Lemma join_cons sep line rest :
  rest ≠ [] → join sep (line :: rest) = line ++ sep :: join sep rest.
Proof. by destruct rest. Qed.

Lemma join_split sep s : join sep (split sep s) = s.
Proof.
  induction s as [|c s IH]; [done|]. cbn [split].
  pose proof (split_not_nil sep s) as Hne.
  case_bool_decide as Hc.
  - rewrite join_cons by done. by rewrite IH, Hc.
  - destruct (split sep s) as [|p ps]; [done|].
    rewrite <- IH. by destruct ps.
Qed.

Lemma split_no_sep sep s : Forall (fun line => sep ∉ line) (split sep s).
Proof.
  induction s as [|c s IH]; cbn [split].
  { repeat constructor. apply not_elem_of_nil. }
  case_bool_decide as Hc.
  - constructor; [apply not_elem_of_nil | done].
  - destruct (split sep s) as [|p ps]; [repeat constructor|].
    + rewrite not_elem_of_cons. split; [congruence | apply not_elem_of_nil].
    + apply Forall_cons in IH as [Hp Hps]. constructor; [|done].
      rewrite not_elem_of_cons. split; [congruence | done].
Qed.

Lemma split_whole sep (line : str) : sep ∉ line → split sep line = [line].
Proof.
  induction line as [|c line IH]; [done|]. cbn [split].
  intros [Hc Hl]%not_elem_of_cons.
  rewrite bool_decide_eq_false_2 by congruence. by rewrite IH.
Qed.

Lemma split_join sep lines :
  lines ≠ [] → Forall (fun line => sep ∉ line) lines →
  split sep (join sep lines) = lines.
Proof.
  induction lines as [|line rest IH]; [done|]. intros _ [Hl Hr]%Forall_cons.
  destruct rest as [|line' rest]; [by apply split_whole|].
  rewrite join_cons, split_at_sep by done. by rewrite IH.
Qed.

Lemma join_sublist sep lines1 lines2 :
  lines1 `sublist_of` lines2 → join sep lines1 `sublist_of` join sep lines2.
Proof.
  induction 1 as [|line l1 l2 Hs IH|line l1 l2 Hs IH]; [done| |].
  - destruct l1 as [|a l1].
    + destruct l2 as [|b l2]; [done|].
      rewrite (join_cons _ _ (b :: l2)) by done. by apply sublist_inserts_r.
    + destruct l2 as [|b l2]; [by apply sublist_nil_r in Hs|].
      rewrite !join_cons by done. apply sublist_app; [done|].
      by apply sublist_skip.
  - destruct l2 as [|b l2].
    { apply sublist_nil_r in Hs as ->. apply sublist_nil_l. }
    rewrite join_cons by done. apply sublist_inserts_l. by apply sublist_cons.
Qed.

Lemma visible_lines_no_newline text :
  Forall (fun line => newline ∉ line) (visible_lines text).
Proof.
  apply Forall_forall. intros line [_ Hl]%list_elem_of_filter.
  by eapply Forall_forall in Hl; [|apply split_no_sep].
Qed.

Lemma visible_lines_visible text :
  Forall (fun line => strip line ≠ []) (visible_lines text).
Proof.
  apply Forall_forall. intros line Hl.
  by apply list_elem_of_filter in Hl as [? _].
Qed.

(** X16: the cleaning of the page text only deletes characters and
    keeps at most 12000 of them; when nothing is cut at 12000 the
    cleaned text, if not empty, has no blank line, its lines are the
    non-blank lines of the text in their order, and cleaning it again
    changes nothing. *)
Theorem clean_text_lines text :
  clean_text text `sublist_of` text ∧
  length (clean_text text) ≤ text_limit ∧
  (length (join newline (visible_lines text)) ≤ text_limit →
   (clean_text text ≠ [] →
    split newline (clean_text text) = visible_lines text ∧
    Forall (fun line => strip line ≠ []) (split newline (clean_text text))) ∧
   clean_text (clean_text text) = clean_text text).
Proof.
  unfold clean_text. split_and!.
  - etrans; [apply sublist_take|].
    rewrite <- (join_split newline text) at 2.
    apply join_sublist, sublist_filter.
  - rewrite length_take. lia.
  - intros Hlen. rewrite take_ge by done.
    destruct (visible_lines text) as [|line rest] eqn:Hv.
    { split; [done|]. done. }
    assert (Hs : split newline (join newline (line :: rest)) = line :: rest).
    { apply split_join; [done|]. rewrite <- Hv. apply visible_lines_no_newline. }
    split.
    + intros _. split; [done|]. rewrite Hs, <- Hv. apply visible_lines_visible.
    + unfold visible_lines at 1. rewrite Hs.
      rewrite filter_all_elem
        by (intros l Hl; pose proof (visible_lines_visible text) as Hall;
            rewrite Hv in Hall; by eapply Forall_forall in Hall).
      by rewrite take_ge.
Qed.

End UnicodeFacts.

(** ** ASCII texts in both models *)

Section Agreement.
Context {U : Uni.Unicode}.

Lemma code_inj c c' : code c = code c' → c = c'.
Proof.
  unfold code. intros H. apply (f_equal ascii_of_N) in H.
  by rewrite !ascii_N_embedding in H.
Qed.

Lemma code_points_inj s s' : code_points s = code_points s' → s = s'.
Proof.
  revert s'. induction s as [|c s IH]; intros [|c' s']; try done.
  unfold code_points. rewrite !fmap_cons. intros [= Hc Hs].
  f_equal; [by apply code_inj | by apply IH].
Qed.

Lemma ascii_text_cons c s : ascii_text (c :: s) ↔ (code c < 128)%N ∧ ascii_text s.
Proof. exact (Forall_cons (fun c => (code c < 128)%N) c s). Qed.

Lemma same_is_char a : same_class (is_char a) (Uni.is_char a).
Proof.
  intros c _. unfold is_char, Uni.is_char.
  destruct (decide (c = a)) as [->|Hne].
  - by rewrite !bool_decide_eq_true_2.
  - rewrite !bool_decide_eq_false_2; [done | done |].
    intros H. by apply code_inj in H.
Qed.

Lemma same_is_digit : same_class is_digit Uni.is_digit.
Proof.
  intros c Hc. unfold Uni.is_digit.
  by rewrite (proj2 (N.ltb_lt _ _) Hc).
Qed.

Lemma same_is_space : same_class is_space Uni.is_space.
Proof.
  intros c Hc. unfold Uni.is_space. rewrite (proj2 (N.ltb_lt _ _) Hc).
  unfold is_space, is_char. f_equal.
  destruct (decide (c = " "%char)) as [->|Hne];
    [by rewrite bool_decide_eq_true_2|].
  rewrite bool_decide_eq_false_2 by done. apply N.eqb_neq.
  intros H. apply Hne, code_inj. by rewrite H.
Qed.

Lemma same_is_upper : same_class is_upper Uni.is_upper.
Proof. by intros c _. Qed.

Lemma same_class_or p p' q q' :
  same_class p q → same_class p' q' →
  same_class (fun c => p c || p' c) (fun c => q c || q' c).
Proof. intros H H' c Hc. by rewrite (H c Hc), (H' c Hc). Qed.

Lemma same_phone_sep : same_class phone_sep Uni.phone_sep.
Proof.
  unfold phone_sep, Uni.phone_sep.
  repeat apply same_class_or;
    [apply same_is_char | apply same_is_char | apply same_is_space].
Qed.

Lemma same_alpha_space :
  same_class (fun c => is_alpha c || is_space c)
             (fun c => Uni.is_alpha c || Uni.is_space c).
Proof. apply same_class_or; [by intros c _ | apply same_is_space]. Qed.

(** *** The two matchers *)

Lemma greedy_same p q lo hi k k' prev s :
  same_class p q → same_cont k k' → ascii_text s →
  Uni.greedy q lo hi k' (code_points s)
  = fmap code_points (greedy p lo hi k prev s).
Proof.
  intros Hpq Hk. revert lo hi prev.
  induction s as [|c s IH]; intros lo hi prev Hs.
  { cbn. destruct lo; [by apply (Hk prev [])|done]. }
  apply ascii_text_cons in Hs as [Hc Hs].
  assert (Hstop : match lo with 0 => k' (code_points (c :: s)) | S _ => None end
                  = fmap code_points
                      (match lo with 0 => k prev (c :: s) | S _ => None end)).
  { destruct lo; [|done]. apply Hk. by apply ascii_text_cons. }
  unfold code_points in *. rewrite fmap_cons. cbn [Uni.greedy greedy].
  rewrite (Hpq c Hc). change (Uni.may_take hi) with (may_take hi).
  destruct (p c && may_take hi); [|exact Hstop].
  rewrite (IH (pred lo) (pred <$> hi) (Some c) Hs).
  destruct (greedy p (pred lo) (pred <$> hi) k (Some c) s); [done|exact Hstop].
Qed.

Lemma literal_same l prev s :
  Uni.literal (code_points l) (code_points s)
  = fmap (fun r => code_points r.2) (literal l prev s).
Proof.
  revert prev s. induction l as [|a l IH]; intros prev s; [done|].
  destruct s as [|c s]; [done|].
  unfold code_points in *. rewrite !fmap_cons. cbn [Uni.literal literal].
  destruct (decide (c = a)) as [->|Hne].
  - rewrite !bool_decide_eq_true_2 by done. apply IH.
  - rewrite !bool_decide_eq_false_2; [done | done |].
    intros H. by apply code_inj in H.
Qed.

Lemma ascii_text_after l prev s prev' s' :
  literal l prev s = Some (prev', s') → ascii_text s → ascii_text s'.
Proof.
  intros ->%literal_sound Hs. by apply Forall_app in Hs as [_ ?].
Qed.

Lemma alternatives_same alts k k' prev s :
  same_cont k k' → ascii_text s →
  Uni.alternatives (code_points <$> alts) k' (code_points s)
  = fmap code_points (alternatives alts k prev s).
Proof.
  intros Hk Hs. induction alts as [|l alts IH]; [done|].
  rewrite fmap_cons. cbn [Uni.alternatives alternatives].
  rewrite (literal_same l prev s).
  destruct (literal l prev s) as [[prev' s']|] eqn:Hl; [|exact IH].
  cbn [fmap option_fmap option_map snd].
  rewrite (Hk prev' s' (ascii_text_after _ _ _ _ _ Hl Hs)).
  destruct (k prev' s') as [t|]; [|exact IH].
  cbn. unfold code_points. by rewrite fmap_app.
Qed.

Lemma matches_same r r' :
  Forall2 same_atom r r' → same_cont (matches r) (Uni.matches r').
Proof.
  induction 1 as [|a b r r' Hab _ IH]; [by intros prev s _|].
  intros prev s Hs.
  destruct a as [p|p lo hi|alts|], b as [q|q lo' hi'|alts']; try done;
    cbn [same_atom] in Hab; cbn [matches Uni.matches].
  - destruct s as [|c s]; [done|]. apply ascii_text_cons in Hs as [Hc Hs].
    change (code_points (c :: s)) with (code c :: code_points s).
    cbv iota beta. rewrite (Hab c Hc). destruct (p c); [|done].
    rewrite (IH (Some c) s Hs).
    by destruct (matches r (Some c) s).
  - destruct Hab as (-> & -> & Hpq). by apply greedy_same.
  - subst alts'. by apply alternatives_same.
Qed.

Lemma findall_from_same r r' prev skip s :
  Forall2 same_atom r r' → ascii_text s →
  Uni.findall_from r' skip (code_points s)
  = code_points <$> findall_from r prev skip s.
Proof.
  intros Hr. revert prev skip.
  induction s as [|c s IH]; intros prev skip Hs; [done|].
  pose proof (matches_same r r' Hr prev (c :: s) Hs) as Hm.
  apply ascii_text_cons in Hs as [Hc Hs].
  change (code_points (c :: s)) with (code c :: code_points s) in *.
  cbn [Uni.findall_from findall_from].
  destruct skip as [|n]; [|by apply IH].
  rewrite Hm. destruct (matches r prev (c :: s)) as [t|];
    cbn [fmap option_fmap option_map]; [|by apply IH].
  rewrite fmap_cons. unfold code_points at 2. rewrite length_fmap.
  f_equal. by apply IH.
Qed.

Lemma findall_same r r' s :
  Forall2 same_atom r r' → ascii_text s →
  Uni.findall r' (code_points s) = code_points <$> findall r s.
Proof. apply findall_from_same. Qed.

(** *** The signals of an ASCII page *)

Lemma ascii_text_inside t s : occurs_in t s → ascii_text s → ascii_text t.
Proof.
  intros (before & after & ->) Hs.
  apply Forall_app in Hs as [_ Hs]. by apply Forall_app in Hs as [? _].
Qed.

Lemma filter_same (p : ascii → bool) (q : N → bool) s :
  same_class p q → ascii_text s →
  filter (fun c => q c) (code_points s) = code_points (filter (fun c => p c) s).
Proof.
  intros Hpq. induction 1 as [|c s Hc Hs IH]; [done|].
  change (code_points (c :: s)) with (code c :: code_points s).
  rewrite !filter_cons, (Hpq c Hc), IH. by destruct (p c).
Qed.

Lemma format_phone_same d :
  Uni.format_phone (code_points d) = code_points (format_phone d).
Proof.
  unfold Uni.format_phone, format_phone, code_points.
  by rewrite !fmap_app, !fmap_take, !fmap_drop.
Qed.

Lemma phone_patterns_same :
  Forall2 (Forall2 same_atom) phone_patterns Uni.phone_patterns.
Proof.
  pose proof same_is_digit. pose proof same_is_space.
  pose proof same_phone_sep. pose proof same_is_char.
  unfold phone_patterns, Uni.phone_patterns, chr, Uni.chr.
  repeat constructor; cbn [same_atom]; auto.
Qed.

Lemma address_pattern_same :
  Forall2 same_atom address_pattern Uni.address_pattern.
Proof.
  pose proof same_is_digit. pose proof same_is_space.
  pose proof same_is_upper. pose proof same_alpha_space.
  pose proof same_is_char.
  unfold address_pattern, Uni.address_pattern.
  repeat constructor; cbn [same_atom]; auto.
Qed.

Lemma phones_same html_content :
  ascii_text html_content →
  Uni.phones (code_points html_content)
  = code_points <$> phones html_content.
Proof.
  intros Hs. unfold Uni.phones, phones.
  induction phone_patterns_same as [|r r' rs rs' Hr _ IH]; [done|].
  rewrite !fmap_cons. cbn [concat]. rewrite fmap_app, IH.
  by rewrite (findall_same r r' _ Hr Hs).
Qed.

Lemma phones_loop_same phones acc :
  Forall ascii_text phones →
  Uni.cleaned_phones_loop (code_points <$> phones) (code_points <$> acc)
  = code_points <$> cleaned_phones_loop phones acc.
Proof.
  intros Hall. revert acc. induction Hall as [|phone phones Hp _ IH];
    intros acc; [done|].
  rewrite fmap_cons. cbn [Uni.cleaned_phones_loop cleaned_phones_loop].
  unfold Uni.digits_only, digits_only.
  rewrite (filter_same is_digit Uni.is_digit phone same_is_digit Hp).
  fold (digits_only phone). unfold code_points at 1. rewrite length_fmap.
  destruct (length (digits_only phone) =? 10); [|apply IH].
  rewrite format_phone_same. unfold Uni.mem, mem.
  assert (Hmem : bool_decide (code_points (format_phone (digits_only phone))
                              ∈ code_points <$> acc)
                 = bool_decide (format_phone (digits_only phone) ∈ acc)).
  { apply bool_decide_ext. split.
    - intros (x & Hx & Hin)%list_elem_of_fmap.
      by apply code_points_inj in Hx as ->.
    - intros Hin. apply list_elem_of_fmap. eauto. }
  rewrite Hmem.
  destruct (bool_decide (format_phone (digits_only phone) ∈ acc));
    cbn [negb]; [apply IH|].
  rewrite <- IH. by rewrite fmap_app.
Qed.

Lemma zip_ok_same zipcode :
  ascii_text zipcode → Uni.zip_ok (code_points zipcode) = zip_ok zipcode.
Proof.
  intros Hz. unfold Uni.zip_ok, zip_ok.
  assert (Hr : Forall2 same_atom [Rep is_digit 5 (Some 5)]
                 [Uni.Rep Uni.is_digit 5 (Some 5)]).
  { repeat constructor. apply same_is_digit. }
  rewrite (matches_same _ _ Hr None zipcode Hz).
  destruct (matches _ None zipcode) as [t|]; [|done].
  cbn [fmap option_fmap option_map].
  unfold code_points at 1. rewrite length_fmap.
  unfold code_points. rewrite <- fmap_drop.
  unfold Uni.at_end, at_end. f_equal.
  - apply bool_decide_ext. by destruct (drop (length t) zipcode).
  - apply bool_decide_ext. split.
    + intros H. by apply code_points_inj.
    + by intros ->.
Qed.

(** X18: on ASCII texts the two models agree: the phone list and the
    address that the signals hold for a page, and the answer of the zip
    code check, are those of the model on code points. *)
Theorem ascii_signals_agree html_content text zipcode :
  ascii_text html_content → ascii_text text → ascii_text zipcode →
  Uni.cleaned_phones (code_points html_content)
  = code_points <$> phone_list (contact_signals html_content text) ∧
  Uni.main_address (code_points text)
  = code_points <$> main_address (contact_signals html_content text) ∧
  Uni.zip_ok (code_points zipcode) = zip_ok zipcode.
Proof.
  intros Hh Ht Hz. cbn [contact_signals phone_list main_address].
  split_and!.
  - unfold Uni.cleaned_phones, cleaned_phones. rewrite phones_same by done.
    apply (phones_loop_same _ []). apply Forall_forall. intros phone Hp.
    unfold phones in Hp. apply list_elem_of_In, in_concat in Hp.
    destruct Hp as (l & Hl & Hp). apply list_elem_of_In in Hl, Hp.
    apply list_elem_of_fmap in Hl as (pattern & -> & _).
    apply findall_sound in Hp as [Ho _]. by apply (ascii_text_inside _ _ Ho).
  - unfold Uni.main_address.
    rewrite (findall_same _ _ _ address_pattern_same Ht).
    by destruct (findall address_pattern text).
  - by apply zip_ok_same.
Qed.

End Agreement.

(** ** The added properties on concrete worlds *)

Lemma merge_keeps_model_fields_witness :
  let reply := jq "{'business_name': 'Acme', 'phone': '555-0000', 'city': 'Redmond'}" in
  let final :=
    (extract_business_info (E := scripted) page_three url_three
       (replying [ChatReply reply], [])).1 in
  final !! "city" = Some (PyStr (txt "Redmond")) ∧
  is_Some (final !! "business_name") ∧
  merge url_three (contact_signals page_three page_three) final = final.
Proof.
  intros reply final.
  pose proof (merge_keeps_model_fields (E := scripted) page_three url_three
                (replying [ChatReply reply]) [] reply (replying [])
                (<["city" := PyStr (txt "Redmond")]>
                   (<["phone" := PyStr (txt "555-0000")]>
                      (<["business_name" := PyStr (txt "Acme")]> ∅)))
                eq_refl ltac:(by vm_compute)) as (Hother & Hkept & _ & Hidem).
  split_and!.
  - etrans; [apply Hother|by vm_compute].
    apply (bool_decide_unpack _). by vm_compute.
  - apply Hkept. eexists. vm_compute. reflexivity.
  - apply Hidem.
Defined.

Lemma empty_reply_reads_as_degraded_witness :
  get (extract_business_info (E := scripted) page_three url_three
         (replying [ChatError], [])).1 "phone"
  = get (extract_business_info (E := scripted) page_three url_three
           (replying [ChatReply (txt "{}")], [])).1 "phone".
Proof.
  apply (empty_reply_reads_as_degraded (E := scripted) page_three url_three
           (replying [ChatError]) [] ChatError (replying [])
           (replying [ChatReply (txt "{}")]) [] (txt "{}") (replying [])
           "phone" eq_refl (or_introl eq_refl) eq_refl).
  by vm_compute.
Defined.

Lemma search_results_valid_witness :
  (_search_google_oxylabs (SE := search_scripted) (txt "plumber near 98052") 10
     ({| pages_world := demo_world; answers := [PostUnauthorized] |}, [])).1 = [].
Proof.
  pose proof (search_results_valid (SE := search_scripted)
                (txt "plumber near 98052") 10
                {| pages_world := demo_world; answers := [PostUnauthorized] |} [])
    as H.
  destruct (_search_google_oxylabs _ _ _) as [urls [w' log']].
  destruct H as (_ & _ & _ & H).
  destruct (H ltac:(by intros [=])) as [_ Hresponse].
  destruct (Hresponse PostUnauthorized eq_refl) as [Hnone _].
  apply Hnone. by right.
Defined.

Lemma search_takes_first_valid_witness :
  let items :=
    [organic_item "http://three.example/";
     organic_item "https://www.yelp.com/biz/acme";
     organic_item "http://one.example/"; organic_item "http://two.example/"] in
  organic_urls (SE := search_scripted) 2 (serp items)
  = Some [txt "http://three.example/"; txt "http://one.example/"].
Proof.
  intros items.
  pose proof (search_takes_first_valid (SE := search_scripted) 2
                {[ "results" :=
                   PyList [PyDict {[ "content" :=
                     PyDict {[ "results" :=
                       PyDict {[ "organic" := PyList items ]} ]} ]}] ]}
                [PyDict {[ "content" :=
                   PyDict {[ "results" :=
                     PyDict {[ "organic" := PyList items ]} ]} ]}]
                [items]) as H.
  etrans; [apply H|].
  - vm_compute. reflexivity.
  - constructor; [|constructor]. split; [vm_compute; reflexivity|].
    repeat constructor.
  - vm_compute. reflexivity.
Defined.

Lemma searches_in_order_witness :
  (fetch_business_urls_by_zipcode (SE := search_scripted) (txt "98052") 0
     ({| pages_world := demo_world; answers := [] |}, [])).1 = [].
Proof.
  destruct (searches_in_order (SE := search_scripted) (txt "98052") 0
              {| pages_world := demo_world; answers := [] |} [])
    as [searched H].
  destruct (fetch_business_urls_by_zipcode _ _ _) as [urls [w' log']].
  destruct H as (_ & _ & _ & Hnone). by destruct Hnone as [_ ->].
Defined.

Lemma run_by_zipcode_outcome_witness :
  ∃ record,
    (run_by_zipcode (SE := search_scripted) (txt "98052") 1 acme_world).1
    = Saved [record] ∧
    truthy (get record "business_name") = true ∧
    get record "source_url" = PyStr url_three.
Proof.
  pose proof (run_by_zipcode_outcome (SE := search_scripted) (txt "98052") 1
                acme_world) as H.
  destruct (run_by_zipcode _ _ _) as [result [[w' searches] log]] eqn:Hrun.
  vm_compute in Hrun. injection Hrun as <- _ _ _.
  destruct H as (_ & _ & _ & [[Hname _] _]%Forall_cons).
  eexists. split_and!; [reflexivity | exact Hname | by vm_compute].
Defined.

Lemma degraded_record_parsed_witness :
  (extract_business_info_or_raise (PE := strict_parser) page_three url_three
     (replying [ChatError], [])).1
  = Some (signal_only url_three (contact_signals page_three page_three)) ∧
  (extract_business_info_or_raise (PE := strict_parser) page_three url_three
     (replying [ChatReply (txt "Sorry, no data.")], [])).1
  = Some (signal_only url_three (contact_signals page_three page_three)).
Proof.
  pose proof (degraded_record_parsed (PE := strict_parser) page_three
                url_three ltac:(vm_compute; reflexivity)) as H.
  cbv zeta in H. destruct H as [_ H]. split.
  - destruct (H (replying [ChatError]) [] ChatError (replying []) eq_refl
                (or_introl eq_refl)) as (st' & Heq & _).
    exact (f_equal fst Heq).
  - destruct (H (replying [ChatReply (txt "Sorry, no data.")]) []
                (ChatReply (txt "Sorry, no data.")) (replying []) eq_refl
                ltac:(right; eexists; split; [done|]; intros model;
                      by vm_compute)) as (st' & Heq & _).
    exact (f_equal fst Heq).
Defined.

(** The adapter raises on markup that the parser rejects, before any call
    of the model. *)
Lemma extract_raises_on_rejected_markup :
  extract_business_info_or_raise (PE := strict_parser) rejected_page url_two
    (replying [ChatReply verdict_reply], [])
  = (None, (replying [ChatReply verdict_reply], [])) ∧
  ¬ (∀ (PE : ParserEnv) html_content url st,
       ∃ record st',
         extract_business_info_or_raise html_content url st
         = (Some record, st')).
Proof.
  split; [vm_compute; reflexivity|].
  intros H.
  destruct (H strict_parser rejected_page url_two
              (replying [ChatReply verdict_reply], [])) as (record & st' & Heq).
  vm_compute in Heq. discriminate.
Qed.



Section UnicodeExamples.
Import Uni.

Lemma unicode_14_disjoint : classes_disjoint unicode_14.
Proof.
  intros c Hc%bool_decide_eq_true. unfold spaces_above in Hc.
  repeat (apply elem_of_cons in Hc as [->|Hc]);
    [vm_compute; reflexivity ..|by apply elem_of_nil in Hc].
Qed.

Lemma phones_canonical_witness :
  let page :=
    txt "Tel 555" ++ [nbsp] ++ txt "123" ++ [nbsp] ++ txt "4567" in
  cleaned_phones (U := unicode_14) page = [txt "(555) 123-4567"] ∧
  fullmatch (canonical_phone (U := unicode_14)) (txt "(555) 123-4567") = true.
Proof.
  intros page.
  assert (Hp : cleaned_phones (U := unicode_14) page = [txt "(555) 123-4567"])
    by (vm_compute; reflexivity).
  split; [done|].
  apply (proj1 (phones_canonical (U := unicode_14)) page).
  rewrite Hp. apply list_elem_of_here.
Defined.

Lemma phone_matches_all_kept_witness :
  let page := txt "Call 555-123-4567 or (555) 987.6543" in
  occurs_in (txt "(555) 987.6543") page ∧
  length (digits_only (U := unicode_14) (txt "(555) 987.6543")) = 10.
Proof.
  intros page.
  apply (proj1 (phone_matches_all_kept (U := unicode_14) unicode_14_disjoint)
           page).
  apply (bool_decide_unpack _). vm_compute. reflexivity.
Defined.

Lemma main_address_shape_witness :
  let a := txt "123" ++ [nbsp] ++ txt "Main Street." in
  occurs_in a (txt "Visit " ++ a ++ txt " or 77 Sunset Blvd today") ∧
  (∃ d rest, a = d :: rest ∧ is_digit (U := unicode_14) d = true) ∧
  ∃ street, street ∈ street_types ∧
            (street `suffix_of` a ∨ (street ++ txt ".") `suffix_of` a).
Proof.
  intros a.
  apply (main_address_shape (U := unicode_14)
           (txt "Visit " ++ a ++ txt " or 77 Sunset Blvd today")).
  vm_compute. reflexivity.
Defined.

Lemma zip_code_format_witness :
  zip_ok (U := unicode_14) (txt "98052") = true ∧
  zip_ok (U := unicode_14)
    ((fun d => fullwidth_zero + d)%N <$> [9; 8; 0; 5; 2]%N) = true ∧
  zip_ok (U := unicode_14) (txt "9805") = false ∧
  zip_ok (U := unicode_14) (txt "98052-1234") = false.
Proof.
  split_and!.
  - apply zip_code_format. exists (txt "98052").
    split_and!; [done | | by left].
    apply (bool_decide_unpack _). vm_compute. reflexivity.
  - apply zip_code_format. eexists.
    split_and!; [ | | by left]; [done|].
    apply (bool_decide_unpack _). vm_compute. reflexivity.
  - apply not_true_is_false. intros (d & Hlen & _ & [Hd | Hd])%zip_code_format.
    + by rewrite <- Hd in Hlen.
    + apply (f_equal length) in Hd. rewrite length_app in Hd. cbn in Hd. lia.
  - apply not_true_is_false. intros (d & Hlen & _ & [Hd | Hd])%zip_code_format.
    + by rewrite <- Hd in Hlen.
    + apply (f_equal length) in Hd. rewrite length_app in Hd. cbn in Hd. lia.
Defined.

Lemma clean_text_lines_witness :
  let text := txt "Acme" ++ [newline; nbsp; newline] ++ txt "Plumbing" in
  clean_text (U := unicode_14) text = txt "Acme" ++ [newline] ++ txt "Plumbing" ∧
  clean_text (U := unicode_14) text `sublist_of` text ∧
  clean_text (U := unicode_14) (clean_text (U := unicode_14) text)
  = clean_text (U := unicode_14) text.
Proof.
  intros text.
  destruct (clean_text_lines (U := unicode_14) text) as (Hsub & _ & Hlines).
  split_and!; [vm_compute; reflexivity | done |].
  apply Hlines. apply Nat.leb_le. vm_compute. reflexivity.
Defined.

End UnicodeExamples.

Lemma ascii_signals_agree_witness :
  Uni.cleaned_phones (U := Uni.unicode_14) (code_points page_three)
  = code_points <$> phone_list (contact_signals page_three page_three) ∧
  Uni.zip_ok (U := Uni.unicode_14) (code_points (txt "98052"))
  = zip_ok (txt "98052").
Proof.
  destruct (ascii_signals_agree (U := Uni.unicode_14) page_three page_three
              (txt "98052")
              ltac:(apply (bool_decide_unpack _); by vm_compute)
              ltac:(apply (bool_decide_unpack _); by vm_compute)
              ltac:(apply (bool_decide_unpack _); by vm_compute))
    as (Hphones & _ & Hzip).
  by split.
Defined.
